(** * Blackjack: a shallow embedding of [blackjack.py] and its properties

    The development follows the source class by class: [Card], [Shoe],
    [Hand], [Dealer], [Player] and [Game] each become a module holding a
    record for the object's fields and one function per method.

    Modelling choices.
    - Python [int]s are [Z]; counters that start at zero and are only
      incremented ([num_aces], list indices) are [nat].
    - [money] is a Python float that starts at [1000.0] and is only ever
      changed by adding or subtracting an integer bet or [1.5] times an
      integer bet.  Every such value is a multiple of one half, and binary
      floating point is exact on those as long as they stay below [2^52],
      so money is modelled by the rationals [Q], compared with [==].
    - A mutable list of objects ([player.hands], [game.players]) is a list
      updated by index; a method that receives a [hand] object of the
      player receives the index of that hand instead.
    - A call that does not return normally (an [IndexError] from popping an
      empty list or indexing past its end, or a prompt that finds no more
      input) yields [None].
    - [print] output is kept only where a claim reads it (the result lines
      of [do_results]). *)

From Stdlib Require Import ZArith QArith Lqa Lia Ascii String.
From stdpp Require Import base option list strings pretty.

Open Scope Z_scope.

(** ** Card *)

Module Card.

Record t : Type := mk { value : Z; type : string }.

(** [str(card)] for an integer is its decimal rendering. *)
Definition str (n : Z) : string := pretty n.

(** [Card.__init__] *)
Definition new (card : Z) : t :=
  if card =? 1 then mk 11 "A"
  else if card <=? 10 then mk card (str card)
  else if card =? 11 then mk 10 "J"
  else if card =? 12 then mk 10 "Q"
  else mk 10 "K".

Definition is_ace (c : t) : bool := String.eqb (type c) "A".

#[global] Instance eq_dec : EqDecision t.
Proof. solve_decision. Defined.

End Card.

(** ** Hand *)

Module Hand.

Record t : Type := mk {
  cards : list Card.t;
  num_aces : nat;
  bet : Z;
  split_ace : bool
}.

(** [Hand.__init__] *)
Definition new (bet : Z) : t := mk [] 0 bet false.

(** [Hand.add] *)
Definition add (self : t) (card : Card.t) : t :=
  mk (cards self ++ [card])
     (if Card.is_ace card then S (num_aces self) else num_aces self)
     (bet self) (split_ace self).

(** [sum(card.value for card in self.cards)] *)
Definition sum_values (cs : list Card.t) : Z :=
  fold_left (fun acc c => acc + Card.value c) cs 0.

(** The loop [while temp > 0 and real_value > 21] of [Hand.value]. *)
Fixpoint soften (temp : nat) (real_value : Z) : Z :=
  match temp with
  | O => real_value
  | S temp' =>
      if 21 <? real_value then soften temp' (real_value - 10)
      else real_value
  end.

(** [Hand.value] *)
Definition value (self : t) : Z :=
  soften (num_aces self) (sum_values (cards self)).

(** [Hand.is_bust] *)
Definition is_bust (self : t) : bool := 21 <? value self.

(** [Hand.can_split]; [and] short-circuits, so the cards are only
    indexed when there are two of them. *)
Definition can_split (self : t) : bool :=
  (length (cards self) =? 2)%nat
  && match cards self with
     | c0 :: c1 :: _ => String.eqb (Card.type c0) (Card.type c1)
     | _ => false
     end.

(** A fresh hand that has been dealt the cards [cs] in order. *)
Definition dealt (bet : Z) (cs : list Card.t) : t :=
  fold_left add cs (new bet).

(** Number of ace-labelled cards in a list. *)
Definition count_aces (cs : list Card.t) : nat :=
  length (filter (fun c => Card.is_ace c = true) cs).

End Hand.

(** ** Python list helpers *)

(** [l.pop()]: removes and returns the last item; [None] stands for the
    [IndexError] raised on an empty list. *)
Fixpoint pop {A : Type} (l : list A) : option (A * list A) :=
  match l with
  | [] => None
  | x :: l' =>
      match l' with
      | [] => Some (x, [])
      | _ :: _ =>
          match pop l' with
          | Some (y, r) => Some (y, x :: r)
          | None => None
          end
      end
  end.

(** [x[i], x[j] = x[j], x[i]] *)
Definition swap {A : Type} (l : list A) (i j : nat) : list A :=
  match l !! i, l !! j with
  | Some a, Some b => <[j := a]> (<[i := b]> l)
  | _, _ => l
  end.

(** [range(n)] *)
Definition range (n : Z) : list Z := map Z.of_nat (seq 0 (Z.to_nat n)).

(** ** Shoe *)

Module Shoe.

Record t : Type := mk { cards : list Card.t }.

(** [range(1, 14)] *)
Definition ranks : list Z := map Z.of_nat (seq 1 13).

(** The outer loop of [Shoe.__init__]: each pass appends [Card(i)] for
    the thirteen ranks. *)
Fixpoint fill (passes : nat) (cards : list Card.t) : list Card.t :=
  match passes with
  | O => cards
  | S passes' => fill passes' (cards ++ map Card.new ranks)
  end.

(** [Shoe.__init__]; [range] of a non-positive number is empty. *)
Definition new (num_decks : Z) : t :=
  mk (fill (Z.to_nat (num_decks * 4)) []).

(** [random.shuffle] is the library's Fisher-Yates loop
    [for i in reversed(range(1, len(x))): j = randbelow(i + 1); swap].
    The random source is an oracle [rnd]: the draw made at position [i]
    is [rnd i mod (i + 1)], any number from [0] to [i]. *)
Fixpoint shuffle_from (rnd : nat -> nat) (i : nat) (x : list Card.t)
  : list Card.t :=
  match i with
  | O => x
  | S i' => shuffle_from rnd i' (swap x i (rnd i mod (S i))%nat)
  end.

(** [Shoe.shuffle] *)
Definition shuffle (rnd : nat -> nat) (self : t) : t :=
  mk (shuffle_from rnd (length (cards self) - 1) (cards self)).

(** [Shoe.get_card] *)
Definition get_card (self : t) : option (Card.t * t) :=
  match pop (cards self) with
  | Some (card, rest) => Some (card, mk rest)
  | None => None
  end.

(** [k] successive draws. *)
Fixpoint draw_many (k : nat) (self : t) : option (list Card.t * t) :=
  match k with
  | O => Some ([], self)
  | S k' =>
      match get_card self with
      | Some (card, self') =>
          match draw_many k' self' with
          | Some (drawn, final) => Some (card :: drawn, final)
          | None => None
          end
      | None => None
      end
  end.

End Shoe.

(** ** Dealer *)

Module Dealer.

Record t : Type := mk { hands : list Hand.t; name : string }.

(** [Dealer.__init__] *)
Definition new : t := mk [Hand.new 0] "Dealer".

(** [Dealer.can_hit] *)
Definition can_hit (self : t) : option bool :=
  match hands self !! 0%nat with
  | Some hand => Some (Hand.value hand <? 17)
  | None => None
  end.

(** [Dealer.bust] *)
Definition bust (self : t) : option bool :=
  match hands self !! 0%nat with
  | Some hand => Some (21 <? Hand.value hand)
  | None => None
  end.

(** [Dealer.reset] *)
Definition reset (self : t) : t := mk [Hand.new 0] (name self).

End Dealer.

(** ** Player *)

Module Player.

Record t : Type := mk {
  hands : list Hand.t;
  money : Q;
  blackjack : bool;
  name : string
}.

(** [Player.__init__] *)
Definition new (player_num : Z) : t :=
  mk [] 1000 false ("player " +:+ Card.str player_num).

(** [Player.is_active] *)
Definition is_active (self : t) : bool :=
  if blackjack self then false
  else existsb (fun hand => negb (Hand.is_bust hand)) (hands self).

(** [Player.double], on the hand at index [i] of [self.hands]. *)
Definition double (self : t) (i : nat) : option t :=
  match hands self !! i with
  | Some hand =>
      let hand' :=
        Hand.mk (Hand.cards hand) (Hand.num_aces hand)
                (Hand.bet hand * 2) (Hand.split_ace hand) in
      Some (mk (<[i := hand']> (hands self))
               (money self - inject_Z (Hand.bet hand))%Q
               (blackjack self) (name self))
  | None => None
  end.

(** [Player.split], on the hand at index [i] of [self.hands]; returns
    the player and the index of [newHand] in the list.  The ace count
    [num_aces] of the original hand is left as it was: [hand.cards.pop()]
    bypasses it. *)
Definition split (self : t) (i : nat) : option (t * nat) :=
  match hands self !! i with
  | Some hand =>
      match pop (Hand.cards hand) with
      | Some (card, rest) =>
          let newHand0 := Hand.add (Hand.new (Hand.bet hand)) card in
          let newHand :=
            Hand.mk (Hand.cards newHand0) (Hand.num_aces newHand0)
                    (Hand.bet newHand0) true in
          let hand' :=
            Hand.mk rest (Hand.num_aces hand) (Hand.bet hand) true in
          Some (mk (<[i := hand']> (hands self) ++ [newHand])
                   (money self - inject_Z (Hand.bet hand))%Q
                   (blackjack self) (name self),
                length (hands self))
      | None => None
      end
  | None => None
  end.

(** [Player.reset] *)
Definition reset (self : t) : t := mk [] (money self) false (name self).

(** [Player.add_hand] *)
Definition add_hand (self : t) (hand : Hand.t) : t :=
  mk (hands self ++ [hand]) (money self - inject_Z (Hand.bet hand))%Q
     (blackjack self) (name self).

(** [Player.win_hand] *)
Definition win_hand (self : t) (hand : Hand.t) : t :=
  let money1 := (money self + inject_Z (Hand.bet hand))%Q in
  mk (hands self)
     (if blackjack self
      then (money1 + inject_Z (Hand.bet hand) * (3 # 2))%Q
      else (money1 + inject_Z (Hand.bet hand))%Q)
     (blackjack self) (name self).

(** [Player.push_hand] *)
Definition push_hand (self : t) (hand : Hand.t) : t :=
  mk (hands self) (money self + inject_Z (Hand.bet hand))%Q
     (blackjack self) (name self).

(** [Player.bust] *)
Definition bust (self : t) (hand : Hand.t) : bool := Hand.is_bust hand.

(** The assignment [player.blackjack = True]. *)
Definition set_blackjack (self : t) : t :=
  mk (hands self) (money self) true (name self).

(** Writing back the hand at index [i] after it was mutated. *)
Definition with_hand (self : t) (i : nat) (hand : Hand.t) : t :=
  mk (<[i := hand]> (hands self)) (money self) (blackjack self)
     (name self).

End Player.

(** ** Game *)

Module Game.

Record t : Type := mk {
  shoe : Shoe.t;
  players : list Player.t;
  dealer : Dealer.t
}.

(** [Game.__init__] *)
Definition new (num_players : Z) : t :=
  mk (Shoe.new (Z.max num_players 6))
     (map (fun i => Player.new (i + 1)) (range num_players))
     Dealer.new.

(** [Game.hit]: draws a card from the shoe into [hand]; the caller
    holds the hand by reference, here it is handed back. *)
Definition hit (self : t) (hand : Hand.t) : option (t * Hand.t) :=
  match Shoe.get_card (shoe self) with
  | Some (card, shoe') =>
      Some (mk shoe' (players self) (dealer self), Hand.add hand card)
  | None => None
  end.

(** [self.hit(self.dealer, self.dealer.hands[0])] *)
Definition hit_dealer (self : t) : option t :=
  hand ← Dealer.hands (dealer self) !! 0%nat;
  '(g, hand') ← hit self hand;
  Some (mk (shoe g) (players g)
           (Dealer.mk (<[0%nat := hand']> (Dealer.hands (dealer g)))
                      (Dealer.name (dealer g)))).

(** [self.hit(player, hand)] for hand [i] of player [pi]. *)
Definition hit_player (self : t) (pi i : nat) : option t :=
  player ← players self !! pi;
  hand ← Player.hands player !! i;
  '(g, hand') ← hit self hand;
  Some (mk (shoe g)
           (<[pi := Player.with_hand player i hand']> (players g))
           (dealer g)).

(** Storing a player back after one of its methods ran. *)
Definition with_player (self : t) (pi : nat) (player : Player.t) : t :=
  mk (shoe self) (<[pi := player]> (players self)) (dealer self).

(** [Game.has_active_players] *)
Definition has_active_players (self : t) : bool :=
  existsb Player.is_active (players self).

(** [Game.reset]; [clear] only touches the screen. *)
Definition reset (rnd : nat -> nat) (self : t) : t :=
  mk (Shoe.shuffle rnd (Shoe.new (Z.of_nat (length (players self)))))
     (map Player.reset (players self))
     (Dealer.reset (dealer self)).

(** *** Blackjack check *)

(** The body of the loop of [check_blackjack] for one player; the
    boolean tells whether this player got a blackjack.  An active
    player has a hand, so the empty case is never met. *)
Definition check_blackjack_player (dealer_blackjack : bool)
    (player : Player.t) : Player.t * bool :=
  if negb (Player.is_active player) then (player, false)
  else
    match Player.hands player with
    | [] => (player, false)
    | hand :: _ =>
        if Hand.value hand =? 21 then
          let player' := Player.set_blackjack player in
          (if dealer_blackjack then Player.push_hand player' hand
           else Player.win_hand player' hand, true)
        else (player, false)
    end.

(** [Game.check_blackjack] *)
Definition check_blackjack (self : t) : option (bool * t) :=
  dealer_hand ← Dealer.hands (dealer self) !! 0%nat;
  let dealer_blackjack := Hand.value dealer_hand =? 21 in
  let checked := map (check_blackjack_player dealer_blackjack)
                     (players self) in
  let blackjack := existsb snd checked in
  let g := mk (shoe self) (map fst checked) (dealer self) in
  if blackjack && dealer_blackjack then Some (false, g)
  else if negb (has_active_players g) then Some (false, g)
  else Some (true, g).

(** *** Dealing *)

(** The two [hit]s on [player.hands[0]] in the loop of [deal]. *)
Definition deal_player (self : t) (pi : nat) : option t :=
  g ← hit_player self pi 0; hit_player g pi 0.

Fixpoint deal_players (idx : list nat) (self : t) : option t :=
  match idx with
  | [] => Some self
  | pi :: idx' => g ← deal_player self pi; deal_players idx' g
  end.

(** [Game.deal] *)
Definition deal (self : t) : option (bool * t) :=
  g1 ← hit_dealer self;
  g2 ← hit_dealer g1;
  g3 ← deal_players (seq 0 (length (players g2))) g2;
  check_blackjack g3.

(** *** Dealer turn *)

(** [while self.dealer.can_hit(): self.hit(...)]; every pass removes a
    card from the shoe, so [fuel] beyond the size of the shoe is never
    used up. *)
Fixpoint dealer_loop (fuel : nat) (self : t) : option t :=
  match fuel with
  | O => None
  | S fuel' =>
      can ← Dealer.can_hit (dealer self);
      if can : bool then g ← hit_dealer self; dealer_loop fuel' g
      else Some self
  end.

(** [Game.do_dealer_turn] *)
Definition do_dealer_turn (self : t) : option t :=
  dealer_loop (S (length (Shoe.cards (shoe self)))) self.

(** *** Results *)

Inductive verdict : Type := Win | Push | Loss.

(** A printed result line: player name, hand number, verdict. *)
Definition line : Type := string * nat * verdict.

(** The body of the inner loop of [do_results] for hand number [i]. *)
Definition do_results_hand (dealer_bust : bool) (dealer_total : Z)
    (player : Player.t) (i : nat) (hand : Hand.t)
  : Player.t * list line :=
  if Hand.is_bust hand then (player, [])
  else
    let player_total := Hand.value hand in
    if dealer_bust || (dealer_total <? player_total) then
      (Player.win_hand player hand, [(Player.name player, S i, Win)])
    else if player_total =? dealer_total then
      (Player.push_hand player hand, [(Player.name player, S i, Push)])
    else (player, [(Player.name player, S i, Loss)]).

(** [for i, hand in enumerate(player.hands)], from index [i] on. *)
Fixpoint do_results_hands (dealer_bust : bool) (dealer_total : Z)
    (i : nat) (hands : list Hand.t) (player : Player.t)
  : Player.t * list line :=
  match hands with
  | [] => (player, [])
  | hand :: hands' =>
      let '(player1, out1) :=
        do_results_hand dealer_bust dealer_total player i hand in
      let '(player2, out2) :=
        do_results_hands dealer_bust dealer_total (S i) hands' player1 in
      (player2, out1 ++ out2)
  end.

(** The body of the outer loop of [do_results]. *)
Definition do_results_player (dealer_bust : bool) (dealer_total : Z)
    (player : Player.t) : Player.t * list line :=
  if negb (Player.is_active player) then (player, [])
  else do_results_hands dealer_bust dealer_total 0
                        (Player.hands player) player.

(** [Game.do_results] *)
Definition do_results (self : t) : option (t * list line) :=
  dealer_bust ← Dealer.bust (dealer self);
  dealer_hand ← Dealer.hands (dealer self) !! 0%nat;
  let dealer_total := Hand.value dealer_hand in
  let settled := map (do_results_player dealer_bust dealer_total)
                     (players self) in
  Some (mk (shoe self) (map fst settled) (dealer self),
        concat (map snd settled)).

(** *** Player turns *)

Inductive flow : Type := Break | Continue | Quit.

(** One pass through the body of [while True] in [do_player_turn], for
    hand [i] of player [pi] once the [split_ace] test has let it through.
    It reads one prompt, two when the first answer is ["q"]. *)
Definition action (self : t) (pi i : nat) (inputs : list string)
  : option (flow * t * list string) :=
  player ← players self !! pi;
  hand ← Player.hands player !! i;
  match inputs with
  | [] => None
  | user_input :: rest =>
      if String.eqb user_input "q" then
        match rest with
        | [] => None
        | quit :: rest' =>
            if String.eqb quit "y" then Some (Quit, self, rest')
            else Some (Continue, self, rest')
        end
      else if String.eqb user_input "h" then
        g ← hit_player self pi i;
        player' ← players g !! pi;
        hand' ← Player.hands player' !! i;
        Some (if Player.bust player' hand' then Break else Continue,
              g, rest)
      else if String.eqb user_input "s" then Some (Break, self, rest)
      else if String.eqb user_input "sp" then
        if Hand.can_split hand then
          if (length (Player.hands player) <? 4)%nat then
            if Qle_bool (inject_Z (Hand.bet hand)) (Player.money player)
            then
              '(player', newHand) ← Player.split player i;
              g1 ← hit_player (with_player self pi player') pi i;
              g2 ← hit_player g1 pi newHand;
              Some (Continue, g2, rest)
            else Some (Continue, self, rest)
          else Some (Continue, self, rest)
        else Some (Continue, self, rest)
      else if String.eqb user_input "d" then
        if Qle_bool (inject_Z (Hand.bet hand)) (Player.money player)
        then
          player' ← Player.double player i;
          g ← hit_player (with_player self pi player') pi i;
          Some (Break, g, rest)
        else Some (Continue, self, rest)
      else Some (Continue, self, rest)
  end.

(** [for i, hand in enumerate(player.hands): while True: ...] from hand
    [i] on; the list may grow while it is walked.  [fuel] bounds the
    number of passes; the boolean is the return value. *)
Fixpoint turn_from (fuel : nat) (self : t) (pi i : nat)
    (inputs : list string) : option (bool * t * list string) :=
  match fuel with
  | O => None
  | S fuel' =>
      player ← players self !! pi;
      match Player.hands player !! i with
      | None => Some (true, self, inputs)
      | Some hand =>
          if Hand.split_ace hand then turn_from fuel' self pi (S i) inputs
          else
            '(fl, g, rest) ← action self pi i inputs;
            match fl with
            | Quit => Some (false, g, rest)
            | Break => turn_from fuel' g pi (S i) rest
            | Continue => turn_from fuel' g pi i rest
            end
      end
  end.

(** [Game.do_player_turn] *)
Definition do_player_turn (fuel : nat) (self : t) (pi : nat)
    (inputs : list string) : option (bool * t * list string) :=
  turn_from fuel self pi 0 inputs.

Fixpoint player_turns_from (fuel : nat) (idx : list nat) (self : t)
    (inputs : list string) : option (bool * t * list string) :=
  match idx with
  | [] => Some (true, self, inputs)
  | pi :: idx' =>
      player ← players self !! pi;
      if Player.is_active player then
        '(ok, g, rest) ← do_player_turn fuel self pi inputs;
        if ok : bool then player_turns_from fuel idx' g rest
        else Some (false, g, rest)
      else player_turns_from fuel idx' self inputs
  end.

(** [Game.do_player_turns] *)
Definition do_player_turns (fuel : nat) (self : t) (inputs : list string)
  : option (bool * t * list string) :=
  player_turns_from fuel (seq 0 (length (players self))) self inputs.

(** *** Bets *)

Section Bets.

(** Python's built-in [int] on a string: [None] for [ValueError]. *)
Variable int : string -> option Z.

Inductive reply : Type :=
| Accepted (player : Player.t)
| Rejected
| QuitBets.

(** One pass through the body of [while True] in [take_bets], on the
    text [bet] read from the prompt. *)
Definition bet_entry (player : Player.t) (bet : string) : reply :=
  if String.eqb bet "q" then QuitBets
  else
    match int bet with
    | None => Rejected
    | Some bet =>
        if (bet <? 0) || negb (Qle_bool (inject_Z bet)
                                        (Player.money player))
        then Rejected
        else Accepted (Player.add_hand player (Hand.new bet))
    end.

(** The [while True] loop for one player: [Some player'] once a bet
    is accepted, [None] inside when the user quits. *)
Fixpoint bet_loop (player : Player.t) (inputs : list string)
  : option (option Player.t * list string) :=
  match inputs with
  | [] => None
  | bet :: rest =>
      match bet_entry player bet with
      | QuitBets => Some (None, rest)
      | Rejected => bet_loop player rest
      | Accepted player' => Some (Some player', rest)
      end
  end.

(** [for player in self.players]: the players already served keep
    their bets when a later one quits. *)
Fixpoint take_bets_players (ps : list Player.t) (inputs : list string)
  : option (bool * list Player.t * list string) :=
  match ps with
  | [] => Some (true, [], inputs)
  | player :: ps' =>
      '(served, rest) ← bet_loop player inputs;
      match served with
      | None => Some (false, player :: ps', rest)
      | Some player' =>
          '(ok, ps'', rest') ← take_bets_players ps' rest;
          Some (ok, player' :: ps'', rest')
      end
  end.

(** [Game.take_bets] *)
Definition take_bets (self : t) (inputs : list string)
  : option (bool * t * list string) :=
  '(ok, ps, rest) ← take_bets_players (players self) inputs;
  Some (ok, mk (shoe self) ps (dealer self), rest).

(** [Game.start] *)
Definition start (self : t) (inputs : list string)
  : option (bool * t * list string) :=
  '(ok, g, rest) ← take_bets self inputs;
  if ok : bool then '(ok', g') ← deal g; Some (ok', g', rest)
  else Some (false, g, rest).

(** One pass of the [while True] loop of [main], up to the "play
    again" prompt: the boolean is [false] when [main] returns because
    the user quit during the player turns. *)
Definition play_round (rnd : nat -> nat) (fuel : nat) (self : t)
    (inputs : list string)
  : option (bool * t * list string * list line) :=
  let g0 := reset rnd self in
  '(started, g1, rest1) ← start g0 inputs;
  if started : bool then
    '(ok, g2, rest2) ← do_player_turns fuel g1 rest1;
    if ok : bool then
      if has_active_players g2 then
        g3 ← do_dealer_turn g2;
        '(g4, out) ← do_results g3;
        Some (true, g4, rest2, out)
      else Some (true, g2, rest2, [])
    else Some (false, g2, rest2, [])
  else Some (true, g1, rest1, []).

End Bets.

End Game.

(** ** What the engine can do to a game

    [step int g g'] holds when one operation of the engine takes the game
    from [g] to [g']: a whole method of [Game], one pass of one of its
    loops, or one pass of the loop of [main].  [reachable int g] holds for
    every game that arises from a fresh [Game(num_players)] by such
    operations, in any order. *)

Module Engine.

Section Steps.

Variable int : string -> option Z.

Inductive step : Game.t -> Game.t -> Prop :=
| step_reset (rnd : nat -> nat) (g : Game.t) :
    step g (Game.reset rnd g)
| step_bet (g : Game.t) (pi : nat) (p p' : Player.t) (bet : string) :
    Game.players g !! pi = Some p ->
    Game.bet_entry int p bet = Game.Accepted p' ->
    step g (Game.with_player g pi p')
| step_take_bets (g g' : Game.t) (inputs rest : list string) (ok : bool) :
    Game.take_bets int g inputs = Some (ok, g', rest) ->
    step g g'
| step_hit_dealer (g g' : Game.t) :
    Game.hit_dealer g = Some g' ->
    step g g'
| step_hit_player (g g' : Game.t) (pi i : nat) :
    Game.hit_player g pi i = Some g' ->
    step g g'
| step_check_blackjack (g g' : Game.t) (ok : bool) :
    Game.check_blackjack g = Some (ok, g') ->
    step g g'
| step_deal (g g' : Game.t) (ok : bool) :
    Game.deal g = Some (ok, g') ->
    step g g'
| step_start (g g' : Game.t) (inputs rest : list string) (ok : bool) :
    Game.start int g inputs = Some (ok, g', rest) ->
    step g g'
| step_action (g g' : Game.t) (pi i : nat) (inputs rest : list string)
    (fl : Game.flow) :
    Game.action g pi i inputs = Some (fl, g', rest) ->
    step g g'
| step_player_turn (fuel : nat) (g g' : Game.t) (pi : nat)
    (inputs rest : list string) (ok : bool) :
    Game.do_player_turn fuel g pi inputs = Some (ok, g', rest) ->
    step g g'
| step_player_turns (fuel : nat) (g g' : Game.t)
    (inputs rest : list string) (ok : bool) :
    Game.do_player_turns fuel g inputs = Some (ok, g', rest) ->
    step g g'
| step_dealer_turn (g g' : Game.t) :
    Game.do_dealer_turn g = Some g' ->
    step g g'
| step_results (g g' : Game.t) (out : list Game.line) :
    Game.do_results g = Some (g', out) ->
    step g g'
| step_round (rnd : nat -> nat) (fuel : nat) (g g' : Game.t)
    (inputs rest : list string) (ok : bool) (out : list Game.line) :
    Game.play_round int rnd fuel g inputs = Some (ok, g', rest, out) ->
    step g g'.

Inductive reachable : Game.t -> Prop :=
| reach_new (num_players : Z) : reachable (Game.new num_players)
| reach_step (g g' : Game.t) : reachable g -> step g g' -> reachable g'.

End Steps.

(** The invariant: no debt, and no negative bet on any hand. *)
Definition player_ok (p : Player.t) : Prop :=
  (0 <= Player.money p)%Q
  /\ Forall (fun h => 0 <= Hand.bet h) (Player.hands p).

Definition game_ok (g : Game.t) : Prop := Forall player_ok (Game.players g).

End Engine.

(** Number of hands of player [pi], the bound of the loop over them. *)
Definition hands_len (g : Game.t) (pi : nat) : nat :=
  match Game.players g !! pi with
  | Some p => length (Player.hands p)
  | None => O
  end.

(** ** A reader for plain decimal numerals

    The theorems about bets hold for any reading function [int].  Where
    an example needs a concrete one, [int_ascii] reads what Python's [int]
    reads on an optional minus sign followed by ASCII digits, and rejects
    every other text. *)

Definition digit (c : Ascii.ascii) : option Z :=
  let n := Z.of_nat (Ascii.nat_of_ascii c) in
  if (48 <=? n) && (n <=? 57) then Some (n - 48) else None.

Fixpoint digits (s : string) (acc : Z) : option Z :=
  match s with
  | EmptyString => Some acc
  | String c s' =>
      match digit c with
      | Some d => digits s' (10 * acc + d)
      | None => None
      end
  end.

Definition int_ascii (s : string) : option Z :=
  match s with
  | EmptyString => None
  | String "-" EmptyString => None
  | String "-" s' => Z.opp <$> digits s' 0
  | _ => digits s 0
  end.

(** ** Settlement, as the rules word it

    What a hand that is not bust is due when the dealer shows
    [dealer_total]: a win if the dealer is bust or the hand is higher, a
    push if they are level, a loss otherwise; a win returns the stake and
    pays it once more, a push returns the stake, a loss returns nothing. *)

Definition verdict_of (dealer_bust : bool) (dealer_total : Z) (h : Hand.t)
  : Game.verdict :=
  if dealer_bust || (dealer_total <? Hand.value h) then Game.Win
  else if Hand.value h =? dealer_total then Game.Push
  else Game.Loss.

Definition credit_of (dealer_bust : bool) (dealer_total : Z) (h : Hand.t)
  : Q :=
  if Hand.is_bust h then 0%Q
  else
    match verdict_of dealer_bust dealer_total h with
    | Game.Win => (inject_Z (Hand.bet h) + inject_Z (Hand.bet h))%Q
    | Game.Push => inject_Z (Hand.bet h)
    | Game.Loss => 0%Q
    end.

Definition total_credit (dealer_bust : bool) (dealer_total : Z)
    (hands : list Hand.t) : Q :=
  foldr (fun h acc => (credit_of dealer_bust dealer_total h + acc)%Q) 0%Q
        hands.

(** ** Sample positions *)

(** A player who holds a pair of rank [r] on a bet of [bet]. *)
Definition pair_of (r bet : Z) : Player.t :=
  Player.mk [Hand.dealt bet [Card.new r; Card.new r]] 0 false "player 1".

(** A player who has bet 50 on a pair of 8s. *)
Definition eights : Player.t :=
  Player.mk [Hand.dealt 50 [Card.new 8; Card.new 8]] 950 false "player 1".

(** A player who has bet 50 and holds a 10 and an 8, against a dealer
    who holds a 10 and an 8 as well. *)
Definition eighteen : Player.t :=
  Player.add_hand (Player.new 1) (Hand.dealt 50 [Card.new 10; Card.new 8]).

Definition level_game : Game.t :=
  Game.mk (Shoe.mk []) [eighteen]
          (Dealer.mk [Hand.dealt 0 [Card.new 10; Card.new 8]] "Dealer").

(** ** Measures read off a game *)

(** A card as the shoe makes them: [Card(i)] for a rank from 1 to 13. *)
Definition rank_card (c : Card.t) : Prop :=
  exists r : Z, 1 <= r <= 13 /\ c = Card.new r.

(** [p'] is [p] after a bet within [p]'s money was placed on a new hand. *)
Definition bet_placed (p p' : Player.t) : Prop :=
  exists b : Z,
    0 <= b /\ (inject_Z b <= Player.money p)%Q
    /\ p' = Player.add_hand p (Hand.new b).

(** The total of a hand with every counted ace at 1. *)
Definition hard_total (h : Hand.t) : Z :=
  Hand.sum_values (Hand.cards h) - 10 * Z.of_nat (Hand.num_aces h).

(** The cards of a list of hands, hand after hand. *)
Definition hand_cards (hs : list Hand.t) : list Card.t :=
  concat (map Hand.cards hs).

(** Every card of a game: the shoe, the dealer's hands, the players'. *)
Definition all_cards (g : Game.t) : list Card.t :=
  Shoe.cards (Game.shoe g)
  ++ hand_cards (Dealer.hands (Game.dealer g))
  ++ concat (map (fun p => hand_cards (Player.hands p)) (Game.players g)).

(** The cards in the players' hands, player after player. *)
Definition players_cards (ps : list Player.t) : list Card.t :=
  concat (map (fun p => hand_cards (Player.hands p)) ps).

(** Player [pi] exists and has a first hand, [player.hands[0]]. *)
Definition has_first_hand (g : Game.t) (pi : nat) : Prop :=
  exists (p : Player.t) (h : Hand.t),
    Game.players g !! pi = Some p /\ Player.hands p !! 0%nat = Some h.

(** An active player whose first hand is worth 21. *)
Definition has_natural (p : Player.t) : bool :=
  Player.is_active p
  && match Player.hands p with
     | h :: _ => Hand.value h =? 21
     | [] => false
     end.

(** Hand [i] of player [pi] is [h]. *)
Definition holds_hand (pi i : nat) (h : Hand.t) (g : Game.t) : Prop :=
  exists p : Player.t,
    Game.players g !! pi = Some p /\ Player.hands p !! i = Some h.

(** The bets that lie on a list of hands. *)
Definition stakes (hs : list Hand.t) : Z :=
  foldr (fun h acc => Hand.bet h + acc) 0 hs.

(** What a player owns and has staked. *)
Definition wealth (p : Player.t) : Q :=
  (Player.money p + inject_Z (stakes (Player.hands p)))%Q.

(** What a turn may do to the player whose turn it is: money moves only
    between the balance and the bets on the hands, the name and the flag
    stay, hands are only added, and never beyond four. *)
Definition turn_keeps (p p' : Player.t) : Prop :=
  (wealth p' == wealth p)%Q
  /\ Player.name p' = Player.name p
  /\ Player.blackjack p' = Player.blackjack p
  /\ (length (Player.hands p) <= length (Player.hands p'))%nat
  /\ (length (Player.hands p')
      <= Nat.max 4 (length (Player.hands p)))%nat.

(** [g'] differs from [g] at most in the shoe and in player [pi]. *)
Definition only_player (pi : nat) (g g' : Game.t) : Prop :=
  Game.dealer g' = Game.dealer g
  /\ exists p p' : Player.t,
       Game.players g !! pi = Some p
       /\ Game.players g' = <[pi := p']> (Game.players g)
       /\ turn_keeps p p'.

(** A table before the deal: one player has bet 100, and the shoe will
    give the dealer a 9 and an 8 and the player an ace and a king. *)
Definition table_before_deal : Game.t :=
  Game.mk (Shoe.mk [Card.new 13; Card.new 1; Card.new 8; Card.new 9])
          [Player.add_hand (Player.new 1) (Hand.new 100)]
          Dealer.new.

(** * Properties *)

(** ** Hand value *)

Lemma sum_values_from (cs : list Card.t) (a : Z) :
  fold_left (fun acc c => acc + Card.value c) cs a = a + Hand.sum_values cs.
Proof.
  unfold Hand.sum_values. revert a.
  induction cs as [|c cs IH]; intros a; simpl; [lia|].
  rewrite (IH (a + Card.value c)), (IH (0 + Card.value c)). lia.
Qed.

Lemma sum_values_cons (c : Card.t) (cs : list Card.t) :
  Hand.sum_values (c :: cs) = Card.value c + Hand.sum_values cs.
Proof. unfold Hand.sum_values at 1. simpl. apply sum_values_from. Qed.

Lemma sum_values_snoc (cs : list Card.t) (c : Card.t) :
  Hand.sum_values (cs ++ [c]) = Hand.sum_values cs + Card.value c.
Proof.
  unfold Hand.sum_values. rewrite fold_left_app. reflexivity.
Qed.

(** The loop subtracts ten [k] times, where [k] is the first count at
    which the total is at most 21, or all of [temp] if there is none. *)
Lemma soften_spec (temp : nat) (total : Z) :
  exists k : nat,
    (k <= temp)%nat
    /\ Hand.soften temp total = total - 10 * Z.of_nat k
    /\ (Hand.soften temp total <= 21 \/ k = temp)
    /\ (forall j : nat, (j < k)%nat -> 21 < total - 10 * Z.of_nat j).
Proof.
  revert total. induction temp as [|temp IH]; intros total.
  - exists O. simpl. repeat split; lia.
  - simpl. destruct (Z.ltb_spec 21 total) as [Hgt|Hle].
    + destruct (IH (total - 10)) as (k & Hk & Hval & Hstop & Hwhile).
      exists (S k). repeat split.
      * lia.
      * rewrite Hval. lia.
      * destruct Hstop as [? | ->]; [now left | now right].
      * intros [|j] Hj; [lia|].
        specialize (Hwhile j ltac:(lia)). lia.
    + exists O. repeat split; lia.
Qed.

Lemma dealt_snoc (bet : Z) (cs : list Card.t) (c : Card.t) :
  Hand.dealt bet (cs ++ [c]) = Hand.add (Hand.dealt bet cs) c.
Proof. unfold Hand.dealt. now rewrite fold_left_app. Qed.

Lemma count_aces_snoc (cs : list Card.t) (c : Card.t) :
  Hand.count_aces (cs ++ [c])
  = if Card.is_ace c then S (Hand.count_aces cs) else Hand.count_aces cs.
Proof.
  unfold Hand.count_aces. rewrite filter_app, length_app. simpl.
  rewrite filter_cons, filter_nil.
  destruct (Card.is_ace c); case_decide; simpl; try congruence; lia.
Qed.

Lemma dealt_fields (bet : Z) (cs : list Card.t) :
  Hand.cards (Hand.dealt bet cs) = cs
  /\ Hand.num_aces (Hand.dealt bet cs) = Hand.count_aces cs
  /\ Hand.bet (Hand.dealt bet cs) = bet
  /\ Hand.split_ace (Hand.dealt bet cs) = false.
Proof.
  induction cs as [|c cs IH] using rev_ind; [now cbn|].
  destruct IH as (Hc & Ha & Hb & Hs).
  rewrite dealt_snoc, count_aces_snoc. unfold Hand.add; simpl.
  rewrite Hc, Ha, Hb, Hs. now destruct (Card.is_ace c).
Qed.

(** C1. For every hand, [value] is the sum of the cards' base values less
    ten for each of [k] aces, where the subtraction went on exactly while
    the total exceeded 21 and aces of the hand's ace counter remained: it
    stopped at a total of at most 21 or with all aces used.  For a hand that
    was dealt its cards through [add] the ace counter is the number of
    ace-labelled cards it holds, so the same reads with the aces among its
    cards.  Two aces and a 9 are worth 21, four aces are worth 14. *)
Theorem value_softens_aces :
  (forall h : Hand.t,
      exists k : nat,
        (k <= Hand.num_aces h)%nat
        /\ Hand.value h = Hand.sum_values (Hand.cards h) - 10 * Z.of_nat k
        /\ (Hand.value h <= 21 \/ k = Hand.num_aces h)
        /\ (forall j : nat, (j < k)%nat ->
              21 < Hand.sum_values (Hand.cards h) - 10 * Z.of_nat j))
  /\ (forall (bet : Z) (cs : list Card.t),
        Hand.cards (Hand.dealt bet cs) = cs
        /\ Hand.num_aces (Hand.dealt bet cs) = Hand.count_aces cs)
  /\ (forall (bet : Z) (cs : list Card.t),
        exists k : nat,
          (k <= Hand.count_aces cs)%nat
          /\ Hand.value (Hand.dealt bet cs)
             = Hand.sum_values cs - 10 * Z.of_nat k
          /\ (Hand.value (Hand.dealt bet cs) <= 21
              \/ k = Hand.count_aces cs)
          /\ (forall j : nat, (j < k)%nat ->
                21 < Hand.sum_values cs - 10 * Z.of_nat j))
  /\ Hand.value (Hand.dealt 0 [Card.new 1; Card.new 1; Card.new 9]) = 21
  /\ Hand.value
       (Hand.dealt 0 [Card.new 1; Card.new 1; Card.new 1; Card.new 1]) = 14.
Proof.
  split; [|split; [|split; [|split]]].
  - intros h. unfold Hand.value. apply soften_spec.
  - intros bet cs. destruct (dealt_fields bet cs) as (? & ? & _). now split.
  - intros bet cs. destruct (dealt_fields bet cs) as (Hc & Ha & _).
    unfold Hand.value. rewrite Hc, Ha. apply soften_spec.
  - reflexivity.
  - reflexivity.
Qed.

(** ** Split eligibility *)

(** C7. [can_split] holds exactly for a hand of two cards with equal
    labels.  A 10 and a King are worth 20 together and cannot be split. *)
Theorem can_split_iff_two_equal_labels :
  (forall h : Hand.t,
      Hand.can_split h = true
      <-> exists c0 c1 : Card.t,
            Hand.cards h = [c0; c1] /\ Card.type c0 = Card.type c1)
  /\ Hand.value (Hand.dealt 0 [Card.new 10; Card.new 13]) = 20
  /\ Hand.can_split (Hand.dealt 0 [Card.new 10; Card.new 13]) = false
  /\ Card.type (Card.new 10) = "10"%string
  /\ Card.type (Card.new 13) = "K"%string
  /\ Card.value (Card.new 10) = Card.value (Card.new 13).
Proof.
  split; [|repeat split; reflexivity].
  intros h. unfold Hand.can_split. split.
  - intros H. apply andb_true_iff in H as [Hlen Hty].
    destruct (Hand.cards h) as [|c0 [|c1 [|c2 cs]]]; simpl in *;
      try discriminate.
    exists c0, c1. split; [reflexivity|]. now apply String.eqb_eq.
  - intros (c0 & c1 & -> & Hty). simpl. now apply String.eqb_eq.
Qed.

(** ** Shoe *)

Lemma pop_snoc {A : Type} (l : list A) (x : A) : pop (l ++ [x]) = Some (x, l).
Proof.
  induction l as [|y l IH]; [reflexivity|].
  change ((y :: l) ++ [x]) with (y :: (l ++ [x])).
  simpl pop. rewrite IH. destruct l; reflexivity.
Qed.

Lemma pop_Some {A : Type} (l r : list A) (x : A) :
  pop l = Some (x, r) <-> l = r ++ [x].
Proof.
  split.
  - destruct l as [|y l] using rev_ind; [discriminate|].
    rewrite pop_snoc. now intros [= -> ->].
  - intros ->. apply pop_snoc.
Qed.

Lemma pop_None {A : Type} (l : list A) : pop l = None <-> l = [].
Proof.
  split; [|now intros ->].
  destruct l as [|y l] using rev_ind; [reflexivity|].
  now rewrite pop_snoc.
Qed.

Lemma swap_Permutation {A : Type} (l : list A) (i j : nat) : swap l i j ≡ₚ l.
Proof.
  unfold swap.
  destruct (l !! i) as [a|] eqn:Hi; [|reflexivity].
  destruct (l !! j) as [b|] eqn:Hj; [|reflexivity].
  now apply Permutation_insert_swap.
Qed.

Lemma shuffle_from_Permutation (rnd : nat -> nat) (i : nat)
    (x : list Card.t) :
  Shoe.shuffle_from rnd i x ≡ₚ x.
Proof.
  revert x. induction i as [|i IH]; intros x; simpl; [reflexivity|].
  rewrite IH. apply swap_Permutation.
Qed.

Lemma fill_app (passes : nat) (cards : list Card.t) :
  Shoe.fill passes cards = cards ++ Shoe.fill passes [].
Proof.
  revert cards. induction passes as [|k IH]; intros cards; cbn [Shoe.fill].
  - now rewrite app_nil_r.
  - rewrite (IH (cards ++ _)), (IH ([] ++ _)), app_nil_l.
    now rewrite app_assoc.
Qed.

Lemma fill_length (passes : nat) :
  length (Shoe.fill passes []) = (13 * passes)%nat.
Proof.
  induction passes as [|k IH]; [reflexivity|].
  cbn [Shoe.fill]. rewrite fill_app, length_app, IH, app_nil_l.
  change (length (map Card.new Shoe.ranks)) with 13%nat. lia.
Qed.

Lemma rank_cases (r : Z) :
  1 <= r <= 13 ->
  r = 1 \/ r = 2 \/ r = 3 \/ r = 4 \/ r = 5 \/ r = 6 \/ r = 7 \/ r = 8
  \/ r = 9 \/ r = 10 \/ r = 11 \/ r = 12 \/ r = 13.
Proof. lia. Qed.

Lemma suit_count (r : Z) :
  1 <= r <= 13 ->
  count_occ Card.eq_dec (map Card.new Shoe.ranks) (Card.new r) = 1%nat.
Proof.
  intros Hr. apply rank_cases in Hr.
  repeat (destruct Hr as [-> | Hr]; [vm_compute; reflexivity|]).
  subst r. vm_compute. reflexivity.
Qed.

Lemma fill_count (passes : nat) (c : Card.t) :
  count_occ Card.eq_dec (Shoe.fill passes []) c
  = (passes * count_occ Card.eq_dec (map Card.new Shoe.ranks) c)%nat.
Proof.
  induction passes as [|k IH]; [reflexivity|].
  cbn [Shoe.fill]. rewrite fill_app, count_occ_app, IH, app_nil_l. lia.
Qed.

Lemma fill_ranks (passes : nat) (c : Card.t) :
  c ∈ Shoe.fill passes [] -> exists r : Z, 1 <= r <= 13 /\ c = Card.new r.
Proof.
  induction passes as [|k IH]; cbn [Shoe.fill].
  - intros H. inversion H.
  - rewrite fill_app, app_nil_l. intros [H|H]%elem_of_app; [|auto].
    apply list_elem_of_fmap in H as (r & -> & Hr).
    exists r. split; [|reflexivity].
    unfold Shoe.ranks in Hr. apply list_elem_of_fmap in Hr as (k' & -> & Hk).
    apply list_elem_of_In, in_seq in Hk. lia.
Qed.

Lemma draw_all (cs : list Card.t) :
  Shoe.draw_many (length cs) (Shoe.mk cs) = Some (rev cs, Shoe.mk []).
Proof.
  induction cs as [|c cs IH] using rev_ind; [reflexivity|].
  rewrite length_app, Nat.add_comm. simpl.
  unfold Shoe.get_card. simpl. rewrite pop_snoc, IH.
  now rewrite rev_app_distr.
Qed.

(** C8. A shoe of [n >= 1] decks holds [52 n] cards, [4 n] of each of
    the thirteen ranks and nothing else; [52 n] draws succeed and leave it
    empty; a draw takes exactly the last card away; a shuffle keeps the
    number of cards and how often each card occurs. *)
Theorem shoe_holds_whole_decks (n : Z) :
  1 <= n ->
  length (Shoe.cards (Shoe.new n)) = Z.to_nat (52 * n)
  /\ (forall r : Z, 1 <= r <= 13 ->
        count_occ Card.eq_dec (Shoe.cards (Shoe.new n)) (Card.new r)
        = Z.to_nat (4 * n))
  /\ (forall c : Card.t, c ∈ Shoe.cards (Shoe.new n) ->
        exists r : Z, 1 <= r <= 13 /\ c = Card.new r)
  /\ (exists drawn : list Card.t,
        Shoe.draw_many (Z.to_nat (52 * n)) (Shoe.new n)
        = Some (drawn, Shoe.mk []))
  /\ (forall (s s' : Shoe.t) (c : Card.t),
        Shoe.get_card s = Some (c, s') ->
        Shoe.cards s = Shoe.cards s' ++ [c]
        /\ length (Shoe.cards s) = S (length (Shoe.cards s')))
  /\ (forall (rnd : nat -> nat) (s : Shoe.t),
        length (Shoe.cards (Shoe.shuffle rnd s)) = length (Shoe.cards s)
        /\ Shoe.cards (Shoe.shuffle rnd s) ≡ₚ Shoe.cards s
        /\ forall c : Card.t,
             count_occ Card.eq_dec (Shoe.cards (Shoe.shuffle rnd s)) c
             = count_occ Card.eq_dec (Shoe.cards s) c).
Proof.
  intros Hn.
  assert (Hlen : length (Shoe.cards (Shoe.new n)) = Z.to_nat (52 * n)).
  { unfold Shoe.new. simpl. rewrite fill_length. lia. }
  split; [exact Hlen|]. split; [|split; [|split; [|split]]].
  - intros r Hr. unfold Shoe.new. simpl.
    rewrite fill_count, suit_count by exact Hr. lia.
  - intros c. unfold Shoe.new. simpl. apply fill_ranks.
  - exists (rev (Shoe.cards (Shoe.new n))).
    rewrite <- Hlen. destruct (Shoe.new n) as [cs]. apply draw_all.
  - intros s s' c. unfold Shoe.get_card.
    destruct (pop (Shoe.cards s)) as [[c' r]|] eqn:Hpop; [|discriminate].
    intros [= -> <-]. apply pop_Some in Hpop. simpl.
    rewrite Hpop, length_app. simpl. split; [reflexivity|lia].
  - intros rnd s.
    assert (Hp : Shoe.cards (Shoe.shuffle rnd s) ≡ₚ Shoe.cards s)
      by apply shuffle_from_Permutation.
    split; [now rewrite Hp|]. split; [exact Hp|].
    now apply Permutation_count_occ.
Qed.

Lemma shoe_holds_whole_decks_witness :
  1 <= 1
  /\ length (Shoe.cards (Shoe.new 1)) = Z.to_nat (52 * 1).
Proof.
  split; [lia|]. apply (shoe_holds_whole_decks 1). lia.
Defined.

(** ** Payout *)

(** C2. [win_hand] credits the stake plus the winnings: [bet + bet], or
    [bet + 1.5 bet] when the blackjack flag is set.  Counted from before
    the bet was placed with [add_hand], the player gains exactly [bet],
    or exactly [1.5 bet] when the flag was set in between; a bet of 100
    that wins with blackjack gains 150. *)
Theorem win_hand_pays_stake_and_winnings :
  (forall (p : Player.t) (h : Hand.t),
      Player.money (Player.win_hand p h)
      == Player.money p
         + (if Player.blackjack p
            then inject_Z (Hand.bet h) + (3 # 2) * inject_Z (Hand.bet h)
            else inject_Z (Hand.bet h) + inject_Z (Hand.bet h)))%Q
  /\ (forall (p : Player.t) (h : Hand.t),
        Player.money (Player.win_hand (Player.add_hand p h) h)
        - Player.money p
        == (if Player.blackjack p
            then (3 # 2) * inject_Z (Hand.bet h)
            else inject_Z (Hand.bet h)))%Q
  /\ (forall (p : Player.t) (h : Hand.t),
        Player.money
          (Player.win_hand (Player.set_blackjack (Player.add_hand p h)) h)
        - Player.money p
        == (3 # 2) * inject_Z (Hand.bet h))%Q
  /\ (Player.money
        (Player.win_hand
           (Player.set_blackjack
              (Player.add_hand (Player.new 1) (Hand.new 100)))
           (Hand.new 100))
      - Player.money (Player.new 1) == 150)%Q.
Proof.
  split; [|split; [|split]].
  - intros p h. unfold Player.win_hand. simpl.
    destruct (Player.blackjack p); ring.
  - intros p h. unfold Player.win_hand, Player.add_hand. simpl.
    destruct (Player.blackjack p); ring.
  - intros p h. unfold Player.win_hand, Player.add_hand. simpl. ring.
  - vm_compute. reflexivity.
Qed.

(** The same through the engine: one player bets 100 and is dealt an ace
    and a king while the dealer holds 17; after the blackjack check the
    player owns 1150, which is 150 more than before the bet. *)
Example blackjack_round_pays_150 :
  let shoe := Shoe.mk [Card.new 13; Card.new 1; Card.new 8; Card.new 9] in
  let g := Game.mk shoe [Player.new 1] Dealer.new in
  exists g' : Game.t,
    Game.start int_ascii g ["100"%string] = Some (false, g', [])
    /\ exists p : Player.t,
         Game.players g' = [p]
         /\ Player.blackjack p = true
         /\ (Player.money p == 1150)%Q.
Proof.
  eexists. split; [vm_compute; reflexivity|].
  eexists. split; [reflexivity|]. split; [reflexivity|].
  vm_compute. reflexivity.
Qed.

(** ** Split *)

Lemma can_split_two_cards (h : Hand.t) :
  Hand.can_split h = true ->
  exists c0 c1 : Card.t,
    Hand.cards h = [c0; c1] /\ Card.type c0 = Card.type c1.
Proof.
  unfold Hand.can_split. intros H. apply andb_true_iff in H as [Hlen Hty].
  destruct (Hand.cards h) as [|c0 [|c1 [|c2 cs]]]; simpl in *;
    try discriminate.
  exists c0, c1. split; [reflexivity|]. now apply String.eqb_eq.
Qed.

(** C5. Splitting the two-card hand at index [i] takes [hand.bet] off the
    player's money, leaves the first card and the bet in the original
    hand, puts the second card into a new hand with the same bet, and
    appends that hand to the list; the other hands are untouched. *)
Theorem split_moves_second_card (p : Player.t) (i : nat) (h : Hand.t) :
  Player.hands p !! i = Some h ->
  Hand.can_split h = true ->
  exists (c0 c1 : Card.t) (p' : Player.t) (h0 h1 : Hand.t),
    Hand.cards h = [c0; c1]
    /\ Player.split p i = Some (p', length (Player.hands p))
    /\ (Player.money p' == Player.money p - inject_Z (Hand.bet h))%Q
    /\ Player.hands p' = <[i := h0]> (Player.hands p) ++ [h1]
    /\ Hand.cards h0 = [c0] /\ Hand.bet h0 = Hand.bet h
    /\ Hand.cards h1 = [c1] /\ Hand.bet h1 = Hand.bet h
    /\ Player.hands p' !! i = Some h0
    /\ Player.hands p' !! length (Player.hands p) = Some h1
    /\ length (Player.hands p') = S (length (Player.hands p))
    /\ (forall j : nat, j <> i -> (j < length (Player.hands p))%nat ->
          Player.hands p' !! j = Player.hands p !! j).
Proof.
  intros Hi Hsplit.
  destruct (can_split_two_cards h Hsplit) as (c0 & c1 & Hcards & _).
  assert (Hlt : (i < length (Player.hands p))%nat)
    by (apply lookup_lt_is_Some; eauto).
  unfold Player.split. rewrite Hi, Hcards.
  change (pop [c0; c1]) with (Some (c1, [c0])). cbv zeta.
  do 5 eexists. split; [reflexivity|]. split; [reflexivity|].
  cbn [Player.money Player.hands Hand.cards Hand.bet Hand.add Hand.new app].
  split; [reflexivity|]. split; [reflexivity|].
  split; [reflexivity|]. split; [reflexivity|].
  split; [reflexivity|]. split; [reflexivity|].
  split; [|split; [|split]].
  - rewrite lookup_app_l by now rewrite length_insert.
    now apply list_lookup_insert_eq.
  - rewrite lookup_app_r by now rewrite length_insert.
    now rewrite length_insert, Nat.sub_diag.
  - rewrite length_app, length_insert. simpl. lia.
  - intros j Hne Hj. rewrite lookup_app_l by now rewrite length_insert.
    now apply list_lookup_insert_ne.
Qed.

Lemma split_moves_second_card_witness :
  Player.hands eights !! 0%nat
  = Some (Hand.dealt 50 [Card.new 8; Card.new 8])
  /\ Hand.can_split (Hand.dealt 50 [Card.new 8; Card.new 8]) = true
  /\ exists (c0 c1 : Card.t) (p' : Player.t) (h0 h1 : Hand.t),
       [Card.new 8; Card.new 8] = [c0; c1]
       /\ Player.split eights 0 = Some (p', 1%nat)
       /\ (Player.money p' == 950 - inject_Z 50)%Q
       /\ Player.hands p' = [h0; h1]
       /\ Hand.cards h0 = [c0] /\ Hand.bet h0 = 50
       /\ Hand.cards h1 = [c1] /\ Hand.bet h1 = 50.
Proof.
  split; [reflexivity|]. split; [reflexivity|].
  destruct (split_moves_second_card eights 0
              (Hand.dealt 50 [Card.new 8; Card.new 8])
              eq_refl eq_refl)
    as (c0 & c1 & p' & h0 & h1 & H1 & H2 & H3 & H4 & H5 & H6 & H7 & H8 & _).
  exists c0, c1, p', h0, h1. repeat split; assumption.
Defined.

Lemma split_grows_hands (p : Player.t) (i : nat)
    (h : Hand.t) :
  Player.hands p !! i = Some h ->
  Hand.can_split h = true ->
  exists p' : Player.t,
    Player.split p i = Some (p', length (Player.hands p))
    /\ length (Player.hands p') = S (length (Player.hands p)).
Proof.
  intros Hi Hsplit.
  destruct (can_split_two_cards h Hsplit) as (c0 & c1 & Hcards & _).
  unfold Player.split. rewrite Hi, Hcards.
  change (pop [c0; c1]) with (Some (c1, [c0])). cbv zeta.
  eexists. split; [reflexivity|]. simpl.
  rewrite length_app, length_insert. simpl. lia.
Qed.

(** The "sp" answer reaches [Player.split] exactly under the three
    guards of [do_player_turn] and is followed by one card for each of
    the two hands; when a guard fails nothing changes. *)
Lemma action_split_guards (g : Game.t) (pi i : nat) (rest : list string)
    (p : Player.t) (h : Hand.t) :
  Game.players g !! pi = Some p ->
  Player.hands p !! i = Some h ->
  Game.action g pi i ("sp"%string :: rest)
  = if Hand.can_split h
       && (length (Player.hands p) <? 4)%nat
       && Qle_bool (inject_Z (Hand.bet h)) (Player.money p)
    then
      '(p', newHand) ← Player.split p i;
      g1 ← Game.hit_player (Game.with_player g pi p') pi i;
      g2 ← Game.hit_player g1 pi newHand;
      Some (Game.Continue, g2, rest)
    else Some (Game.Continue, g, rest).
Proof.
  intros Hp Hh. unfold Game.action. rewrite Hp. simpl. rewrite Hh. simpl.
  destruct (Hand.can_split h); [|reflexivity].
  destruct (length (Player.hands p) <? 4)%nat; [|reflexivity].
  destruct (Qle_bool _ _); reflexivity.
Qed.

(** C3. [Player.split] sets the ace-split flag on both hands whatever the
    pair is: after two 8s are split, both hands carry the flag, and the
    player's turn ends with one card on each hand and the further answers
    unread. *)
Theorem split_flags_both_hands_of_any_pair :
  (forall (p : Player.t) (i : nat),
      match Player.split p i with
      | Some (p', newHand) =>
          exists h0 h1 : Hand.t,
            Player.hands p' !! i = Some h0
            /\ Player.hands p' !! newHand = Some h1
            /\ Hand.split_ace h0 = true /\ Hand.split_ace h1 = true
      | None => True
      end)
  /\ (exists (p' : Player.t) (h0 h1 : Hand.t),
        Player.split eights 0 = Some (p', 1%nat)
        /\ Player.hands p' = [h0; h1]
        /\ Hand.cards h0 = [Card.new 8] /\ Hand.cards h1 = [Card.new 8]
        /\ Hand.split_ace h0 = true /\ Hand.split_ace h1 = true)
  /\ (let g := Game.mk (Shoe.mk [Card.new 2; Card.new 5; Card.new 3])
                       [eights] Dealer.new in
      exists (g' : Game.t) (p' : Player.t) (h0 h1 : Hand.t),
        Game.do_player_turn 5 g 0 ["sp"; "h"; "h"]%string
        = Some (true, g', ["h"; "h"]%string)
        /\ Game.players g' = [p']
        /\ Player.hands p' = [h0; h1]
        /\ Hand.cards h0 = [Card.new 8; Card.new 3]
        /\ Hand.cards h1 = [Card.new 8; Card.new 5]).
Proof.
  split; [|split].
  - intros p i. unfold Player.split.
    destruct (Player.hands p !! i) as [h|] eqn:Hi; [|exact I].
    destruct (pop (Hand.cards h)) as [[c r]|]; [|exact I].
    assert (Hlt : (i < length (Player.hands p))%nat)
      by (apply lookup_lt_is_Some; eauto).
    do 2 eexists. cbn [Player.hands].
    split; [|split; [|split]].
    + rewrite lookup_app_l by now rewrite length_insert.
      now apply list_lookup_insert_eq.
    + rewrite lookup_app_r by now rewrite length_insert.
      now rewrite length_insert, Nat.sub_diag.
    + reflexivity.
    + reflexivity.
  - do 3 eexists. repeat split.
  - do 4 eexists. split; [vm_compute; reflexivity|]. repeat split.
Qed.

(** [Player.split] pops the second card without touching [num_aces], so
    after a pair of aces is split the original hand counts two aces and
    holds one.  The engine deals one more card to each of the two hands
    and then leaves them alone, and on those two-card hands the value is
    the one a freshly dealt hand of the same cards has, whatever the rank
    of the pair and of the card dealt. *)
Lemma split_hand_keeps_value (r r' : Z) :
  1 <= r <= 13 -> 1 <= r' <= 13 ->
  exists (p' : Player.t) (h0 h1 : Hand.t),
    Player.split (pair_of r 0) 0 = Some (p', 1%nat)
    /\ Player.hands p' = [h0; h1]
    /\ Hand.value (Hand.add h0 (Card.new r'))
       = Hand.value (Hand.dealt 0 [Card.new r; Card.new r'])
    /\ Hand.value (Hand.add h1 (Card.new r'))
       = Hand.value (Hand.dealt 0 [Card.new r; Card.new r']).
Proof.
  intros Hr Hr'. apply rank_cases in Hr, Hr'.
  repeat (destruct Hr as [-> | Hr]);
    try subst r;
    repeat (destruct Hr' as [-> | Hr']);
    try subst r';
    (do 3 eexists; split; [reflexivity|]; split; [reflexivity|];
     split; vm_compute; reflexivity).
Qed.

Example split_aces_counter :
  exists (p' : Player.t) (h0 h1 : Hand.t),
    Player.split (pair_of 1 0) 0 = Some (p', 1%nat)
    /\ Player.hands p' = [h0; h1]
    /\ Hand.cards h0 = [Card.new 1] /\ Hand.num_aces h0 = 2%nat
    /\ Hand.cards h1 = [Card.new 1] /\ Hand.num_aces h1 = 1%nat.
Proof. do 3 eexists. repeat split. Qed.

(** ** Shoe sizing *)

Lemma shuffle_length (rnd : nat -> nat) (s : Shoe.t) :
  length (Shoe.cards (Shoe.shuffle rnd s)) = length (Shoe.cards s).
Proof.
  unfold Shoe.shuffle. simpl. now rewrite shuffle_from_Permutation.
Qed.

(** C6. [Game.__init__] sizes the shoe with [max(num_players, 6)] decks,
    [Game.reset] with the number of players alone: a game of two players
    is reset to a shoe of 104 cards, not the 312 of six decks. *)
Theorem reset_sizes_shoe_by_player_count :
  (forall n : Z, Game.shoe (Game.new n) = Shoe.new (Z.max n 6))
  /\ (forall (rnd : nat -> nat) (g : Game.t),
        Game.shoe (Game.reset rnd g)
        = Shoe.shuffle rnd
            (Shoe.new (Z.of_nat (length (Game.players g)))))
  /\ (forall rnd : nat -> nat,
        length (Shoe.cards (Game.shoe (Game.reset rnd (Game.new 2))))
        = 104%nat)
  /\ length (Shoe.cards (Shoe.new (Z.max 2 6))) = 312%nat.
Proof.
  split; [reflexivity|]. split; [reflexivity|]. split; [|reflexivity].
  intros rnd. unfold Game.reset. cbn [Game.shoe].
  rewrite shuffle_length. reflexivity.
Qed.

(** ** Settlement *)

Lemma do_results_hand_spec (db : bool) (dt : Z) (p : Player.t) (i : nat)
    (h : Hand.t) :
  Player.blackjack p = false ->
  exists (p' : Player.t) (out : list Game.line),
    Game.do_results_hand db dt p i h = (p', out)
    /\ Player.name p' = Player.name p
    /\ Player.blackjack p' = false
    /\ Player.hands p' = Player.hands p
    /\ (Player.money p' == Player.money p + credit_of db dt h)%Q
    /\ out = if Hand.is_bust h then []
             else [(Player.name p, S i, verdict_of db dt h)].
Proof.
  intros Hbj. unfold Game.do_results_hand, credit_of, verdict_of.
  destruct (Hand.is_bust h).
  - do 2 eexists. split; [reflexivity|]. repeat split; try assumption.
    ring.
  - destruct (db || (dt <? Hand.value h)).
    + do 2 eexists. split; [reflexivity|].
      unfold Player.win_hand. rewrite Hbj. simpl.
      repeat split; try assumption. ring.
    + destruct (Hand.value h =? dt).
      * do 2 eexists. split; [reflexivity|]. simpl.
        repeat split; try assumption.
      * do 2 eexists. split; [reflexivity|]. simpl.
        repeat split; try assumption. ring.
Qed.

Lemma do_results_hands_spec (db : bool) (dt : Z) (hands : list Hand.t) :
  forall (k : nat) (p : Player.t),
    Player.blackjack p = false ->
    exists (p' : Player.t) (out : list Game.line),
      Game.do_results_hands db dt k hands p = (p', out)
      /\ Player.name p' = Player.name p
      /\ Player.blackjack p' = false
      /\ Player.hands p' = Player.hands p
      /\ (Player.money p' == Player.money p + total_credit db dt hands)%Q
      /\ (forall (i : nat) (v : Game.verdict),
            (Player.name p, i, v) ∈ out
            <-> exists (j : nat) (h : Hand.t),
                  i = S (k + j) /\ hands !! j = Some h
                  /\ Hand.is_bust h = false /\ v = verdict_of db dt h).
Proof.
  induction hands as [|h hands IH]; intros k p Hbj.
  - exists p, []. simpl. repeat split; try assumption; try ring.
    + intros H. inversion H.
    + intros (j & h & _ & Hj & _). discriminate.
  - destruct (do_results_hand_spec db dt p k h Hbj)
      as (p1 & out1 & E1 & Hn1 & Hb1 & Hh1 & Hm1 & Ho1).
    destruct (IH (S k) p1 Hb1)
      as (p2 & out2 & E2 & Hn2 & Hb2 & Hh2 & Hm2 & Ho2).
    exists p2, (out1 ++ out2). cbn [Game.do_results_hands].
    rewrite E1, E2. split; [reflexivity|].
    split; [congruence|]. split; [assumption|]. split; [congruence|].
    split.
    { rewrite Hm2, Hm1. unfold total_credit. simpl. ring. }
    intros i v. rewrite elem_of_app. rewrite <- Hn1, Ho2, Hn1. split.
    + intros [Hin|(j & h' & -> & Hj & Hnb & Hv)].
      * subst out1. destruct (Hand.is_bust h) eqn:Hb; [inversion Hin|].
        apply list_elem_of_singleton in Hin. injection Hin as -> ->.
        exists O, h. rewrite Nat.add_0_r. now repeat split.
      * exists (S j), h'. repeat split; try assumption. lia.
    + intros ([|j] & h' & -> & Hj & Hnb & Hv).
      * left. simpl in Hj. injection Hj as <-. subst out1 v.
        rewrite Hnb, Nat.add_0_r. now apply list_elem_of_singleton.
      * right. exists j, h'. repeat split; try assumption. lia.
Qed.

Ltac settle_cases :=
  repeat split; intros; try reflexivity;
  intuition (try discriminate; try congruence; try lia).

(** C4. [do_results] settles every player on its own.  For an active
    player the hands and the flag stay as they are and the money grows by
    what each hand is due; a hand that is not bust is reported and credited
    as a win exactly when the dealer is bust or the hand is higher than the
    dealer's total, as a push (the stake alone) exactly when it equals the
    dealer's total, and as a loss with no credit otherwise. *)
Theorem settlement_compares_with_dealer (g : Game.t) (dh : Hand.t) :
  Dealer.hands (Game.dealer g) !! 0%nat = Some dh ->
  let db := Hand.is_bust dh in
  let dt := Hand.value dh in
  exists (g' : Game.t) (out : list Game.line),
    Game.do_results g = Some (g', out)
    /\ length (Game.players g') = length (Game.players g)
    /\ forall (pi : nat) (p : Player.t),
         Game.players g !! pi = Some p ->
         Player.is_active p = true ->
         exists (p' : Player.t) (lines : list Game.line),
           Game.players g' !! pi = Some p'
           /\ Game.do_results_player db dt p = (p', lines)
           /\ Player.hands p' = Player.hands p
           /\ (Player.money p'
               == Player.money p + total_credit db dt (Player.hands p))%Q
           /\ forall (i : nat) (h : Hand.t),
                Player.hands p !! i = Some h ->
                Hand.is_bust h = false ->
                ((Player.name p, S i, Game.Win) ∈ lines
                 <-> Hand.is_bust dh = true \/ dt < Hand.value h)
                /\ ((Player.name p, S i, Game.Push) ∈ lines
                    <-> Hand.value h = dt)
                /\ ((Player.name p, S i, Game.Loss) ∈ lines
                    <-> Hand.is_bust dh = false /\ Hand.value h < dt)
                /\ (credit_of db dt h
                    == if Hand.is_bust dh || (dt <? Hand.value h)
                       then inject_Z (Hand.bet h) + inject_Z (Hand.bet h)
                       else if Hand.value h =? dt
                            then inject_Z (Hand.bet h) else 0)%Q.
Proof.
  intros Hdh db dt. unfold Game.do_results, Dealer.bust.
  rewrite Hdh. simpl. fold dt. change (21 <? dt) with db.
  do 2 eexists. split; [reflexivity|]. cbn [Game.players].
  split; [now rewrite !length_map|].
  intros pi p Hp Hact.
  assert (Hbj : Player.blackjack p = false).
  { unfold Player.is_active in Hact. now destruct (Player.blackjack p). }
  destruct (do_results_hands_spec db dt (Player.hands p) 0 p Hbj)
    as (p' & lines & E & Hn & Hb & Hh & Hm & Hl).
  exists p', lines.
  assert (Eplayer : Game.do_results_player db dt p = (p', lines)).
  { unfold Game.do_results_player. now rewrite Hact. }
  split.
  { rewrite list_lookup_fmap, list_lookup_fmap, Hp. simpl.
    now rewrite Eplayer. }
  split; [exact Eplayer|]. split; [exact Hh|]. split; [exact Hm|].
  intros i h Hi Hnb.
  assert (Hline : forall v : Game.verdict,
             (Player.name p, S i, v) ∈ lines <-> v = verdict_of db dt h).
  { intros v. rewrite Hl. split.
    - intros (j & h' & Hij & Hj & _ & Hv).
      assert (j = i) by lia. subst j. congruence.
    - intros ->. exists i, h. now repeat split. }
  assert (Hle : Hand.value h <= 21).
  { unfold Hand.is_bust in Hnb. now apply Z.ltb_ge in Hnb. }
  assert (Hdb : db = true <-> 21 < dt).
  { unfold db, dt, Hand.is_bust. apply Z.ltb_lt. }
  rewrite !Hline. unfold credit_of, verdict_of. rewrite Hnb. fold db.
  destruct db eqn:Edb; simpl.
  - assert (21 < dt) by now apply Hdb. settle_cases.
  - assert (~ 21 < dt) by (intros ?%Hdb; discriminate).
    destruct (Z.ltb_spec dt (Hand.value h)); [settle_cases|].
    destruct (Z.eqb_spec (Hand.value h) dt); settle_cases.
Qed.

Lemma settlement_compares_with_dealer_witness :
  Dealer.hands (Game.dealer level_game) !! 0%nat
  = Some (Hand.dealt 0 [Card.new 10; Card.new 8])
  /\ exists (g' : Game.t) (out : list Game.line) (p' : Player.t)
            (lines : list Game.line),
       Game.do_results level_game = Some (g', out)
       /\ Game.players g' !! 0%nat = Some p'
       /\ (Player.money p'
           == Player.money eighteen
              + total_credit false 18 (Player.hands eighteen))%Q
       /\ (("player 1"%string, 1%nat, Game.Push) ∈ lines <-> 18 = 18).
Proof.
  split; [reflexivity|].
  destruct (settlement_compares_with_dealer level_game
              (Hand.dealt 0 [Card.new 10; Card.new 8]) eq_refl)
    as (g' & out & Hres & _ & Hplayers).
  destruct (Hplayers 0%nat eighteen eq_refl eq_refl)
    as (p' & lines & Hp' & _ & _ & Hmoney & Hhands).
  destruct (Hhands 0%nat (Hand.dealt 50 [Card.new 10; Card.new 8])
              eq_refl eq_refl) as (_ & Hpush & _).
  exists g', out, p', lines. repeat split; assumption || apply Hpush.
Defined.

(** Eighteen against eighteen: the hand is reported as a push and the
    player is back at the 1000 owned before the bet of 50. *)
Example level_hand_pushes :
  Hand.value (Hand.dealt 50 [Card.new 10; Card.new 8]) = 18
  /\ (Player.money eighteen == 950)%Q
  /\ exists p' : Player.t,
       Game.do_results level_game
       = Some (Game.mk (Shoe.mk []) [p'] (Game.dealer level_game),
               [("player 1"%string, 1%nat, Game.Push)])
       /\ (Player.money p' == Player.money (Player.new 1))%Q.
Proof.
  split; [reflexivity|]. split; [vm_compute; reflexivity|].
  eexists. split; [vm_compute; reflexivity|]. vm_compute. reflexivity.
Qed.

(** ** Bets *)

Section BetEntry.

Variable int : string -> option Z.

Lemma bet_entry_cases (p : Player.t) (s : string) :
  (s = "q"%string /\ Game.bet_entry int p s = Game.QuitBets)
  \/ (s <> "q"%string /\ int s = None
      /\ Game.bet_entry int p s = Game.Rejected)
  \/ (exists b : Z,
        s <> "q"%string /\ int s = Some b
        /\ (b < 0 \/ (Player.money p < inject_Z b)%Q)
        /\ Game.bet_entry int p s = Game.Rejected)
  \/ (exists b : Z,
        s <> "q"%string /\ int s = Some b
        /\ 0 <= b /\ (inject_Z b <= Player.money p)%Q
        /\ Game.bet_entry int p s
           = Game.Accepted (Player.add_hand p (Hand.new b))).
Proof.
  unfold Game.bet_entry.
  destruct (String.eqb_spec s "q") as [->|Hq]; [now left|right].
  destruct (int s) as [b|]; [right|now left].
  destruct (Z.ltb_spec b 0) as [Hneg|Hpos]; simpl.
  { left. exists b. repeat split; auto. }
  destruct (Qle_bool (inject_Z b) (Player.money p)) eqn:Hle; simpl.
  - right. exists b. apply Qle_bool_iff in Hle. repeat split; auto.
  - left. exists b. repeat split; auto. right.
    apply Qnot_le_lt. intros H%Qle_bool_iff. congruence.
Qed.

End BetEntry.

(** C9. A bet entered at the prompt is accepted exactly when it reads as
    an integer [b] with [0 <= b <= money]; the player then has one more
    hand, with bet [b], and [b] less money.  A rejected entry (one that
    does not read as a number, is negative or exceeds the money) changes
    nothing and the same player is asked again, in the loop and in
    [take_bets] as a whole.  The quit answer ["q"] is not a bet: it is
    tested before the text is read as a number, is never accepted nor
    rejected, and ends [take_bets] with [False], leaving this player and
    the ones not yet asked as they were. *)
Theorem bet_accepted_iff_affordable (int : string -> option Z)
    (p : Player.t) (s : string) :
  (forall p' : Player.t,
      Game.bet_entry int p s = Game.Accepted p'
      <-> s <> "q"%string
          /\ exists b : Z,
               int s = Some b /\ 0 <= b
               /\ (inject_Z b <= Player.money p)%Q
               /\ p' = Player.add_hand p (Hand.new b))
  /\ (forall b : Z,
        Player.hands (Player.add_hand p (Hand.new b))
        = Player.hands p ++ [Hand.new b]
        /\ Hand.bet (Hand.new b) = b
        /\ (Player.money (Player.add_hand p (Hand.new b))
            == Player.money p - inject_Z b)%Q)
  /\ (Game.bet_entry int p s = Game.Rejected
      <-> s <> "q"%string
          /\ (int s = None
              \/ exists b : Z,
                   int s = Some b
                   /\ (b < 0 \/ (Player.money p < inject_Z b)%Q)))
  /\ (Game.bet_entry int p s = Game.Rejected ->
      forall (rest : list string) (ps : list Player.t),
        Game.bet_loop int p (s :: rest) = Game.bet_loop int p rest
        /\ Game.take_bets_players int (p :: ps) (s :: rest)
           = Game.take_bets_players int (p :: ps) rest)
  /\ (Game.bet_entry int p s = Game.QuitBets <-> s = "q"%string)
  /\ (s = "q"%string ->
      forall (rest : list string) (ps : list Player.t),
        Game.bet_loop int p (s :: rest) = Some (None, rest)
        /\ Game.take_bets_players int (p :: ps) (s :: rest)
           = Some (false, p :: ps, rest)).
Proof.
  pose proof (bet_entry_cases int p s) as Hcases.
  split; [|split; [|split; [|split; [|split]]]].
  - intros p'. split.
    + intros Hacc.
      destruct Hcases as [[_ E]|[(_ & _ & E)|[(b & _ & _ & _ & E)|H]]];
        try congruence.
      destruct H as (b & Hq & Hb & H0 & Hle & E).
      split; [exact Hq|]. exists b. repeat split; auto. congruence.
    + intros (Hq & b & Hb & H0 & Hle & ->).
      destruct Hcases as [[? _]|[(_ & E & _)|[(b' & _ & E & Hbad & _)|H]]];
        try congruence.
      * assert (b' = b) by congruence. subst b'.
        destruct Hbad as [?|Hlt]; [lia|].
        exfalso. revert Hlt. now apply Qle_not_lt.
      * destruct H as (b' & _ & E & _ & _ & ->). congruence.
  - intros b. simpl. split; [reflexivity|]. split; [reflexivity|]. ring.
  - split.
    + intros Hrej.
      destruct Hcases as [[_ E]|[(Hq & E & _)|[(b & Hq & E & Hbad & _)|H]]];
        try congruence.
      * split; [exact Hq|now left].
      * split; [exact Hq|]. right. now exists b.
      * destruct H as (b & _ & _ & _ & _ & E). congruence.
    + intros (Hq & Hbad).
      destruct Hcases as [[? _]|[(_ & _ & E)|[(b & _ & _ & _ & E)|H]]];
        try congruence.
      destruct H as (b & _ & E & H0 & Hle & _).
      destruct Hbad as [?|(b' & E' & Hbad)]; [congruence|].
      assert (b' = b) by congruence. subst b'.
      destruct Hbad as [?|Hlt]; [lia|].
      exfalso. revert Hlt. now apply Qle_not_lt.
  - intros Hrej rest ps. simpl. now rewrite Hrej.
  - split.
    + intros Hquit.
      destruct Hcases as [[? _]|[(_ & _ & E)|[(b & _ & _ & _ & E)|H]]];
        try congruence.
      destruct H as (b & _ & _ & _ & _ & E). congruence.
    + intros ->. reflexivity.
  - intros -> rest ps. simpl. split; reflexivity.
Qed.

(** ** Money never goes below zero *)

Import Engine.

Lemma player_ok_new (n : Z) : player_ok (Player.new n).
Proof. split; [discriminate|constructor]. Qed.

Lemma player_ok_reset (p : Player.t) : player_ok p -> player_ok (Player.reset p).
Proof. intros [Hm _]. split; [exact Hm|constructor]. Qed.

Lemma player_ok_with_hand (p : Player.t) (i : nat) (h : Hand.t) :
  player_ok p -> 0 <= Hand.bet h -> player_ok (Player.with_hand p i h).
Proof.
  intros [Hm Hb] Hh. split; [exact Hm|]. simpl. now apply Forall_insert.
Qed.

Lemma player_ok_bet (p : Player.t) (i : nat) (h : Hand.t) :
  player_ok p -> Player.hands p !! i = Some h -> 0 <= Hand.bet h.
Proof.
  intros [_ Hb] Hi. exact (Forall_lookup_1 _ _ _ _ Hb Hi).
Qed.

Lemma inject_Z_nonneg (b : Z) : 0 <= b -> (0 <= inject_Z b)%Q.
Proof. intros H. change 0%Q with (inject_Z 0). now rewrite <- Zle_Qle. Qed.

Lemma player_ok_add_hand (p : Player.t) (b : Z) :
  player_ok p -> 0 <= b -> (inject_Z b <= Player.money p)%Q ->
  player_ok (Player.add_hand p (Hand.new b)).
Proof.
  intros [Hm Hb] H0 Hle. split; simpl.
  - lra.
  - apply Forall_app. split; [exact Hb|]. now repeat constructor.
Qed.

Lemma player_ok_win_hand (p : Player.t) (h : Hand.t) :
  player_ok p -> 0 <= Hand.bet h -> player_ok (Player.win_hand p h).
Proof.
  intros [Hm Hb] Hh%inject_Z_nonneg. split; [|exact Hb].
  unfold Player.win_hand. simpl. destruct (Player.blackjack p); lra.
Qed.

Lemma player_ok_push_hand (p : Player.t) (h : Hand.t) :
  player_ok p -> 0 <= Hand.bet h -> player_ok (Player.push_hand p h).
Proof.
  intros [Hm Hb] Hh%inject_Z_nonneg. split; [|exact Hb]. simpl. lra.
Qed.

Lemma player_ok_set_blackjack (p : Player.t) :
  player_ok p -> player_ok (Player.set_blackjack p).
Proof. intros [Hm Hb]. now split. Qed.

Lemma player_ok_double (p p' : Player.t) (i : nat) (h : Hand.t) :
  player_ok p -> Player.hands p !! i = Some h ->
  Qle_bool (inject_Z (Hand.bet h)) (Player.money p) = true ->
  Player.double p i = Some p' -> player_ok p'.
Proof.
  intros Hok Hi Hle%Qle_bool_iff Hd.
  pose proof (player_ok_bet p i h Hok Hi) as Hb.
  destruct Hok as [Hm Hbs].
  unfold Player.double in Hd. rewrite Hi in Hd. injection Hd as <-.
  split; simpl; [lra|]. apply Forall_insert; [exact Hbs|]. simpl. lia.
Qed.

Lemma player_ok_split (p p' : Player.t) (i n : nat) (h : Hand.t) :
  player_ok p -> Player.hands p !! i = Some h ->
  Qle_bool (inject_Z (Hand.bet h)) (Player.money p) = true ->
  Player.split p i = Some (p', n) -> player_ok p'.
Proof.
  intros Hok Hi Hle%Qle_bool_iff Hs.
  pose proof (player_ok_bet p i h Hok Hi) as Hb.
  destruct Hok as [Hm Hbs].
  unfold Player.split in Hs. rewrite Hi in Hs.
  destruct (pop (Hand.cards h)) as [[c r]|]; [|discriminate].
  injection Hs as <- <-.
  split; simpl; [lra|]. apply Forall_app. split.
  - apply Forall_insert; [exact Hbs|exact Hb].
  - repeat constructor. exact Hb.
Qed.

Lemma game_ok_new (n : Z) : game_ok (Game.new n).
Proof.
  unfold game_ok, Game.new. simpl. apply Forall_fmap, Forall_forall.
  intros i _. apply player_ok_new.
Qed.

Lemma game_ok_reset (rnd : nat -> nat) (g : Game.t) :
  game_ok g -> game_ok (Game.reset rnd g).
Proof.
  unfold game_ok, Game.reset. simpl. intros H.
  apply Forall_fmap. eapply Forall_impl; [exact H|].
  intros p. apply player_ok_reset.
Qed.

Lemma game_ok_with_player (g : Game.t) (pi : nat) (p : Player.t) :
  game_ok g -> player_ok p -> game_ok (Game.with_player g pi p).
Proof. unfold game_ok. simpl. intros. now apply Forall_insert. Qed.

Lemma game_ok_player (g : Game.t) (pi : nat) (p : Player.t) :
  game_ok g -> Game.players g !! pi = Some p -> player_ok p.
Proof. intros H Hp. exact (Forall_lookup_1 _ _ _ _ H Hp). Qed.

Lemma hit_players (g g' : Game.t) (h h' : Hand.t) :
  Game.hit g h = Some (g', h') ->
  Game.players g' = Game.players g /\ Hand.bet h' = Hand.bet h.
Proof.
  unfold Game.hit. destruct (Shoe.get_card (Game.shoe g)) as [[c s]|];
    [|discriminate].
  intros [= <- <-]. now split.
Qed.

Lemma game_ok_hit_dealer (g g' : Game.t) :
  game_ok g -> Game.hit_dealer g = Some g' -> game_ok g'.
Proof.
  unfold game_ok, Game.hit_dealer. intros Hok H.
  destruct (Dealer.hands (Game.dealer g) !! 0%nat) as [h|]; [|discriminate].
  simpl in H. destruct (Game.hit g h) as [[g1 h1]|] eqn:Hhit;
    [|discriminate].
  injection H as <-. simpl.
  apply hit_players in Hhit as [-> _]. exact Hok.
Qed.

Lemma game_ok_hit_player (g g' : Game.t) (pi i : nat) :
  game_ok g -> Game.hit_player g pi i = Some g' -> game_ok g'.
Proof.
  unfold Game.hit_player. intros Hok H.
  destruct (Game.players g !! pi) as [p|] eqn:Hp; [|discriminate].
  simpl in H.
  destruct (Player.hands p !! i) as [h|] eqn:Hi; [|discriminate].
  simpl in H. destruct (Game.hit g h) as [[g1 h1]|] eqn:Hhit;
    [|discriminate].
  injection H as <-. apply hit_players in Hhit as [Hps Hbet].
  unfold game_ok. simpl. rewrite Hps.
  pose proof (game_ok_player g pi p Hok Hp) as Hpok.
  apply Forall_insert; [exact Hok|].
  apply player_ok_with_hand; [exact Hpok|].
  rewrite Hbet. exact (player_ok_bet p i h Hpok Hi).
Qed.

Lemma player_ok_check_blackjack (dbj : bool) (p : Player.t) :
  player_ok p -> player_ok (Game.check_blackjack_player dbj p).1.
Proof.
  intros Hok. unfold Game.check_blackjack_player.
  destruct (negb (Player.is_active p)); [exact Hok|].
  destruct (Player.hands p) as [|h hs] eqn:Hhs; [exact Hok|].
  destruct (Hand.value h =? 21); [|exact Hok].
  assert (Hb : 0 <= Hand.bet h).
  { apply (player_ok_bet p 0 h Hok). now rewrite Hhs. }
  pose proof (player_ok_set_blackjack p Hok) as Hset.
  destruct dbj; simpl.
  - now apply player_ok_push_hand.
  - now apply player_ok_win_hand.
Qed.

Lemma game_ok_check_blackjack (g g' : Game.t) (ok : bool) :
  game_ok g -> Game.check_blackjack g = Some (ok, g') -> game_ok g'.
Proof.
  unfold Game.check_blackjack. intros Hok H.
  destruct (Dealer.hands (Game.dealer g) !! 0%nat) as [dh|]; [|discriminate].
  simpl in H.
  assert (Hmap : Forall player_ok
            (map fst (map (Game.check_blackjack_player
                             (Hand.value dh =? 21)) (Game.players g)))).
  { rewrite map_map. apply Forall_fmap. eapply Forall_impl; [exact Hok|].
    intros p. apply player_ok_check_blackjack. }
  repeat match type of H with
         | (if ?c then _ else _) = _ => destruct c
         end; injection H as <- <-; exact Hmap.
Qed.

Lemma game_ok_deal_players (idx : list nat) :
  forall g g' : Game.t,
    game_ok g -> Game.deal_players idx g = Some g' -> game_ok g'.
Proof.
  induction idx as [|pi idx IH]; intros g g' Hok H; simpl in H.
  - now injection H as <-.
  - destruct (Game.deal_player g pi) as [g1|] eqn:Hd; [|discriminate].
    simpl in H. apply (IH g1 g'); [|exact H].
    unfold Game.deal_player in Hd.
    destruct (Game.hit_player g pi 0) as [g0|] eqn:H0; [|discriminate].
    simpl in Hd.
    eapply game_ok_hit_player; [|exact Hd].
    eapply game_ok_hit_player; [exact Hok|exact H0].
Qed.

Lemma game_ok_deal (g g' : Game.t) (ok : bool) :
  game_ok g -> Game.deal g = Some (ok, g') -> game_ok g'.
Proof.
  unfold Game.deal. intros Hok H.
  destruct (Game.hit_dealer g) as [g1|] eqn:H1; [|discriminate].
  simpl in H.
  destruct (Game.hit_dealer g1) as [g2|] eqn:H2; [|discriminate].
  simpl in H.
  destruct (Game.deal_players _ g2) as [g3|] eqn:H3; [|discriminate].
  simpl in H.
  eapply game_ok_check_blackjack; [|exact H].
  eapply game_ok_deal_players; [|exact H3].
  eapply game_ok_hit_dealer; [|exact H2].
  eapply game_ok_hit_dealer; [exact Hok|exact H1].
Qed.

Section BetsKeepInvariant.

Variable int : string -> option Z.

Lemma player_ok_bet_entry (p p' : Player.t) (s : string) :
  player_ok p -> Game.bet_entry int p s = Game.Accepted p' -> player_ok p'.
Proof.
  intros Hok Hacc.
  destruct (bet_entry_cases int p s)
    as [[_ E]|[(_ & _ & E)|[(b & _ & _ & _ & E)|H]]]; try congruence.
  destruct H as (b & _ & _ & H0 & Hle & E).
  rewrite E in Hacc. injection Hacc as <-.
  now apply player_ok_add_hand.
Qed.

Lemma player_ok_bet_loop (inputs : list string) :
  forall (p p' : Player.t) (rest : list string),
    player_ok p -> Game.bet_loop int p inputs = Some (Some p', rest) ->
    player_ok p'.
Proof.
  induction inputs as [|s inputs IH]; intros p p' rest Hok H; simpl in H;
    [discriminate|].
  destruct (Game.bet_entry int p s) as [p1| |] eqn:E.
  - injection H as <- <-. eapply player_ok_bet_entry; eauto.
  - eapply IH; eauto.
  - discriminate.
Qed.

Lemma players_ok_take_bets (ps : list Player.t) :
  forall (inputs rest : list string) (ps' : list Player.t) (ok : bool),
    Forall player_ok ps ->
    Game.take_bets_players int ps inputs = Some (ok, ps', rest) ->
    Forall player_ok ps'.
Proof.
  induction ps as [|p ps IH]; intros inputs rest ps' ok Hok H; simpl in H.
  - injection H as <- <- <-. constructor.
  - apply Forall_cons in Hok as [Hp Hps].
    destruct (Game.bet_loop int p inputs) as [[[p1|] r1]|] eqn:Hloop;
      simpl in H; [| |discriminate].
    + destruct (Game.take_bets_players int ps r1) as [[[ok2 ps2] r2]|]
        eqn:Hrec; simpl in H; [|discriminate].
      injection H as <- <- <-. constructor.
      * eapply player_ok_bet_loop; eauto.
      * eapply IH; eauto.
    + injection H as <- <- <-. now constructor.
Qed.

Lemma game_ok_take_bets (g g' : Game.t) (inputs rest : list string)
    (ok : bool) :
  game_ok g -> Game.take_bets int g inputs = Some (ok, g', rest) ->
  game_ok g'.
Proof.
  unfold Game.take_bets, game_ok. intros Hok H.
  destruct (Game.take_bets_players int (Game.players g) inputs)
    as [[[ok1 ps1] r1]|] eqn:Hps; simpl in H; [|discriminate].
  injection H as <- <- <-. simpl. eapply players_ok_take_bets; eauto.
Qed.

Lemma game_ok_start (g g' : Game.t) (inputs rest : list string)
    (ok : bool) :
  game_ok g -> Game.start int g inputs = Some (ok, g', rest) -> game_ok g'.
Proof.
  unfold Game.start. intros Hok H.
  destruct (Game.take_bets int g inputs) as [[[ok1 g1] r1]|] eqn:Hb;
    simpl in H; [|discriminate].
  pose proof (game_ok_take_bets _ _ _ _ _ Hok Hb) as Hok1.
  destruct ok1.
  - destruct (Game.deal g1) as [[ok2 g2]|] eqn:Hd; simpl in H;
      [|discriminate].
    injection H as <- <- <-. eapply game_ok_deal; eauto.
  - now injection H as <- <- <-.
Qed.

End BetsKeepInvariant.

Lemma game_ok_action (g g' : Game.t) (pi i : nat)
    (inputs rest : list string) (fl : Game.flow) :
  game_ok g -> Game.action g pi i inputs = Some (fl, g', rest) ->
  game_ok g'.
Proof.
  unfold Game.action. intros Hok H.
  destruct (Game.players g !! pi) as [p|] eqn:Hp; [|discriminate].
  simpl in H.
  destruct (Player.hands p !! i) as [h|] eqn:Hi; [|discriminate].
  simpl in H.
  pose proof (game_ok_player g pi p Hok Hp) as Hpok.
  destruct inputs as [|user_input inputs]; [discriminate|].
  destruct (String.eqb user_input "q").
  { destruct inputs as [|quit inputs]; [discriminate|].
    destruct (String.eqb quit "y"); now injection H as <- <- <-. }
  destruct (String.eqb user_input "h").
  { destruct (Game.hit_player g pi i) as [g1|] eqn:Hhit; [|discriminate].
    simpl in H.
    destruct (Game.players g1 !! pi) as [p1|]; [|discriminate].
    simpl in H.
    destruct (Player.hands p1 !! i) as [h1|]; [|discriminate].
    simpl in H. injection H as <- <- <-.
    eapply game_ok_hit_player; eauto. }
  destruct (String.eqb user_input "s").
  { now injection H as <- <- <-. }
  destruct (String.eqb user_input "sp").
  { destruct (Hand.can_split h); [|now injection H as <- <- <-].
    destruct (length (Player.hands p) <? 4)%nat;
      [|now injection H as <- <- <-].
    destruct (Qle_bool _ _) eqn:Hle; [|now injection H as <- <- <-].
    destruct (Player.split p i) as [[p1 n]|] eqn:Hs; [|discriminate].
    simpl in H.
    destruct (Game.hit_player (Game.with_player g pi p1) pi i) as [g1|]
      eqn:H1; [|discriminate].
    simpl in H.
    destruct (Game.hit_player g1 pi n) as [g2|] eqn:H2; [|discriminate].
    simpl in H. injection H as <- <- <-.
    eapply game_ok_hit_player; [|exact H2].
    eapply game_ok_hit_player; [|exact H1].
    apply game_ok_with_player; [exact Hok|].
    eapply player_ok_split; eauto. }
  destruct (String.eqb user_input "d").
  { destruct (Qle_bool _ _) eqn:Hle; [|now injection H as <- <- <-].
    destruct (Player.double p i) as [p1|] eqn:Hd; [|discriminate].
    simpl in H.
    destruct (Game.hit_player (Game.with_player g pi p1) pi i) as [g1|]
      eqn:H1; [|discriminate].
    simpl in H. injection H as <- <- <-.
    eapply game_ok_hit_player; [|exact H1].
    apply game_ok_with_player; [exact Hok|].
    eapply player_ok_double; eauto. }
  now injection H as <- <- <-.
Qed.

Lemma game_ok_turn_from (fuel : nat) :
  forall (g g' : Game.t) (pi i : nat) (inputs rest : list string)
         (ok : bool),
    game_ok g -> Game.turn_from fuel g pi i inputs = Some (ok, g', rest) ->
    game_ok g'.
Proof.
  induction fuel as [|fuel IH]; intros g g' pi i inputs rest ok Hok H;
    simpl in H; [discriminate|].
  destruct (Game.players g !! pi) as [p|]; [|discriminate]. simpl in H.
  destruct (Player.hands p !! i) as [h|].
  - destruct (Hand.split_ace h); [eapply IH; eauto|].
    destruct (Game.action g pi i inputs) as [[[fl g1] r1]|] eqn:Ha;
      simpl in H; [|discriminate].
    pose proof (game_ok_action _ _ _ _ _ _ _ Hok Ha) as Hok1.
    destruct fl.
    + eapply IH; eauto.
    + eapply IH; eauto.
    + now injection H as <- <- <-.
  - now injection H as <- <- <-.
Qed.

Lemma game_ok_player_turns_from (fuel : nat) (idx : list nat) :
  forall (g g' : Game.t) (inputs rest : list string) (ok : bool),
    game_ok g ->
    Game.player_turns_from fuel idx g inputs = Some (ok, g', rest) ->
    game_ok g'.
Proof.
  induction idx as [|pi idx IH]; intros g g' inputs rest ok Hok H;
    simpl in H.
  - now injection H as <- <- <-.
  - destruct (Game.players g !! pi) as [p|]; [|discriminate]. simpl in H.
    destruct (Player.is_active p); [|eapply IH; eauto].
    destruct (Game.do_player_turn fuel g pi inputs) as [[[ok1 g1] r1]|]
      eqn:Ht; simpl in H; [|discriminate].
    pose proof (game_ok_turn_from _ _ _ _ _ _ _ _ Hok Ht) as Hok1.
    destruct ok1; [eapply IH; eauto|].
    now injection H as <- <- <-.
Qed.

Lemma game_ok_dealer_loop (fuel : nat) :
  forall g g' : Game.t,
    game_ok g -> Game.dealer_loop fuel g = Some g' -> game_ok g'.
Proof.
  induction fuel as [|fuel IH]; intros g g' Hok H; simpl in H;
    [discriminate|].
  destruct (Dealer.can_hit (Game.dealer g)) as [[|]|]; simpl in H;
    [| |discriminate].
  - destruct (Game.hit_dealer g) as [g1|] eqn:Hh; simpl in H;
      [|discriminate].
    eapply IH; [|exact H]. eapply game_ok_hit_dealer; eauto.
  - now injection H as <-.
Qed.

Lemma player_ok_do_results_hands (db : bool) (dt : Z)
    (hands : list Hand.t) :
  forall (k : nat) (p : Player.t),
    Forall (fun h => 0 <= Hand.bet h) hands -> player_ok p ->
    player_ok (Game.do_results_hands db dt k hands p).1.
Proof.
  induction hands as [|h hands IH]; intros k p Hbets Hok; [exact Hok|].
  apply Forall_cons in Hbets as [Hb Hbets].
  cbn [Game.do_results_hands].
  destruct (Game.do_results_hand db dt p k h) as [p1 out1] eqn:E1.
  assert (Hok1 : player_ok p1).
  { unfold Game.do_results_hand in E1.
    repeat match type of E1 with
           | (if ?c then _ else _) = _ => destruct c
           end; injection E1 as <- <-;
      auto using player_ok_win_hand, player_ok_push_hand. }
  specialize (IH (S k) p1 Hbets Hok1).
  now destruct (Game.do_results_hands db dt (S k) hands p1).
Qed.

Lemma game_ok_do_results (g g' : Game.t) (out : list Game.line) :
  game_ok g -> Game.do_results g = Some (g', out) -> game_ok g'.
Proof.
  unfold Game.do_results, game_ok. intros Hok H.
  destruct (Dealer.bust (Game.dealer g)) as [db|]; [|discriminate].
  simpl in H.
  destruct (Dealer.hands (Game.dealer g) !! 0%nat) as [dh|];
    [|discriminate].
  simpl in H. injection H as <- <-. simpl.
  rewrite map_map. apply Forall_fmap. eapply Forall_impl; [exact Hok|].
  intros p Hp. simpl. unfold Game.do_results_player.
  destruct (negb (Player.is_active p)); [exact Hp|].
  apply player_ok_do_results_hands; [apply Hp|exact Hp].
Qed.

Lemma game_ok_play_round (int : string -> option Z) (rnd : nat -> nat)
    (fuel : nat) (g g' : Game.t) (inputs rest : list string) (ok : bool)
    (out : list Game.line) :
  game_ok g ->
  Game.play_round int rnd fuel g inputs = Some (ok, g', rest, out) ->
  game_ok g'.
Proof.
  unfold Game.play_round. intros Hok H.
  pose proof (game_ok_reset rnd g Hok) as Hok0.
  destruct (Game.start int _ inputs) as [[[st g1] r1]|] eqn:Hs;
    simpl in H; [|discriminate].
  pose proof (game_ok_start _ _ _ _ _ _ Hok0 Hs) as Hok1.
  destruct st; [|now injection H as <- <- <- <-].
  destruct (Game.do_player_turns fuel g1 r1) as [[[ok2 g2] r2]|] eqn:Ht;
    simpl in H; [|discriminate].
  pose proof (game_ok_player_turns_from _ _ _ _ _ _ _ Hok1 Ht) as Hok2.
  destruct ok2; [|now injection H as <- <- <- <-].
  destruct (Game.has_active_players g2); [|now injection H as <- <- <- <-].
  destruct (Game.do_dealer_turn g2) as [g3|] eqn:Hd; simpl in H;
    [|discriminate].
  pose proof (game_ok_dealer_loop _ _ _ Hok2 Hd) as Hok3.
  destruct (Game.do_results g3) as [[g4 out4]|] eqn:Hr; simpl in H;
    [|discriminate].
  injection H as <- <- <- <-. eapply game_ok_do_results; eauto.
Qed.

Lemma step_keeps_game_ok (int : string -> option Z) (g g' : Game.t) :
  step int g g' -> game_ok g -> game_ok g'.
Proof.
  intros Hstep Hok. destruct Hstep.
  - now apply game_ok_reset.
  - apply game_ok_with_player; [exact Hok|].
    eapply player_ok_bet_entry; [|eassumption].
    eapply game_ok_player; eassumption.
  - eapply game_ok_take_bets; eassumption.
  - eapply game_ok_hit_dealer; eassumption.
  - eapply game_ok_hit_player; eassumption.
  - eapply game_ok_check_blackjack; eassumption.
  - eapply game_ok_deal; eassumption.
  - eapply game_ok_start; eassumption.
  - eapply game_ok_action; eassumption.
  - eapply game_ok_turn_from; eassumption.
  - eapply game_ok_player_turns_from; eassumption.
  - eapply game_ok_dealer_loop; eassumption.
  - eapply game_ok_do_results; eassumption.
  - eapply game_ok_play_round; eassumption.
Qed.

Lemma reachable_game_ok (int : string -> option Z) (g : Game.t) :
  reachable int g -> game_ok g.
Proof.
  induction 1 as [n|g g' _ IH Hstep].
  - apply game_ok_new.
  - eapply step_keeps_game_ok; eassumption.
Qed.

(** C10. Every player of a fresh game owns 1000, and in every game the
    engine can reach from a fresh one, by whole rounds or by any of its
    operations one at a time, no player's money is below zero.  The
    operations that take money away are guarded: a bet is accepted only
    within the money owned, and [double] and [split] are reached only with
    money for the hand's bet; [win_hand] and [push_hand] add a bet that is
    never negative. *)
Theorem money_never_negative (int : string -> option Z) (g : Game.t) :
  reachable int g ->
  (forall p : Player.t, p ∈ Game.players g -> (0 <= Player.money p)%Q)
  /\ (forall (n : Z) (p : Player.t),
        p ∈ Game.players (Game.new n) -> (Player.money p == 1000)%Q).
Proof.
  intros Hreach. split.
  - intros p Hin. apply reachable_game_ok in Hreach.
    unfold game_ok in Hreach. rewrite Forall_forall in Hreach.
    now apply Hreach.
  - intros n p Hin. unfold Game.new in Hin. simpl in Hin.
    apply list_elem_of_fmap in Hin as (i & -> & _). reflexivity.
Qed.

Lemma money_never_negative_witness :
  let g := Game.with_player (Game.new 1) 0
             (Player.add_hand (Player.new 1) (Hand.new 100)) in
  reachable int_ascii g
  /\ forall p : Player.t, p ∈ Game.players g -> (0 <= Player.money p)%Q.
Proof.
  assert (Hreach : reachable int_ascii
            (Game.with_player (Game.new 1) 0
               (Player.add_hand (Player.new 1) (Hand.new 100)))).
  { eapply reach_step; [apply reach_new|].
    apply (step_bet int_ascii (Game.new 1) 0 (Player.new 1) _ "100");
      reflexivity. }
  split; [exact Hreach|].
  exact (proj1 (money_never_negative int_ascii _ Hreach)).
Defined.

(** ** Fuel is only a bound *)

Lemma hit_dealer_shoe (g g' : Game.t) :
  Game.hit_dealer g = Some g' ->
  S (length (Shoe.cards (Game.shoe g')))
  = length (Shoe.cards (Game.shoe g)).
Proof.
  unfold Game.hit_dealer, Game.hit, Shoe.get_card. intros H.
  destruct (Dealer.hands (Game.dealer g) !! 0%nat) as [h|]; [|discriminate].
  simpl in H.
  destruct (pop (Shoe.cards (Game.shoe g))) as [[c r]|] eqn:Hpop;
    [|discriminate].
  simpl in H. injection H as <-. simpl.
  apply pop_Some in Hpop. rewrite Hpop, length_app. simpl. lia.
Qed.

(** The dealer's loop stops, or fails on an empty shoe, before the fuel
    that [do_dealer_turn] provides is spent: more fuel changes nothing. *)
Lemma dealer_loop_fuel (fuel : nat) :
  forall g : Game.t,
    (length (Shoe.cards (Game.shoe g)) < fuel)%nat ->
    Game.dealer_loop (S fuel) g = Game.dealer_loop fuel g.
Proof.
  induction fuel as [|fuel IH]; intros g Hlen; [lia|].
  change (Game.dealer_loop (S (S fuel)) g)
    with (can ← Dealer.can_hit (Game.dealer g);
          if can : bool
          then g1 ← Game.hit_dealer g; Game.dealer_loop (S fuel) g1
          else Some g).
  change (Game.dealer_loop (S fuel) g)
    with (can ← Dealer.can_hit (Game.dealer g);
          if can : bool
          then g1 ← Game.hit_dealer g; Game.dealer_loop fuel g1
          else Some g).
  destruct (Dealer.can_hit (Game.dealer g)) as [[|]|]; simpl;
    try reflexivity.
  destruct (Game.hit_dealer g) as [g1|] eqn:Hhit; simpl; [|reflexivity].
  apply IH. apply hit_dealer_shoe in Hhit. lia.
Qed.

Lemma do_dealer_turn_fuel (g : Game.t) (extra : nat) :
  Game.dealer_loop (extra + S (length (Shoe.cards (Game.shoe g)))) g
  = Game.do_dealer_turn g.
Proof.
  unfold Game.do_dealer_turn. induction extra as [|extra IH];
    [reflexivity|].
  rewrite <- IH. apply dealer_loop_fuel. lia.
Qed.

Lemma hands_len_with_player (g : Game.t) (pi : nat) (p p' : Player.t) :
  Game.players g !! pi = Some p ->
  hands_len (Game.with_player g pi p') pi = length (Player.hands p').
Proof.
  intros Hp. unfold hands_len, Game.with_player. simpl.
  rewrite list_lookup_insert_eq; [reflexivity|].
  apply lookup_lt_is_Some. eauto.
Qed.

Lemma hands_len_hit_player (g g' : Game.t) (pi i : nat) :
  Game.hit_player g pi i = Some g' -> hands_len g' pi = hands_len g pi.
Proof.
  unfold Game.hit_player. intros H.
  destruct (Game.players g !! pi) as [p|] eqn:Hp; [|discriminate].
  simpl in H.
  destruct (Player.hands p !! i) as [h|] eqn:Hi; [|discriminate].
  simpl in H. destruct (Game.hit g h) as [[g1 h1]|] eqn:Hhit;
    [|discriminate].
  injection H as <-. apply hit_players in Hhit as [Hps _].
  unfold hands_len. simpl. rewrite Hps, Hp.
  rewrite list_lookup_insert_eq by (apply lookup_lt_is_Some; eauto).
  simpl. apply length_insert.
Qed.

(** A pass of the loop body reads at least one answer and adds at most
    one hand. *)
Lemma action_measure (g g' : Game.t) (pi i : nat)
    (inputs rest : list string) (fl : Game.flow) :
  Game.action g pi i inputs = Some (fl, g', rest) ->
  (length rest < length inputs)%nat
  /\ (hands_len g' pi <= S (hands_len g pi))%nat.
Proof.
  unfold Game.action. intros H.
  destruct (Game.players g !! pi) as [p|] eqn:Hp; [|discriminate].
  simpl in H.
  destruct (Player.hands p !! i) as [h|] eqn:Hi; [|discriminate].
  simpl in H.
  destruct inputs as [|user_input inputs]; [discriminate|].
  destruct (String.eqb user_input "q").
  { destruct inputs as [|quit inputs]; [discriminate|].
    destruct (String.eqb quit "y"); injection H as <- <- <-; simpl; lia. }
  destruct (String.eqb user_input "h").
  { destruct (Game.hit_player g pi i) as [g1|] eqn:Hhit; [|discriminate].
    simpl in H.
    destruct (Game.players g1 !! pi) as [p1|]; [|discriminate].
    simpl in H.
    destruct (Player.hands p1 !! i) as [h1|]; [|discriminate].
    simpl in H. injection H as <- <- <-.
    apply hands_len_hit_player in Hhit. simpl. lia. }
  destruct (String.eqb user_input "s").
  { injection H as <- <- <-. simpl. lia. }
  destruct (String.eqb user_input "sp").
  { destruct (Hand.can_split h) eqn:Hcs;
      [|injection H as <- <- <-; simpl; lia].
    destruct (length (Player.hands p) <? 4)%nat;
      [|injection H as <- <- <-; simpl; lia].
    destruct (Qle_bool _ _); [|injection H as <- <- <-; simpl; lia].
    destruct (split_grows_hands p i h Hi Hcs)
      as (p1 & Hs & Hlen).
    rewrite Hs in H. simpl in H.
    destruct (Game.hit_player (Game.with_player g pi p1) pi i) as [g1|]
      eqn:H1; [|discriminate].
    simpl in H.
    destruct (Game.hit_player g1 pi _) as [g2|] eqn:H2; [|discriminate].
    simpl in H. injection H as <- <- <-.
    apply hands_len_hit_player in H1, H2.
    rewrite H2, H1, (hands_len_with_player g pi p p1 Hp), Hlen.
    unfold hands_len. rewrite Hp. simpl. lia. }
  destruct (String.eqb user_input "d").
  { destruct (Qle_bool _ _); [|injection H as <- <- <-; simpl; lia].
    unfold Player.double in H. rewrite Hi in H. simpl in H.
    destruct (Game.hit_player _ pi i) as [g1|] eqn:H1; [|discriminate].
    simpl in H. injection H as <- <- <-.
    apply hands_len_hit_player in H1.
    rewrite H1, (hands_len_with_player g pi p _ Hp). simpl.
    rewrite length_insert. unfold hands_len. rewrite Hp. lia. }
  injection H as <- <- <-. simpl. lia.
Qed.

Lemma turn_from_S (fuel : nat) (g : Game.t) (pi i : nat)
    (inputs : list string) :
  Game.turn_from (S fuel) g pi i inputs
  = player ← Game.players g !! pi;
    match Player.hands player !! i with
    | None => Some (true, g, inputs)
    | Some hand =>
        if Hand.split_ace hand then Game.turn_from fuel g pi (S i) inputs
        else
          '(fl, g1, rest) ← Game.action g pi i inputs;
          match fl with
          | Game.Quit => Some (false, g1, rest)
          | Game.Break => Game.turn_from fuel g1 pi (S i) rest
          | Game.Continue => Game.turn_from fuel g1 pi i rest
          end
    end.
Proof. reflexivity. Qed.

(** The loop over a player's hands needs no more passes than twice the
    answers left plus the hands still to visit: beyond that, more fuel
    changes nothing, so [None] then stands for an exception or for the
    answers running out, never for the bound. *)
Lemma turn_from_fuel (fuel : nat) :
  forall (g : Game.t) (pi i : nat) (inputs : list string),
    (2 * length inputs + (hands_len g pi - i) < fuel)%nat ->
    Game.turn_from (S fuel) g pi i inputs
    = Game.turn_from fuel g pi i inputs.
Proof.
  induction fuel as [|fuel IH]; intros g pi i inputs Hm; [lia|].
  etransitivity; [apply turn_from_S|].
  symmetry; etransitivity; [apply turn_from_S|]; symmetry.
  destruct (Game.players g !! pi) as [p|] eqn:Hp; [|reflexivity].
  cbn [mbind option_bind].
  destruct (Player.hands p !! i) as [h|] eqn:Hi; [|reflexivity].
  assert (Hlt : (i < hands_len g pi)%nat).
  { unfold hands_len. rewrite Hp. apply lookup_lt_is_Some. eauto. }
  destruct (Hand.split_ace h).
  { apply IH. lia. }
  destruct (Game.action g pi i inputs) as [[[fl g1] r1]|] eqn:Ha;
    [|reflexivity].
  cbn [mbind option_bind].
  apply action_measure in Ha as [Hrest Hhands].
  destruct fl; [apply IH; lia|apply IH; lia|reflexivity].
Qed.

(** * Further properties of the code *)

(** ** Cards of the thirteen ranks *)

Lemma rank_card_facts (r : Z) :
  1 <= r <= 13 ->
  2 <= Card.value (Card.new r) <= 11
  /\ (Card.is_ace (Card.new r) = true <-> r = 1)
  /\ (Card.value (Card.new r) = 11 <-> r = 1)
  /\ 1 <= Card.value (Card.new r)
          - (if Card.is_ace (Card.new r) then 10 else 0) <= 10.
Proof.
  intros Hr. apply rank_cases in Hr.
  repeat (destruct Hr as [-> | Hr]); try subst r;
    (split; [vm_compute; split; discriminate|]);
    (split; [vm_compute; split; (reflexivity || discriminate)|]);
    (split; [vm_compute; split; (reflexivity || discriminate)|]);
    vm_compute; split; discriminate.
Qed.

Lemma rank_labels_differ (r r' : Z) :
  1 <= r <= 13 -> 1 <= r' <= 13 ->
  Card.type (Card.new r) = Card.type (Card.new r') -> r = r'.
Proof.
  intros Hr Hr'. apply rank_cases in Hr, Hr'.
  repeat (destruct Hr as [-> | Hr]); try subst r;
    repeat (destruct Hr' as [-> | Hr']); try subst r';
    vm_compute; intros H; (reflexivity || discriminate H).
Qed.

(** X1. For ranks 1 to 13, [Card] gives a value from 2 to 11, the value
    11 and the label ["A"] exactly to rank 1, and thirteen different
    labels: two such cards form a hand that can be split exactly when they
    have the same rank. *)
Theorem rank_cards_split_on_equal_rank (r r' : Z) :
  1 <= r <= 13 -> 1 <= r' <= 13 ->
  2 <= Card.value (Card.new r) <= 11
  /\ (Card.type (Card.new r) = "A"%string <-> r = 1)
  /\ (Card.value (Card.new r) = 11 <-> r = 1)
  /\ (Card.type (Card.new r) = Card.type (Card.new r') <-> r = r')
  /\ (forall bet : Z,
        Hand.can_split (Hand.dealt bet [Card.new r; Card.new r']) = true
        <-> r = r').
Proof.
  intros Hr Hr'.
  destruct (rank_card_facts r Hr) as (Hv & Ha & H11 & _).
  split; [exact Hv|]. split.
  { rewrite <- Ha. unfold Card.is_ace. symmetry. apply String.eqb_eq. }
  split; [exact H11|].
  assert (Hlab : Card.type (Card.new r) = Card.type (Card.new r')
                 <-> r = r').
  { split; [now apply rank_labels_differ|now intros ->]. }
  split; [exact Hlab|].
  intros bet. rewrite <- Hlab. unfold Hand.can_split.
  destruct (dealt_fields bet [Card.new r; Card.new r']) as (-> & _).
  simpl. apply String.eqb_eq.
Qed.

Lemma rank_cards_split_on_equal_rank_witness :
  1 <= 8 <= 13 /\ 1 <= 8 <= 13
  /\ forall bet : Z,
       Hand.can_split (Hand.dealt bet [Card.new 8; Card.new 8]) = true
       <-> 8 = 8.
Proof.
  split; [lia|]. split; [lia|].
  apply (rank_cards_split_on_equal_rank 8 8); lia.
Defined.

(** ** The value of a hand is the best total *)

Lemma value_bounds (h : Hand.t) :
  hard_total h <= Hand.value h <= Hand.sum_values (Hand.cards h)
  /\ (forall j : nat, (j <= Hand.num_aces h)%nat ->
        Hand.sum_values (Hand.cards h) - 10 * Z.of_nat j <= 21 ->
        Hand.sum_values (Hand.cards h) - 10 * Z.of_nat j <= Hand.value h)
  /\ (Hand.is_bust h = true <-> 21 < hard_total h).
Proof.
  unfold hard_total, Hand.is_bust, Hand.value.
  destruct (soften_spec (Hand.num_aces h) (Hand.sum_values (Hand.cards h)))
    as (k & Hk & -> & Hstop & Hwhile).
  split; [lia|]. split.
  - intros j Hj Hle.
    destruct (Nat.lt_ge_cases j k) as [Hlt|Hge]; [|lia].
    specialize (Hwhile j Hlt). lia.
  - rewrite Z.ltb_lt. destruct Hstop as [? | ->]; lia.
Qed.

Lemma bust_iff_hard_total (h : Hand.t) :
  Hand.is_bust h = true <-> 21 < hard_total h.
Proof. apply value_bounds. Qed.

(** X2. [value] lies between the total with every counted ace at 1 and
    the total with every ace at 11; no way of counting some of the aces
    at 1 gives a total of at most 21 that is higher; and the hand is bust
    exactly when even the total with every counted ace at 1 exceeds 21. *)
Theorem value_is_best_total (h : Hand.t) :
  hard_total h <= Hand.value h <= Hand.sum_values (Hand.cards h)
  /\ (forall j : nat, (j <= Hand.num_aces h)%nat ->
        Hand.sum_values (Hand.cards h) - 10 * Z.of_nat j <= 21 ->
        Hand.sum_values (Hand.cards h) - 10 * Z.of_nat j <= Hand.value h)
  /\ (Hand.is_bust h = true <-> 21 < hard_total h)
  /\ (hard_total h <= 21 -> Hand.value h <= 21).
Proof.
  destruct (value_bounds h) as (Hb & Hbest & Hbust).
  split; [exact Hb|]. split; [exact Hbest|]. split; [exact Hbust|].
  intros Hle.
  destruct (Z.le_gt_cases (Hand.value h) 21) as [Hok|Hgt]; [exact Hok|].
  assert (E : Hand.is_bust h = true)
    by (unfold Hand.is_bust; apply Z.ltb_lt; lia).
  apply Hbust in E. lia.
Qed.

Lemma hard_total_add (h : Hand.t) (c : Card.t) :
  hard_total (Hand.add h c)
  = hard_total h
    + (Card.value c - (if Card.is_ace c then 10 else 0)).
Proof.
  unfold hard_total, Hand.add. simpl. rewrite sum_values_snoc.
  destruct (Card.is_ace c); lia.
Qed.

(** X3. Dealing a card of one of the thirteen ranks raises the total
    with aces at 1 by between 1 and 10, so a bust hand stays bust whatever
    is dealt to it. *)
Theorem bust_hand_stays_bust (h : Hand.t) (r : Z) :
  1 <= r <= 13 ->
  hard_total h + 1 <= hard_total (Hand.add h (Card.new r))
                   <= hard_total h + 10
  /\ (Hand.is_bust h = true ->
      Hand.is_bust (Hand.add h (Card.new r)) = true).
Proof.
  intros Hr. destruct (rank_card_facts r Hr) as (_ & _ & _ & Hhard).
  rewrite hard_total_add. split; [lia|].
  intros Hb%bust_iff_hard_total. apply bust_iff_hard_total.
  rewrite hard_total_add. lia.
Qed.

Lemma bust_hand_stays_bust_witness :
  1 <= 5 <= 13
  /\ (Hand.is_bust (Hand.dealt 0 [Card.new 13; Card.new 12; Card.new 2])
      = true ->
      Hand.is_bust
        (Hand.add (Hand.dealt 0 [Card.new 13; Card.new 12; Card.new 2])
                  (Card.new 5)) = true).
Proof.
  split; [lia|].
  apply (bust_hand_stays_bust
           (Hand.dealt 0 [Card.new 13; Card.new 12; Card.new 2]) 5).
  lia.
Defined.

(** ** Drawing from the shoe *)

Lemma draw_many_Some (k : nat) :
  forall (s s' : Shoe.t) (drawn : list Card.t),
    Shoe.draw_many k s = Some (drawn, s')
    <-> Shoe.cards s = Shoe.cards s' ++ rev drawn /\ length drawn = k.
Proof.
  induction k as [|k IH]; intros [cs] [cs'] drawn; simpl.
  - split.
    + intros [= Hd Hc]. subst. simpl. now rewrite app_nil_r.
    + intros [Hcs Hlen]. destruct drawn; [|discriminate].
      simpl in Hcs. rewrite app_nil_r in Hcs. now subst.
  - unfold Shoe.get_card. simpl.
    destruct (pop cs) as [[c r]|] eqn:Hpop.
    + apply pop_Some in Hpop. subst cs.
      destruct (Shoe.draw_many k (Shoe.mk r)) as [[d final]|] eqn:Hrec.
      * pose proof (proj1 (IH _ _ _) Hrec) as [Hr Hlen]. simpl in Hr.
        split.
        -- intros [= Hd Hc]. subst. simpl.
           split; [now rewrite app_assoc|reflexivity].
        -- intros [Hcs Hlen']. destruct drawn as [|c' d']; [discriminate|].
           simpl in Hcs, Hlen'. rewrite app_assoc in Hcs.
           apply app_inj_tail in Hcs as [Hr' <-].
           assert (Hrec' : Shoe.draw_many k (Shoe.mk r)
                           = Some (d', Shoe.mk cs')).
           { apply IH. simpl. split; [exact Hr'|lia]. }
           congruence.
      * split; [discriminate|].
        intros [Hcs Hlen']. destruct drawn as [|c' d']; [discriminate|].
        simpl in Hcs, Hlen'. rewrite app_assoc in Hcs.
        apply app_inj_tail in Hcs as [Hr' <-].
        assert (Hrec' : Shoe.draw_many k (Shoe.mk r)
                        = Some (d', Shoe.mk cs')).
        { apply IH. simpl. split; [exact Hr'|lia]. }
        congruence.
    + apply pop_None in Hpop. subst cs. split; [discriminate|].
      intros [Hcs Hlen']. destruct drawn as [|c' d']; [discriminate|].
      simpl in Hcs. symmetry in Hcs. apply app_eq_nil in Hcs as [_ Hcs].
      apply app_eq_nil in Hcs as [_ Hcs]. discriminate.
Qed.

Lemma draw_many_None (k : nat) :
  forall s : Shoe.t,
    Shoe.draw_many k s = None <-> (length (Shoe.cards s) < k)%nat.
Proof.
  induction k as [|k IH]; intros [cs]; simpl.
  - split; [discriminate|lia].
  - unfold Shoe.get_card. simpl.
    destruct (pop cs) as [[c r]|] eqn:Hpop.
    + apply pop_Some in Hpop. subst cs. rewrite length_app. simpl.
      specialize (IH (Shoe.mk r)). simpl in IH.
      destruct (Shoe.draw_many k (Shoe.mk r)) as [[d final]|].
      * split; [discriminate|]. intros Hlt.
        assert (Hr : (length r < k)%nat) by lia.
        apply IH in Hr. discriminate.
      * split; [|reflexivity]. intros _.
        assert (Hr : (length r < k)%nat) by now apply IH. lia.
    + apply pop_None in Hpop. subst cs. simpl. split; [lia|reflexivity].
Qed.

(** X4. [k] calls of [get_card] succeed exactly when the shoe holds at
    least [k] cards; they hand out the last [k] cards of the list, the
    last one first, and leave the cards before them in the shoe.  With
    fewer than [k] cards one of the calls raises. *)
Theorem draws_take_the_end_of_the_shoe (k : nat) (s : Shoe.t) :
  (forall (s' : Shoe.t) (drawn : list Card.t),
      Shoe.draw_many k s = Some (drawn, s')
      <-> Shoe.cards s = Shoe.cards s' ++ rev drawn /\ length drawn = k)
  /\ (Shoe.draw_many k s = None <-> (length (Shoe.cards s) < k)%nat)
  /\ (Shoe.get_card s = None <-> Shoe.cards s = []).
Proof.
  split; [|split].
  - intros s' drawn. apply draw_many_Some.
  - apply draw_many_None.
  - unfold Shoe.get_card. destruct (pop (Shoe.cards s)) as [[c r]|] eqn:E.
    + split; [discriminate|]. intros H. rewrite H in E. discriminate.
    + apply pop_None in E. now split.
Qed.

(** ** Reset *)

Lemma shoe_new_count (n : Z) (r : Z) :
  1 <= r <= 13 ->
  count_occ Card.eq_dec (Shoe.cards (Shoe.new n)) (Card.new r)
  = Z.to_nat (4 * n).
Proof.
  intros Hr. unfold Shoe.new. simpl.
  rewrite fill_count, suit_count by exact Hr. lia.
Qed.

Lemma reset_inactive (ps : list Player.t) :
  existsb Player.is_active (map Player.reset ps) = false.
Proof. induction ps as [|p ps IH]; [reflexivity|]. simpl. exact IH. Qed.

(** X5. [reset] keeps the players, their names and their money, takes
    every hand and every blackjack flag away, gives the dealer one empty
    hand, and leaves nobody active.  The new shoe holds 52 cards per
    player, 4 per player of each rank, and these are all the cards of the
    game. *)
Theorem reset_clears_the_table (rnd : nat -> nat) (g : Game.t) :
  Game.players (Game.reset rnd g)
  = map (fun p => Player.mk [] (Player.money p) false (Player.name p))
        (Game.players g)
  /\ Dealer.hands (Game.dealer (Game.reset rnd g)) = [Hand.new 0]
  /\ Game.has_active_players (Game.reset rnd g) = false
  /\ length (Shoe.cards (Game.shoe (Game.reset rnd g)))
     = (52 * length (Game.players g))%nat
  /\ (forall r : Z, 1 <= r <= 13 ->
        count_occ Card.eq_dec (Shoe.cards (Game.shoe (Game.reset rnd g)))
                  (Card.new r)
        = (4 * length (Game.players g))%nat)
  /\ all_cards (Game.reset rnd g)
     ≡ₚ Shoe.cards (Shoe.new (Z.of_nat (length (Game.players g)))).
Proof.
  split; [reflexivity|]. split; [reflexivity|].
  split; [apply reset_inactive|].
  assert (Hperm : Shoe.cards (Game.shoe (Game.reset rnd g))
                  ≡ₚ Shoe.cards
                       (Shoe.new (Z.of_nat (length (Game.players g)))))
    by apply shuffle_from_Permutation.
  split; [|split].
  - rewrite Hperm. unfold Shoe.new. simpl. rewrite fill_length. lia.
  - intros r Hr.
    rewrite (proj1 (Permutation_count_occ Card.eq_dec _ _) Hperm).
    rewrite shoe_new_count by exact Hr. lia.
  - unfold all_cards. rewrite Hperm.
    replace (hand_cards _ ++ concat _) with (@nil Card.t);
      [now rewrite app_nil_r|].
    unfold Game.reset. simpl. symmetry. clear Hperm.
    induction (Game.players g) as [|p ps IH]; [reflexivity|exact IH].
Qed.

(** X6. A game without players cannot play a round: [reset] builds a shoe
    of zero decks, [take_bets] has nobody to ask, and the first card that
    [deal] draws for the dealer raises on the empty shoe. *)
Theorem round_without_players_raises (int : string -> option Z)
    (rnd : nat -> nat) (fuel : nat) (g : Game.t) (inputs : list string) :
  Game.players g = [] ->
  Shoe.cards (Game.shoe (Game.reset rnd g)) = []
  /\ Game.take_bets int (Game.reset rnd g) inputs
     = Some (true, Game.reset rnd g, inputs)
  /\ Game.deal (Game.reset rnd g) = None
  /\ Game.play_round int rnd fuel g inputs = None.
Proof.
  intros Hps. destruct g as [s ps d]. simpl in Hps. subst ps.
  repeat split; reflexivity.
Qed.

Lemma round_without_players_raises_witness :
  Game.players (Game.new 0) = []
  /\ Game.play_round int_ascii (fun i => i) 10 (Game.new 0) ["5"%string]
     = None.
Proof.
  split; [reflexivity|].
  apply (round_without_players_raises int_ascii (fun i => i) 10
           (Game.new 0) ["5"%string]).
  reflexivity.
Defined.

(** ** The dealer's turn *)

Lemma soften_le (n : nat) (t : Z) : Hand.soften n t <= t.
Proof.
  revert t. induction n as [|n IH]; intros t; simpl; [lia|].
  destruct (21 <? t); [|lia]. specialize (IH (t - 10)). lia.
Qed.

Lemma soften_shift (n : nat) (t v : Z) :
  0 <= v -> Hand.soften n (t + v) <= Hand.soften n t + v.
Proof.
  intros Hv. revert t. induction n as [|n IH]; intros t; simpl; [lia|].
  destruct (Z.ltb_spec 21 (t + v)), (Z.ltb_spec 21 t); try lia.
  - specialize (IH (t - 10)).
    replace (t + v - 10) with (t - 10 + v) by lia. exact IH.
  - pose proof (soften_le n (t + v - 10)). lia.
Qed.

(** A hand worth at most 16 is worth at most 26 after one more card. *)
Lemma value_after_hit (h : Hand.t) (c : Card.t) :
  rank_card c -> Hand.value h <= 16 -> Hand.value (Hand.add h c) <= 26.
Proof.
  intros (r & Hr & ->) Hv.
  destruct (rank_card_facts r Hr) as (Hval & Hace & H11 & _).
  unfold Hand.value, Hand.add in *. simpl. rewrite sum_values_snoc.
  set (t := Hand.sum_values (Hand.cards h)) in *.
  set (n := Hand.num_aces h) in *.
  destruct (Card.is_ace (Card.new r)) eqn:E.
  - assert (Hv11 : Card.value (Card.new r) = 11)
      by (apply H11, Hace; reflexivity).
    rewrite Hv11. simpl. destruct (Z.ltb_spec 21 (t + 11)); [|lia].
    replace (t + 11 - 10) with (t + 1) by lia.
    pose proof (soften_shift n t 1). lia.
  - assert (Card.value (Card.new r) <= 10).
    { destruct (Z.eq_dec (Card.value (Card.new r)) 11) as [E11|]; [|lia].
      apply H11, Hace in E11. congruence. }
    pose proof (soften_shift n t (Card.value (Card.new r))). lia.
Qed.

Lemma hit_dealer_spec (g g' : Game.t) :
  Game.hit_dealer g = Some g' ->
  exists (dh : Hand.t) (c : Card.t),
    Dealer.hands (Game.dealer g) !! 0%nat = Some dh
    /\ Shoe.cards (Game.shoe g) = Shoe.cards (Game.shoe g') ++ [c]
    /\ Dealer.hands (Game.dealer g')
       = <[0%nat := Hand.add dh c]> (Dealer.hands (Game.dealer g))
    /\ Dealer.name (Game.dealer g') = Dealer.name (Game.dealer g)
    /\ Game.players g' = Game.players g.
Proof.
  unfold Game.hit_dealer, Game.hit, Shoe.get_card. intros H.
  destruct (Dealer.hands (Game.dealer g) !! 0%nat) as [dh|]; [|discriminate].
  simpl in H.
  destruct (pop (Shoe.cards (Game.shoe g))) as [[c r]|] eqn:Hpop;
    [|discriminate].
  simpl in H. injection H as <-. apply pop_Some in Hpop.
  exists dh, c. simpl. now repeat split.
Qed.

Lemma dealer_loop_spec (fuel : nat) :
  forall (g g' : Game.t) (dh : Hand.t),
    Game.dealer_loop fuel g = Some g' ->
    Dealer.hands (Game.dealer g) !! 0%nat = Some dh ->
    exists (dh' : Hand.t) (drawn : list Card.t),
      Dealer.hands (Game.dealer g') !! 0%nat = Some dh'
      /\ Hand.cards dh' = Hand.cards dh ++ drawn
      /\ Shoe.cards (Game.shoe g) = Shoe.cards (Game.shoe g') ++ rev drawn
      /\ Game.players g' = Game.players g
      /\ 17 <= Hand.value dh'
      /\ (Forall rank_card (Shoe.cards (Game.shoe g)) ->
          Hand.value dh <= 26 -> Hand.value dh' <= 26).
Proof.
  induction fuel as [|fuel IH]; intros g g' dh H Hdh; simpl in H;
    [discriminate|].
  unfold Dealer.can_hit in H. rewrite Hdh in H. simpl in H.
  destruct (Z.ltb_spec (Hand.value dh) 17) as [Hlt|Hge].
  - destruct (Game.hit_dealer g) as [g1|] eqn:Hhit; simpl in H;
      [|discriminate].
    apply hit_dealer_spec in Hhit
      as (dh0 & c & Hdh0 & Hshoe & Hhands & _ & Hps).
    assert (dh0 = dh) by congruence. subst dh0.
    assert (Hdh1 : Dealer.hands (Game.dealer g1) !! 0%nat
                   = Some (Hand.add dh c)).
    { rewrite Hhands. apply list_lookup_insert_eq.
      apply lookup_lt_is_Some. eauto. }
    destruct (IH g1 g' (Hand.add dh c) H Hdh1)
      as (dh' & drawn & H1 & H2 & H3 & H4 & H5 & H6).
    exists dh', (c :: drawn). split; [exact H1|]. split.
    { rewrite H2. simpl. now rewrite <- app_assoc. }
    split.
    { rewrite Hshoe, H3. simpl. now rewrite <- app_assoc. }
    split; [congruence|]. split; [exact H5|].
    intros Hranks _. rewrite Hshoe in Hranks.
    apply Forall_app in Hranks as [Hrest Hc].
    apply Forall_cons in Hc as [Hc _].
    apply H6; [exact Hrest|]. apply value_after_hit; [exact Hc|lia].
  - injection H as <-. exists dh, []. rewrite app_nil_r. simpl.
    rewrite app_nil_r. repeat split; auto; lia.
Qed.

(** X7. When [do_dealer_turn] returns, the dealer's hand is worth at
    least 17 and holds the cards it held before followed by the cards
    drawn, which are the last cards of the shoe taken from its end; the
    players are untouched.  A dealer already at 17 or more draws nothing.
    When the shoe holds cards of the thirteen ranks and the hand started
    at 26 or less, it ends at 26 or less. *)
Theorem dealer_draws_to_17 (g g' : Game.t) :
  Game.do_dealer_turn g = Some g' ->
  exists (dh dh' : Hand.t) (drawn : list Card.t),
    Dealer.hands (Game.dealer g) !! 0%nat = Some dh
    /\ Dealer.hands (Game.dealer g') !! 0%nat = Some dh'
    /\ Hand.cards dh' = Hand.cards dh ++ drawn
    /\ Shoe.cards (Game.shoe g) = Shoe.cards (Game.shoe g') ++ rev drawn
    /\ Game.players g' = Game.players g
    /\ 17 <= Hand.value dh'
    /\ (17 <= Hand.value dh -> g' = g)
    /\ (Forall rank_card (Shoe.cards (Game.shoe g)) ->
        Hand.value dh <= 26 -> Hand.value dh' <= 26).
Proof.
  unfold Game.do_dealer_turn. intros H.
  destruct (Dealer.hands (Game.dealer g) !! 0%nat) as [dh|] eqn:Hdh.
  - destruct (dealer_loop_spec _ g g' dh H Hdh)
      as (dh' & drawn & H1 & H2 & H3 & H4 & H5 & H6).
    exists dh, dh', drawn. repeat split; auto.
    intros Hge. simpl in H. unfold Dealer.can_hit in H.
    rewrite Hdh in H. simpl in H.
    destruct (Z.ltb_spec (Hand.value dh) 17); [lia|]. congruence.
  - simpl in H. unfold Dealer.can_hit in H. rewrite Hdh in H.
    discriminate.
Qed.

Lemma dealer_draws_to_17_witness :
  let g := Game.mk (Shoe.mk [Card.new 4; Card.new 13; Card.new 2]) []
                   (Dealer.mk [Hand.dealt 0 [Card.new 5; Card.new 6]]
                              "Dealer") in
  exists g' : Game.t,
    Game.do_dealer_turn g = Some g'
    /\ exists dh' : Hand.t,
         Dealer.hands (Game.dealer g') !! 0%nat = Some dh'
         /\ 17 <= Hand.value dh'.
Proof.
  eexists. split; [vm_compute; reflexivity|].
  destruct (dealer_draws_to_17
              (Game.mk (Shoe.mk [Card.new 4; Card.new 13; Card.new 2]) []
                 (Dealer.mk [Hand.dealt 0 [Card.new 5; Card.new 6]]
                            "Dealer"))
              _ eq_refl)
    as (dh & dh' & drawn & _ & H1 & _ & _ & _ & H2 & _).
  exists dh'. split; [exact H1|exact H2].
Defined.

(** ** Taking bets *)

Section BetLoop.

Variable int : string -> option Z.

Lemma bet_loop_Some (inputs : list string) :
  forall (p : Player.t) (r : option Player.t) (rest : list string),
    Game.bet_loop int p inputs = Some (r, rest)
    <-> exists (pre : list string) (s : string),
          inputs = pre ++ s :: rest
          /\ Forall (fun x => Game.bet_entry int p x = Game.Rejected) pre
          /\ match r with
             | Some p' => Game.bet_entry int p s = Game.Accepted p'
             | None => Game.bet_entry int p s = Game.QuitBets
             end.
Proof.
  induction inputs as [|x inputs IH]; intros p r rest; simpl.
  - split; [discriminate|].
    intros (pre & s & Hin & _). destruct pre; discriminate.
  - destruct (Game.bet_entry int p x) as [p1| |] eqn:E.
    + split.
      * intros [= <- <-]. exists [], x. now repeat split.
      * intros ([|y pre] & s & Hin & Hpre & Hr).
        -- injection Hin as <- <-. destruct r; congruence.
        -- injection Hin as <- _. apply Forall_cons in Hpre as [? _].
           congruence.
    + rewrite IH. split.
      * intros (pre & s & -> & Hpre & Hr). exists (x :: pre), s.
        split; [reflexivity|]. split; [now constructor|exact Hr].
      * intros ([|y pre] & s & Hin & Hpre & Hr).
        -- injection Hin as <- <-. destruct r; congruence.
        -- injection Hin as <- ->. apply Forall_cons in Hpre as [_ ?].
           now exists pre, s.
    + split.
      * intros [= <- <-]. exists [], x. now repeat split.
      * intros ([|y pre] & s & Hin & Hpre & Hr).
        -- injection Hin as <- <-. destruct r; congruence.
        -- injection Hin as <- _. apply Forall_cons in Hpre as [? _].
           congruence.
Qed.

Lemma bet_loop_None (inputs : list string) (p : Player.t) :
  Game.bet_loop int p inputs = None
  <-> Forall (fun x => Game.bet_entry int p x = Game.Rejected) inputs.
Proof.
  induction inputs as [|x inputs IH]; simpl.
  - split; [constructor|reflexivity].
  - destruct (Game.bet_entry int p x) as [p1| |] eqn:E.
    + split; [discriminate|]. intros [? _]%Forall_cons. congruence.
    + rewrite IH. split; [now constructor|now intros [_ ?]%Forall_cons].
    + split; [discriminate|]. intros [? _]%Forall_cons. congruence.
Qed.

Lemma bet_entry_placed (p p' : Player.t) (s : string) :
  Game.bet_entry int p s = Game.Accepted p' -> bet_placed p p'.
Proof.
  intros Hacc.
  destruct (bet_entry_cases int p s)
    as [[_ E]|[(_ & _ & E)|[(b & _ & _ & _ & E)|H]]]; try congruence.
  destruct H as (b & _ & _ & H0 & Hle & E).
  exists b. repeat split; auto. congruence.
Qed.

Lemma take_bets_players_spec (ps : list Player.t) :
  forall (inputs rest : list string) (ps' : list Player.t) (ok : bool),
    Game.take_bets_players int ps inputs = Some (ok, ps', rest) ->
    exists (served served' waiting : list Player.t) (used : list string),
      ps = served ++ waiting
      /\ ps' = served' ++ waiting
      /\ Forall2 bet_placed served served'
      /\ (ok = true <-> waiting = [])
      /\ inputs = used ++ rest
      /\ (length served <= length used)%nat.
Proof.
  induction ps as [|p ps IH]; intros inputs rest ps' ok H; simpl in H.
  - injection H as <- <- <-. exists [], [], [], [].
    repeat split; auto.
  - destruct (Game.bet_loop int p inputs) as [[r r1]|] eqn:Hloop;
      simpl in H; [|discriminate].
    apply bet_loop_Some in Hloop as (pre & s & -> & _ & Hr).
    destruct r as [p1|].
    + destruct (Game.take_bets_players int ps r1) as [[[ok2 ps2] r2]|]
        eqn:Hrec; simpl in H; [|discriminate].
      injection H as <- <- <-.
      destruct (IH _ _ _ _ Hrec)
        as (served & served' & waiting & used & -> & -> & HF & Hok & ->
            & Hlen).
      exists (p :: served), (p1 :: served'), waiting,
        (pre ++ s :: used).
      split; [reflexivity|]. split; [reflexivity|].
      split; [constructor; [eapply bet_entry_placed; eauto|exact HF]|].
      split; [exact Hok|]. split.
      * now rewrite <- app_assoc.
      * rewrite length_app. simpl. lia.
    + injection H as <- <- <-.
      exists [], [], (p :: ps), (pre ++ [s]).
      split; [reflexivity|]. split; [reflexivity|].
      split; [constructor|]. split; [split; discriminate|].
      split; [now rewrite <- app_assoc|simpl; lia].
Qed.

End BetLoop.

(** X8. The bet prompt of one player skips every rejected answer and
    settles on the first answer that is accepted or is ["q"]; the answers
    after that one are left for later prompts.  It never settles when every
    answer is rejected. *)
Theorem bet_prompt_repeats_until_settled (int : string -> option Z)
    (p : Player.t) (inputs : list string) :
  (forall (r : option Player.t) (rest : list string),
      Game.bet_loop int p inputs = Some (r, rest)
      <-> exists (pre : list string) (s : string),
            inputs = pre ++ s :: rest
            /\ Forall (fun x => Game.bet_entry int p x = Game.Rejected) pre
            /\ match r with
               | Some p' => Game.bet_entry int p s = Game.Accepted p'
               | None => Game.bet_entry int p s = Game.QuitBets
               end)
  /\ (Game.bet_loop int p inputs = None
      <-> Forall (fun x => Game.bet_entry int p x = Game.Rejected) inputs).
Proof.
  split.
  - intros r rest. apply bet_loop_Some.
  - apply bet_loop_None.
Qed.

(** X9. [take_bets] serves the players in order.  When it returns, the
    players up to some point each have one more hand, empty, with a bet
    between 0 and their money, and that much less money; the players from
    that point on are as they were.  It returns [True] exactly when
    nobody is left unserved; every player served used up at least one
    answer; the shoe and the dealer are not touched. *)
Theorem take_bets_serves_players_in_order (int : string -> option Z)
    (g g' : Game.t) (inputs rest : list string) (ok : bool) :
  Game.take_bets int g inputs = Some (ok, g', rest) ->
  Game.shoe g' = Game.shoe g /\ Game.dealer g' = Game.dealer g
  /\ exists (served served' waiting : list Player.t) (used : list string),
       Game.players g = served ++ waiting
       /\ Game.players g' = served' ++ waiting
       /\ Forall2 bet_placed served served'
       /\ (ok = true <-> waiting = [])
       /\ inputs = used ++ rest
       /\ (length served <= length used)%nat.
Proof.
  unfold Game.take_bets. intros H.
  destruct (Game.take_bets_players int (Game.players g) inputs)
    as [[[ok1 ps1] r1]|] eqn:Hps; simpl in H; [|discriminate].
  injection H as <- <- <-. simpl.
  split; [reflexivity|]. split; [reflexivity|].
  eapply take_bets_players_spec; eauto.
Qed.

Lemma take_bets_serves_players_in_order_witness :
  let g := Game.mk (Shoe.mk []) [Player.new 1; Player.new 2] Dealer.new in
  exists g' : Game.t,
    Game.take_bets int_ascii g ["x"; "100"; "q"; "7"]%string
    = Some (false, g', ["7"%string])
    /\ Game.shoe g' = Game.shoe g /\ Game.dealer g' = Game.dealer g.
Proof.
  eexists. split; [vm_compute; reflexivity|].
  destruct (take_bets_serves_players_in_order int_ascii
              (Game.mk (Shoe.mk []) [Player.new 1; Player.new 2] Dealer.new)
              _ ["x"; "100"; "q"; "7"]%string ["7"%string] false eq_refl)
    as (H1 & H2 & _).
  split; [exact H1|exact H2].
Defined.

(** ** A player's turn *)

Lemma stakes_app (hs hs' : list Hand.t) :
  stakes (hs ++ hs') = stakes hs + stakes hs'.
Proof.
  unfold stakes. induction hs as [|h hs IH]; simpl; [reflexivity|].
  rewrite IH. lia.
Qed.

Lemma stakes_one (h : Hand.t) : stakes [h] = Hand.bet h.
Proof. unfold stakes. simpl. lia. Qed.

Lemma stakes_insert (hs : list Hand.t) :
  forall (i : nat) (h h' : Hand.t),
    hs !! i = Some h ->
    stakes (<[i := h']> hs) = stakes hs - Hand.bet h + Hand.bet h'.
Proof.
  induction hs as [|a hs IH]; intros [|i] h h' Hi; try discriminate.
  - injection Hi as ->. unfold stakes. simpl. lia.
  - simpl in Hi. change (<[S i := h']> (a :: hs)) with (a :: <[i := h']> hs).
    unfold stakes in *. simpl. rewrite (IH i h h' Hi). lia.
Qed.

Lemma turn_keeps_refl (p : Player.t) : turn_keeps p p.
Proof. unfold turn_keeps. repeat split; auto; try reflexivity; lia. Qed.

Lemma turn_keeps_trans (p1 p2 p3 : Player.t) :
  turn_keeps p1 p2 -> turn_keeps p2 p3 -> turn_keeps p1 p3.
Proof.
  intros (Hw1 & Hn1 & Hb1 & Hl1 & Hc1) (Hw2 & Hn2 & Hb2 & Hl2 & Hc2).
  unfold turn_keeps. split; [now rewrite Hw2|].
  split; [congruence|]. split; [congruence|]. split; lia.
Qed.

Lemma only_player_refl (pi : nat) (g : Game.t) (p : Player.t) :
  Game.players g !! pi = Some p -> only_player pi g g.
Proof.
  intros Hp. split; [reflexivity|]. exists p, p.
  split; [exact Hp|]. split; [|apply turn_keeps_refl].
  symmetry. now apply list_insert_id.
Qed.

Lemma only_player_trans (pi : nat) (g1 g2 g3 : Game.t) :
  only_player pi g1 g2 -> only_player pi g2 g3 -> only_player pi g1 g3.
Proof.
  intros (Hd1 & p1 & p2 & Hp1 & Hps1 & Hk1)
         (Hd2 & q2 & p3 & Hq2 & Hps2 & Hk2).
  assert (Hlt : (pi < length (Game.players g1))%nat)
    by (apply lookup_lt_is_Some; eauto).
  assert (q2 = p2).
  { rewrite Hps1, list_lookup_insert_eq in Hq2 by exact Hlt. congruence. }
  subst q2. split; [congruence|]. exists p1, p3.
  split; [exact Hp1|]. split.
  - rewrite Hps2, Hps1. apply list_insert_insert_eq.
  - eapply turn_keeps_trans; eauto.
Qed.

Lemma hit_player_spec (g g' : Game.t) (pi i : nat) :
  Game.hit_player g pi i = Some g' ->
  exists (p : Player.t) (h : Hand.t) (c : Card.t),
    Game.players g !! pi = Some p
    /\ Player.hands p !! i = Some h
    /\ Shoe.cards (Game.shoe g) = Shoe.cards (Game.shoe g') ++ [c]
    /\ Game.players g'
       = <[pi := Player.with_hand p i (Hand.add h c)]> (Game.players g)
    /\ Game.dealer g' = Game.dealer g.
Proof.
  unfold Game.hit_player, Game.hit, Shoe.get_card. intros H.
  destruct (Game.players g !! pi) as [p|]; [|discriminate]. simpl in H.
  destruct (Player.hands p !! i) as [h|] eqn:Hi; [|discriminate].
  simpl in H.
  destruct (pop (Shoe.cards (Game.shoe g))) as [[c r]|] eqn:Hpop;
    [|discriminate].
  simpl in H. injection H as <-. apply pop_Some in Hpop.
  exists p, h, c. simpl. now repeat split.
Qed.

Lemma with_hand_keeps (p : Player.t) (i : nat) (h h' : Hand.t) :
  Player.hands p !! i = Some h -> Hand.bet h' = Hand.bet h ->
  turn_keeps p (Player.with_hand p i h').
Proof.
  intros Hi Hbet. unfold turn_keeps, wealth. simpl.
  rewrite (stakes_insert _ i h h' Hi), Hbet, length_insert.
  replace (stakes (Player.hands p) - Hand.bet h + Hand.bet h)
    with (stakes (Player.hands p)) by lia.
  repeat split; auto; try reflexivity; lia.
Qed.

Lemma hit_player_only (g g' : Game.t) (pi i : nat) :
  Game.hit_player g pi i = Some g' -> only_player pi g g'.
Proof.
  intros (p & h & c & Hp & Hi & _ & Hps & Hd)%hit_player_spec.
  split; [exact Hd|]. exists p, (Player.with_hand p i (Hand.add h c)).
  split; [exact Hp|]. split; [exact Hps|].
  now apply (with_hand_keeps p i h).
Qed.

Lemma with_player_only (g : Game.t) (pi : nat) (p p' : Player.t) :
  Game.players g !! pi = Some p -> turn_keeps p p' ->
  only_player pi g (Game.with_player g pi p').
Proof.
  intros Hp Hk. split; [reflexivity|]. exists p, p'.
  split; [exact Hp|]. split; [reflexivity|exact Hk].
Qed.

Lemma split_keeps (p p' : Player.t) (i n : nat) (h : Hand.t) :
  Player.hands p !! i = Some h ->
  (length (Player.hands p) < 4)%nat ->
  Player.split p i = Some (p', n) -> turn_keeps p p'.
Proof.
  intros Hi Hlen Hs. unfold Player.split in Hs. rewrite Hi in Hs.
  destruct (pop (Hand.cards h)) as [[c r]|]; [|discriminate].
  injection Hs as <- <-. unfold turn_keeps, wealth. simpl.
  rewrite stakes_app, (stakes_insert _ i h _ Hi), stakes_one, length_app,
    length_insert.
  simpl.
  split.
  { replace (stakes (Player.hands p) - Hand.bet h + Hand.bet h
             + Hand.bet h)
      with (stakes (Player.hands p) + Hand.bet h) by lia.
    rewrite inject_Z_plus. ring. }
  repeat split; auto; lia.
Qed.

Lemma double_keeps (p p' : Player.t) (i : nat) :
  Player.double p i = Some p' -> turn_keeps p p'.
Proof.
  unfold Player.double.
  destruct (Player.hands p !! i) as [h|] eqn:Hi; [|discriminate].
  intros [= <-]. unfold turn_keeps, wealth. simpl.
  rewrite (stakes_insert _ i h _ Hi), length_insert. simpl.
  split.
  { replace (stakes (Player.hands p) - Hand.bet h + Hand.bet h * 2)
      with (stakes (Player.hands p) + Hand.bet h) by lia.
    rewrite inject_Z_plus. ring. }
  repeat split; auto; lia.
Qed.

Lemma action_only (g g' : Game.t) (pi i : nat)
    (inputs rest : list string) (fl : Game.flow) :
  Game.action g pi i inputs = Some (fl, g', rest) -> only_player pi g g'.
Proof.
  unfold Game.action. intros H.
  destruct (Game.players g !! pi) as [p|] eqn:Hp; [|discriminate].
  simpl in H.
  destruct (Player.hands p !! i) as [h|] eqn:Hi; [|discriminate].
  simpl in H.
  pose proof (only_player_refl pi g p Hp) as Hrefl.
  destruct inputs as [|user_input inputs]; [discriminate|].
  destruct (String.eqb user_input "q").
  { destruct inputs as [|quit inputs]; [discriminate|].
    destruct (String.eqb quit "y"); now injection H as <- <- <-. }
  destruct (String.eqb user_input "h").
  { destruct (Game.hit_player g pi i) as [g1|] eqn:Hhit; [|discriminate].
    simpl in H.
    destruct (Game.players g1 !! pi) as [p1|]; [|discriminate].
    simpl in H.
    destruct (Player.hands p1 !! i) as [h1|]; [|discriminate].
    simpl in H. injection H as <- <- <-.
    now apply hit_player_only in Hhit. }
  destruct (String.eqb user_input "s").
  { now injection H as <- <- <-. }
  destruct (String.eqb user_input "sp").
  { destruct (Hand.can_split h); [|now injection H as <- <- <-].
    destruct (Nat.ltb_spec (length (Player.hands p)) 4) as [Hlen|];
      [|now injection H as <- <- <-].
    destruct (Qle_bool _ _); [|now injection H as <- <- <-].
    destruct (Player.split p i) as [[p1 n]|] eqn:Hs; [|discriminate].
    simpl in H.
    destruct (Game.hit_player (Game.with_player g pi p1) pi i) as [g1|]
      eqn:H1; [|discriminate].
    simpl in H.
    destruct (Game.hit_player g1 pi n) as [g2|] eqn:H2; [|discriminate].
    simpl in H. injection H as <- <- <-.
    eapply only_player_trans; [|eapply hit_player_only; exact H2].
    eapply only_player_trans; [|eapply hit_player_only; exact H1].
    apply (with_player_only g pi p p1 Hp).
    eapply split_keeps; eauto. }
  destruct (String.eqb user_input "d").
  { destruct (Qle_bool _ _); [|now injection H as <- <- <-].
    destruct (Player.double p i) as [p1|] eqn:Hd; [|discriminate].
    simpl in H.
    destruct (Game.hit_player (Game.with_player g pi p1) pi i) as [g1|]
      eqn:H1; [|discriminate].
    simpl in H. injection H as <- <- <-.
    eapply only_player_trans; [|eapply hit_player_only; exact H1].
    apply (with_player_only g pi p p1 Hp).
    eapply double_keeps; eauto. }
  now injection H as <- <- <-.
Qed.

Lemma action_reads (g g' : Game.t) (pi i : nat)
    (inputs rest : list string) (fl : Game.flow) :
  Game.action g pi i inputs = Some (fl, g', rest) ->
  exists used : list string, inputs = used ++ rest.
Proof.
  unfold Game.action. intros H.
  destruct (Game.players g !! pi) as [p|]; [|discriminate]. simpl in H.
  destruct (Player.hands p !! i) as [h|]; [|discriminate]. simpl in H.
  destruct inputs as [|a inputs]; [discriminate|].
  destruct (String.eqb a "q").
  { destruct inputs as [|b inputs]; [discriminate|].
    exists [a; b]. destruct (String.eqb b "y"); now injection H as _ _ <-. }
  exists [a].
  repeat match type of H with
         | (if ?c then _ else _) = _ => destruct c
         | (?m ≫= _) = Some _ => destruct m as [?|]; simpl in H
         | (let (_, _) := ?x in _) = _ => destruct x
         | None = Some _ => discriminate H
         end;
    try discriminate; injection H as _ _ <-; reflexivity.
Qed.

Lemma turn_from_only (fuel : nat) :
  forall (g g' : Game.t) (pi i : nat) (inputs rest : list string)
         (ok : bool),
    Game.turn_from fuel g pi i inputs = Some (ok, g', rest) ->
    only_player pi g g' /\ exists used : list string, inputs = used ++ rest.
Proof.
  induction fuel as [|fuel IH]; intros g g' pi i inputs rest ok H;
    simpl in H; [discriminate|].
  destruct (Game.players g !! pi) as [p|] eqn:Hp; [|discriminate].
  simpl in H.
  pose proof (only_player_refl pi g p Hp) as Hrefl.
  destruct (Player.hands p !! i) as [h|].
  - destruct (Hand.split_ace h); [eapply IH; eauto|].
    destruct (Game.action g pi i inputs) as [[[fl g1] r1]|] eqn:Ha;
      simpl in H; [|discriminate].
    pose proof (action_only _ _ _ _ _ _ _ Ha) as Hone.
    apply action_reads in Ha as (used1 & ->).
    destruct fl.
    + apply IH in H as (Hrec & used2 & ->). split.
      * eapply only_player_trans; eauto.
      * exists (used1 ++ used2). now rewrite app_assoc.
    + apply IH in H as (Hrec & used2 & ->). split.
      * eapply only_player_trans; eauto.
      * exists (used1 ++ used2). now rewrite app_assoc.
    + injection H as <- <- <-. split; [exact Hone|now exists used1].
  - injection H as <- <- <-. split; [exact Hrefl|now exists []].
Qed.

Lemma only_player_Forall2 (pi : nat) (g g' : Game.t) :
  only_player pi g g' ->
  Forall2 turn_keeps (Game.players g) (Game.players g').
Proof.
  intros (_ & p & p' & Hp & -> & Hk).
  revert pi Hp. induction (Game.players g) as [|a ps IH]; intros pi Hp;
    [discriminate|].
  destruct pi as [|pi]; simpl in *.
  - injection Hp as ->. constructor; [exact Hk|].
    clear. induction ps; constructor; auto using turn_keeps_refl.
  - constructor; [apply turn_keeps_refl|]. now apply IH.
Qed.

Lemma Forall2_turn_keeps_refl (ps : list Player.t) :
  Forall2 turn_keeps ps ps.
Proof. induction ps; constructor; auto using turn_keeps_refl. Qed.

Lemma Forall2_turn_keeps_trans (ps1 ps2 ps3 : list Player.t) :
  Forall2 turn_keeps ps1 ps2 -> Forall2 turn_keeps ps2 ps3 ->
  Forall2 turn_keeps ps1 ps3.
Proof.
  intros H12. revert ps3. induction H12 as [|p1 p2 l1 l2 Hk H12 IH];
    intros ps3 H23; inversion H23; subst; constructor.
  - eapply turn_keeps_trans; eauto.
  - now apply IH.
Qed.

Lemma only_player_dealer (pi : nat) (g g' : Game.t) :
  only_player pi g g' -> Game.dealer g' = Game.dealer g.
Proof. now intros [Hd _]. Qed.

Lemma player_turns_from_keeps (fuel : nat) (idx : list nat) :
  forall (g g' : Game.t) (inputs rest : list string) (ok : bool),
    Game.player_turns_from fuel idx g inputs = Some (ok, g', rest) ->
    Game.dealer g' = Game.dealer g
    /\ Forall2 turn_keeps (Game.players g) (Game.players g')
    /\ exists used : list string, inputs = used ++ rest.
Proof.
  induction idx as [|pi idx IH]; intros g g' inputs rest ok H; simpl in H.
  - injection H as <- <- <-. split; [reflexivity|].
    split; [apply Forall2_turn_keeps_refl|now exists []].
  - destruct (Game.players g !! pi) as [p|]; [|discriminate]. simpl in H.
    destruct (Player.is_active p); [|now apply IH in H].
    destruct (Game.do_player_turn fuel g pi inputs) as [[[ok1 g1] r1]|]
      eqn:Ht; simpl in H; [|discriminate].
    apply turn_from_only in Ht as (Hone & used1 & ->).
    pose proof (only_player_dealer _ _ _ Hone) as Hd1.
    apply only_player_Forall2 in Hone.
    destruct ok1.
    + apply IH in H as (Hd & HF & used2 & ->).
      split; [congruence|]. split.
      * eapply Forall2_turn_keeps_trans; eauto.
      * exists (used1 ++ used2). now rewrite app_assoc.
    + injection H as <- <- <-. split; [exact Hd1|].
      split; [exact Hone|now exists used1].
Qed.

(** X10. The player turns leave the dealer alone and read the answers
    from the front.  Every player keeps name and blackjack flag, and the
    money taken by doubling and splitting lies on the player's hands as
    bets: money plus bets is the same before and after.  Hands are only
    added. *)
Theorem player_turns_move_money_onto_hands (fuel : nat) (g g' : Game.t)
    (inputs rest : list string) (ok : bool) :
  Game.do_player_turns fuel g inputs = Some (ok, g', rest) ->
  Game.dealer g' = Game.dealer g
  /\ (exists used : list string, inputs = used ++ rest)
  /\ length (Game.players g') = length (Game.players g)
  /\ forall (pi : nat) (p : Player.t),
       Game.players g !! pi = Some p ->
       exists p' : Player.t,
         Game.players g' !! pi = Some p'
         /\ (Player.money p' + inject_Z (stakes (Player.hands p'))
             == Player.money p + inject_Z (stakes (Player.hands p)))%Q
         /\ Player.name p' = Player.name p
         /\ Player.blackjack p' = Player.blackjack p
         /\ (length (Player.hands p) <= length (Player.hands p'))%nat.
Proof.
  intros H. apply player_turns_from_keeps in H as (Hd & HF & Hused).
  split; [exact Hd|]. split; [exact Hused|].
  split; [symmetry; eapply Forall2_length; eauto|].
  intros pi p Hp.
  destruct (Forall2_lookup_l _ _ _ _ _ HF Hp) as (p' & Hp' & Hk).
  exists p'. split; [exact Hp'|].
  destruct Hk as (Hw & Hn & Hb & Hl & _). now repeat split.
Qed.

Lemma player_turns_move_money_onto_hands_witness :
  let g := Game.mk (Shoe.mk [Card.new 2; Card.new 5; Card.new 3])
                   [eights] Dealer.new in
  exists g' : Game.t,
    Game.do_player_turns 5 g ["sp"; "h"]%string
    = Some (true, g', ["h"%string])
    /\ Game.dealer g' = Game.dealer g.
Proof.
  eexists. split; [vm_compute; reflexivity|].
  exact (proj1 (player_turns_move_money_onto_hands 5
                  (Game.mk (Shoe.mk [Card.new 2; Card.new 5; Card.new 3])
                           [eights] Dealer.new)
                  _ ["sp"; "h"]%string ["h"%string] true eq_refl)).
Defined.

(** X11. The turn of player [pi] changes no other player, and player
    [pi] ends it with at most four hands, or with as many as before if
    those were more than four. *)
Theorem player_turn_stops_at_four_hands (fuel : nat) (g g' : Game.t)
    (pi : nat) (inputs rest : list string) (ok : bool) :
  Game.do_player_turn fuel g pi inputs = Some (ok, g', rest) ->
  (forall pj : nat, pj <> pi ->
     Game.players g' !! pj = Game.players g !! pj)
  /\ exists p p' : Player.t,
       Game.players g !! pi = Some p
       /\ Game.players g' !! pi = Some p'
       /\ (length (Player.hands p') <= Nat.max 4 (length (Player.hands p)))%nat
       /\ ((length (Player.hands p) <= 4)%nat ->
           (length (Player.hands p') <= 4)%nat).
Proof.
  intros H. apply turn_from_only in H as ((_ & p & p' & Hp & Hps & Hk) & _).
  split.
  - intros pj Hne. rewrite Hps. now apply list_lookup_insert_ne.
  - exists p, p'. split; [exact Hp|]. split.
    { rewrite Hps. apply list_lookup_insert_eq.
      apply lookup_lt_is_Some. eauto. }
    destruct Hk as (_ & _ & _ & _ & Hcap). split; [exact Hcap|lia].
Qed.

Lemma player_turn_stops_at_four_hands_witness :
  let g := Game.mk (Shoe.mk [Card.new 2; Card.new 5; Card.new 3])
                   [eights] Dealer.new in
  exists (g' : Game.t) (p p' : Player.t),
    Game.do_player_turn 5 g 0 ["sp"; "h"]%string
    = Some (true, g', ["h"%string])
    /\ Game.players g !! 0%nat = Some p
    /\ Game.players g' !! 0%nat = Some p'
    /\ (length (Player.hands p') <= Nat.max 4 (length (Player.hands p)))%nat.
Proof.
  destruct (player_turn_stops_at_four_hands 5
              (Game.mk (Shoe.mk [Card.new 2; Card.new 5; Card.new 3])
                       [eights] Dealer.new)
              _ 0 ["sp"; "h"]%string ["h"%string] true eq_refl)
    as (_ & p & p' & H1 & H2 & H3 & _).
  eexists. exists p, p'. split; [reflexivity|].
  split; [exact H1|]. split; [exact H2|exact H3].
Defined.

(** ** No card is lost or made *)

Lemma concat_insert_grow {A B : Type} (f : A -> list B) (l : list A) :
  forall (i : nat) (x y : A) (e : list B),
    l !! i = Some x -> f y ≡ₚ f x ++ e ->
    concat (map f (<[i := y]> l)) ≡ₚ concat (map f l) ++ e.
Proof.
  induction l as [|a l IH]; intros [|i] x y e Hi Hy; try discriminate.
  - injection Hi as ->. simpl. rewrite Hy.
    rewrite <- !app_assoc. apply Permutation_app_head, Permutation_app_comm.
  - simpl in Hi. change (<[S i := y]> (a :: l)) with (a :: <[i := y]> l).
    simpl. rewrite (IH i x y e Hi Hy). now rewrite app_assoc.
Qed.

Lemma concat_insert_shrink {A B : Type} (f : A -> list B) (l : list A) :
  forall (i : nat) (x y : A) (e : list B),
    l !! i = Some x -> f x ≡ₚ f y ++ e ->
    concat (map f l) ≡ₚ concat (map f (<[i := y]> l)) ++ e.
Proof.
  induction l as [|a l IH]; intros [|i] x y e Hi Hx; try discriminate.
  - injection Hi as ->. simpl. rewrite Hx.
    rewrite <- !app_assoc. apply Permutation_app_head, Permutation_app_comm.
  - simpl in Hi. change (<[S i := y]> (a :: l)) with (a :: <[i := y]> l).
    simpl. rewrite (IH i x y e Hi Hx). now rewrite app_assoc.
Qed.

Lemma all_cards_eq (g : Game.t) :
  all_cards g
  = Shoe.cards (Game.shoe g)
    ++ hand_cards (Dealer.hands (Game.dealer g))
    ++ players_cards (Game.players g).
Proof. reflexivity. Qed.

Lemma hit_player_cards (g g' : Game.t) (pi i : nat) :
  Game.hit_player g pi i = Some g' -> all_cards g' ≡ₚ all_cards g.
Proof.
  intros (p & h & c & Hp & Hi & Hshoe & Hps & Hd)%hit_player_spec.
  rewrite !all_cards_eq, Hshoe, Hd, Hps.
  assert (Hhand : hand_cards (Player.hands
                    (Player.with_hand p i (Hand.add h c)))
                  ≡ₚ hand_cards (Player.hands p) ++ [c]).
  { unfold hand_cards. simpl.
    apply (concat_insert_grow Hand.cards _ i h); [exact Hi|reflexivity]. }
  unfold players_cards.
  rewrite (concat_insert_grow (fun p => hand_cards (Player.hands p))
             _ pi p _ [c] Hp Hhand).
  solve_Permutation.
Qed.

Lemma hit_dealer_cards (g g' : Game.t) :
  Game.hit_dealer g = Some g' -> all_cards g' ≡ₚ all_cards g.
Proof.
  intros (dh & c & Hdh & Hshoe & Hhands & _ & Hps)%hit_dealer_spec.
  rewrite !all_cards_eq, Hshoe, Hps, Hhands. unfold hand_cards.
  rewrite (concat_insert_grow Hand.cards _ 0%nat dh (Hand.add dh c) [c] Hdh)
    by reflexivity.
  solve_Permutation.
Qed.

Lemma with_player_cards (g : Game.t) (pi : nat) (p p' : Player.t) :
  Game.players g !! pi = Some p ->
  hand_cards (Player.hands p') ≡ₚ hand_cards (Player.hands p) ->
  all_cards (Game.with_player g pi p') ≡ₚ all_cards g.
Proof.
  intros Hp Hsame. rewrite !all_cards_eq. simpl.
  do 2 apply Permutation_app_head. unfold players_cards.
  rewrite (concat_insert_grow (fun p => hand_cards (Player.hands p))
             _ pi p p' [] Hp) by now rewrite app_nil_r.
  now rewrite app_nil_r.
Qed.

Lemma split_cards (p p' : Player.t) (i n : nat) :
  Player.split p i = Some (p', n) ->
  hand_cards (Player.hands p') ≡ₚ hand_cards (Player.hands p).
Proof.
  unfold Player.split.
  destruct (Player.hands p !! i) as [h|] eqn:Hi; [|discriminate].
  destruct (pop (Hand.cards h)) as [[c r]|] eqn:Hpop; [|discriminate].
  intros [= <- <-]. apply pop_Some in Hpop. simpl.
  unfold hand_cards. rewrite map_app, concat_app. simpl. symmetry.
  apply (concat_insert_shrink Hand.cards _ i h); [exact Hi|].
  simpl. now rewrite Hpop.
Qed.

Lemma double_cards (p p' : Player.t) (i : nat) :
  Player.double p i = Some p' ->
  hand_cards (Player.hands p') ≡ₚ hand_cards (Player.hands p).
Proof.
  unfold Player.double.
  destruct (Player.hands p !! i) as [h|] eqn:Hi; [|discriminate].
  intros [= <-]. simpl. unfold hand_cards.
  rewrite (concat_insert_grow Hand.cards _ i h _ [] Hi)
    by (simpl; now rewrite app_nil_r).
  now rewrite app_nil_r.
Qed.

Lemma action_cards (g g' : Game.t) (pi i : nat)
    (inputs rest : list string) (fl : Game.flow) :
  Game.action g pi i inputs = Some (fl, g', rest) ->
  all_cards g' ≡ₚ all_cards g.
Proof.
  unfold Game.action. intros H.
  destruct (Game.players g !! pi) as [p|] eqn:Hp; [|discriminate].
  simpl in H.
  destruct (Player.hands p !! i) as [h|] eqn:Hi; [|discriminate].
  simpl in H.
  destruct inputs as [|user_input inputs]; [discriminate|].
  destruct (String.eqb user_input "q").
  { destruct inputs as [|quit inputs]; [discriminate|].
    destruct (String.eqb quit "y"); now injection H as <- <- <-. }
  destruct (String.eqb user_input "h").
  { destruct (Game.hit_player g pi i) as [g1|] eqn:Hhit; [|discriminate].
    simpl in H.
    destruct (Game.players g1 !! pi) as [p1|]; [|discriminate].
    simpl in H.
    destruct (Player.hands p1 !! i) as [h1|]; [|discriminate].
    simpl in H. injection H as <- <- <-.
    now apply hit_player_cards in Hhit. }
  destruct (String.eqb user_input "s").
  { now injection H as <- <- <-. }
  destruct (String.eqb user_input "sp").
  { destruct (Hand.can_split h); [|now injection H as <- <- <-].
    destruct (length (Player.hands p) <? 4)%nat;
      [|now injection H as <- <- <-].
    destruct (Qle_bool _ _); [|now injection H as <- <- <-].
    destruct (Player.split p i) as [[p1 n]|] eqn:Hs; [|discriminate].
    simpl in H.
    destruct (Game.hit_player (Game.with_player g pi p1) pi i) as [g1|]
      eqn:H1; [|discriminate].
    simpl in H.
    destruct (Game.hit_player g1 pi n) as [g2|] eqn:H2; [|discriminate].
    simpl in H. injection H as <- <- <-.
    rewrite (hit_player_cards _ _ _ _ H2), (hit_player_cards _ _ _ _ H1).
    apply (with_player_cards g pi p p1 Hp). eapply split_cards; eauto. }
  destruct (String.eqb user_input "d").
  { destruct (Qle_bool _ _); [|now injection H as <- <- <-].
    destruct (Player.double p i) as [p1|] eqn:Hd; [|discriminate].
    simpl in H.
    destruct (Game.hit_player (Game.with_player g pi p1) pi i) as [g1|]
      eqn:H1; [|discriminate].
    simpl in H. injection H as <- <- <-.
    rewrite (hit_player_cards _ _ _ _ H1).
    apply (with_player_cards g pi p p1 Hp). eapply double_cards; eauto. }
  now injection H as <- <- <-.
Qed.

Lemma turn_from_cards (fuel : nat) :
  forall (g g' : Game.t) (pi i : nat) (inputs rest : list string)
         (ok : bool),
    Game.turn_from fuel g pi i inputs = Some (ok, g', rest) ->
    all_cards g' ≡ₚ all_cards g.
Proof.
  induction fuel as [|fuel IH]; intros g g' pi i inputs rest ok H;
    simpl in H; [discriminate|].
  destruct (Game.players g !! pi) as [p|]; [|discriminate]. simpl in H.
  destruct (Player.hands p !! i) as [h|].
  - destruct (Hand.split_ace h); [eapply IH; eauto|].
    destruct (Game.action g pi i inputs) as [[[fl g1] r1]|] eqn:Ha;
      simpl in H; [|discriminate].
    apply action_cards in Ha.
    destruct fl.
    + rewrite <- Ha. eapply IH; eauto.
    + rewrite <- Ha. eapply IH; eauto.
    + now injection H as <- <- <-.
  - now injection H as <- <- <-.
Qed.

Lemma player_turns_from_cards (fuel : nat) (idx : list nat) :
  forall (g g' : Game.t) (inputs rest : list string) (ok : bool),
    Game.player_turns_from fuel idx g inputs = Some (ok, g', rest) ->
    all_cards g' ≡ₚ all_cards g.
Proof.
  induction idx as [|pi idx IH]; intros g g' inputs rest ok H; simpl in H.
  - now injection H as <- <- <-.
  - destruct (Game.players g !! pi) as [p|]; [|discriminate]. simpl in H.
    destruct (Player.is_active p); [|eapply IH; eauto].
    destruct (Game.do_player_turn fuel g pi inputs) as [[[ok1 g1] r1]|]
      eqn:Ht; simpl in H; [|discriminate].
    apply turn_from_cards in Ht.
    destruct ok1; [rewrite <- Ht; eapply IH; eauto|].
    now injection H as <- <- <-.
Qed.

Lemma dealer_loop_cards (fuel : nat) :
  forall g g' : Game.t,
    Game.dealer_loop fuel g = Some g' -> all_cards g' ≡ₚ all_cards g.
Proof.
  induction fuel as [|fuel IH]; intros g g' H; simpl in H; [discriminate|].
  destruct (Dealer.can_hit (Game.dealer g)) as [[|]|]; simpl in H;
    [| |discriminate].
  - destruct (Game.hit_dealer g) as [g1|] eqn:Hh; simpl in H;
      [|discriminate].
    rewrite <- (hit_dealer_cards _ _ Hh). now apply IH.
  - now injection H as <-.
Qed.

Lemma players_cards_same_hands (ps ps' : list Player.t) :
  Forall2 (fun p p' => hand_cards (Player.hands p')
                       = hand_cards (Player.hands p)) ps ps' ->
  players_cards ps' = players_cards ps.
Proof.
  unfold players_cards. induction 1 as [|p p' ps ps' Hp _ IH];
    [reflexivity|].
  simpl. now rewrite Hp, IH.
Qed.

Lemma players_cards_map (f : Player.t -> Player.t) (ps : list Player.t) :
  (forall p : Player.t, Player.hands (f p) = Player.hands p) ->
  players_cards (map f ps) = players_cards ps.
Proof.
  intros Hf. apply players_cards_same_hands.
  induction ps; constructor; auto. now rewrite Hf.
Qed.

Lemma check_blackjack_player_hands (dbj : bool) (p : Player.t) :
  Player.hands (Game.check_blackjack_player dbj p).1 = Player.hands p.
Proof.
  unfold Game.check_blackjack_player.
  destruct (negb (Player.is_active p)); [reflexivity|].
  destruct (Player.hands p) as [|h hs] eqn:E; [exact E|].
  destruct (Hand.value h =? 21); [|exact E].
  destruct dbj; exact E.
Qed.

Lemma check_blackjack_cards (g g' : Game.t) (ok : bool) :
  Game.check_blackjack g = Some (ok, g') -> all_cards g' = all_cards g.
Proof.
  unfold Game.check_blackjack. intros H.
  destruct (Dealer.hands (Game.dealer g) !! 0%nat) as [dh|]; [|discriminate].
  simpl in H.
  assert (Hps : players_cards
                  (map fst (map (Game.check_blackjack_player
                                   (Hand.value dh =? 21)) (Game.players g)))
                = players_cards (Game.players g)).
  { rewrite map_map. apply players_cards_map.
    intros p. apply check_blackjack_player_hands. }
  repeat match type of H with
         | (if ?c then _ else _) = _ => destruct c
         end; injection H as <- <-; rewrite !all_cards_eq; simpl;
    now rewrite Hps.
Qed.

Lemma deal_players_cards (idx : list nat) :
  forall g g' : Game.t,
    Game.deal_players idx g = Some g' -> all_cards g' ≡ₚ all_cards g.
Proof.
  induction idx as [|pi idx IH]; intros g g' H; simpl in H.
  - now injection H as <-.
  - destruct (Game.deal_player g pi) as [g1|] eqn:Hd; [|discriminate].
    simpl in H. rewrite (IH _ _ H).
    unfold Game.deal_player in Hd.
    destruct (Game.hit_player g pi 0) as [g0|] eqn:H0; [|discriminate].
    simpl in Hd.
    now rewrite (hit_player_cards _ _ _ _ Hd), (hit_player_cards _ _ _ _ H0).
Qed.

Lemma deal_cards (g g' : Game.t) (ok : bool) :
  Game.deal g = Some (ok, g') -> all_cards g' ≡ₚ all_cards g.
Proof.
  unfold Game.deal. intros H.
  destruct (Game.hit_dealer g) as [g1|] eqn:H1; [|discriminate].
  simpl in H.
  destruct (Game.hit_dealer g1) as [g2|] eqn:H2; [|discriminate].
  simpl in H.
  destruct (Game.deal_players _ g2) as [g3|] eqn:H3; [|discriminate].
  simpl in H.
  rewrite (check_blackjack_cards _ _ _ H), (deal_players_cards _ _ _ H3).
  now rewrite (hit_dealer_cards _ _ H2), (hit_dealer_cards _ _ H1).
Qed.

Lemma do_results_hands_hands (db : bool) (dt : Z) (hands : list Hand.t) :
  forall (k : nat) (p : Player.t),
    Player.hands (Game.do_results_hands db dt k hands p).1 = Player.hands p.
Proof.
  induction hands as [|h hands IH]; intros k p; [reflexivity|].
  cbn [Game.do_results_hands].
  destruct (Game.do_results_hand db dt p k h) as [p1 out1] eqn:E1.
  specialize (IH (S k) p1).
  destruct (Game.do_results_hands db dt (S k) hands p1) as [p2 out2].
  simpl in *. rewrite IH.
  unfold Game.do_results_hand in E1.
  repeat match type of E1 with
         | (if ?c then _ else _) = _ => destruct c
         end; now injection E1 as <- <-.
Qed.

Lemma do_results_cards (g g' : Game.t) (out : list Game.line) :
  Game.do_results g = Some (g', out) -> all_cards g' = all_cards g.
Proof.
  unfold Game.do_results. intros H.
  destruct (Dealer.bust (Game.dealer g)) as [db|]; [|discriminate].
  simpl in H.
  destruct (Dealer.hands (Game.dealer g) !! 0%nat) as [dh|];
    [|discriminate].
  simpl in H. injection H as <- <-. rewrite !all_cards_eq. simpl.
  rewrite map_map, players_cards_map; [reflexivity|].
  intros p. unfold Game.do_results_player.
  destruct (negb (Player.is_active p)); [reflexivity|].
  apply do_results_hands_hands.
Qed.

Lemma take_bets_cards (int : string -> option Z) (g g' : Game.t)
    (inputs rest : list string) (ok : bool) :
  Game.take_bets int g inputs = Some (ok, g', rest) ->
  all_cards g' = all_cards g.
Proof.
  unfold Game.take_bets. intros H.
  destruct (Game.take_bets_players int (Game.players g) inputs)
    as [[[ok1 ps1] r1]|] eqn:Hps; simpl in H; [|discriminate].
  injection H as <- <- <-.
  apply take_bets_players_spec in Hps
    as (served & served' & waiting & used & Hg & -> & HF & _).
  rewrite !all_cards_eq. simpl. rewrite Hg.
  unfold players_cards. rewrite !map_app, !concat_app.
  do 3 f_equal. apply players_cards_same_hands.
  eapply Forall2_impl; [exact HF|].
  intros p p' (b & _ & _ & ->). simpl. unfold hand_cards.
  rewrite map_app, concat_app. simpl. now rewrite app_nil_r.
Qed.

(** X12. A round neither loses nor makes a card: when a pass of the loop
    of [main] returns, the cards left in the shoe together with the cards
    in the dealer's and the players' hands are, up to order, the cards of
    the shoe that [reset] built, 52 for each player. *)
Theorem round_conserves_cards (int : string -> option Z)
    (rnd : nat -> nat) (fuel : nat) (g g' : Game.t)
    (inputs rest : list string) (ok : bool) (out : list Game.line) :
  Game.play_round int rnd fuel g inputs = Some (ok, g', rest, out) ->
  all_cards g'
  ≡ₚ Shoe.cards (Shoe.new (Z.of_nat (length (Game.players g))))
  /\ length (all_cards g') = (52 * length (Game.players g))%nat.
Proof.
  intros H.
  assert (Hreset : all_cards (Game.reset rnd g)
             ≡ₚ Shoe.cards
                  (Shoe.new (Z.of_nat (length (Game.players g))))).
  { rewrite all_cards_eq.
    replace (hand_cards _ ++ players_cards _) with (@nil Card.t).
    - rewrite app_nil_r. apply shuffle_from_Permutation.
    - unfold Game.reset. simpl. symmetry. unfold players_cards.
      induction (Game.players g) as [|p ps IH]; [reflexivity|exact IH]. }
  assert (Hkept : all_cards g' ≡ₚ all_cards (Game.reset rnd g)).
  { unfold Game.play_round in H.
    destruct (Game.start int _ inputs) as [[[st g1] r1]|] eqn:Hs;
      simpl in H; [|discriminate].
    assert (H1 : all_cards g1 ≡ₚ all_cards (Game.reset rnd g)).
    { unfold Game.start in Hs.
      destruct (Game.take_bets int _ inputs) as [[[okb gb] rb]|] eqn:Hb;
        simpl in Hs; [|discriminate].
      apply take_bets_cards in Hb.
      destruct okb.
      - destruct (Game.deal gb) as [[okd gd]|] eqn:Hd; simpl in Hs;
          [|discriminate].
        injection Hs as <- <- <-. rewrite <- Hb. eapply deal_cards; eauto.
      - injection Hs as <- <- <-. now rewrite Hb. }
    destruct st; [|injection H as <- <- <- <-; exact H1].
    destruct (Game.do_player_turns fuel g1 r1) as [[[ok2 g2] r2]|] eqn:Ht;
      simpl in H; [|discriminate].
    apply player_turns_from_cards in Ht.
    destruct ok2; [|injection H as <- <- <- <-; now rewrite Ht].
    destruct (Game.has_active_players g2);
      [|injection H as <- <- <- <-; now rewrite Ht].
    destruct (Game.do_dealer_turn g2) as [g3|] eqn:Hd; simpl in H;
      [|discriminate].
    apply dealer_loop_cards in Hd.
    destruct (Game.do_results g3) as [[g4 out4]|] eqn:Hr; simpl in H;
      [|discriminate].
    injection H as <- <- <- <-. apply do_results_cards in Hr.
    now rewrite Hr, Hd, Ht. }
  assert (Hall : all_cards g'
            ≡ₚ Shoe.cards (Shoe.new (Z.of_nat (length (Game.players g)))))
    by now rewrite Hkept.
  split; [exact Hall|].
  rewrite Hall. unfold Shoe.new. simpl. rewrite fill_length. lia.
Qed.

Lemma round_conserves_cards_witness :
  exists g' : Game.t,
    Game.play_round int_ascii (fun i => i * 7 + 3)%nat 20 (Game.new 1)
      ["100"; "h"; "s"]%string
    = Some (true, g', [], [("player 1"%string, 1%nat, Game.Win)])
    /\ length (all_cards g') = 52%nat.
Proof.
  assert (Hrun : exists g' : Game.t,
             Game.play_round int_ascii (fun i => i * 7 + 3)%nat 20
               (Game.new 1) ["100"; "h"; "s"]%string
             = Some (true, g', [],
                     [("player 1"%string, 1%nat, Game.Win)]))
    by (eexists; vm_compute; reflexivity).
  destruct Hrun as [g' Hrun]. exists g'. split; [exact Hrun|].
  exact (proj2 (round_conserves_cards int_ascii (fun i => i * 7 + 3)%nat 20
                  (Game.new 1) g' ["100"; "h"; "s"]%string [] true _
                  Hrun)).
Defined.

(** ** Players who are out of the round *)

Lemma is_active_false (p : Player.t) :
  Player.is_active p = false
  <-> Player.blackjack p = true
      \/ Forall (fun h => Hand.is_bust h = true) (Player.hands p).
Proof.
  unfold Player.is_active. destruct (Player.blackjack p).
  - split; [now left|reflexivity].
  - split.
    + intros H. right. apply Forall_forall. intros h Hin.
      destruct (Hand.is_bust h) eqn:E; [reflexivity|].
      assert (Hex : existsb (fun hand => negb (Hand.is_bust hand))
                            (Player.hands p) = true).
      { apply existsb_exists. exists h. split.
        - now apply list_elem_of_In.
        - now rewrite E. }
      congruence.
    + intros [?|Hall]; [discriminate|].
      destruct (existsb _ _) eqn:E; [|reflexivity].
      apply existsb_exists in E as (h & Hin & Hnb).
      rewrite Forall_forall in Hall.
      rewrite (Hall h) in Hnb by now apply list_elem_of_In. discriminate.
Qed.

Lemma no_active_players (g : Game.t) :
  Game.has_active_players g = false ->
  Forall (fun p => Player.is_active p = false) (Game.players g).
Proof.
  unfold Game.has_active_players. intros H. apply Forall_forall.
  intros p Hin. destruct (Player.is_active p) eqn:E; [|reflexivity].
  assert (existsb Player.is_active (Game.players g) = true); [|congruence].
  apply existsb_exists. exists p. split; [now apply list_elem_of_In|exact E].
Qed.

Lemma player_turns_from_inactive (fuel : nat) (g : Game.t)
    (inputs : list string) (idx : list nat) :
  Forall (fun p => Player.is_active p = false) (Game.players g) ->
  Forall (fun pi => (pi < length (Game.players g))%nat) idx ->
  Game.player_turns_from fuel idx g inputs = Some (true, g, inputs).
Proof.
  intros Hall. induction idx as [|pi idx IH]; intros Hidx; [reflexivity|].
  apply Forall_cons in Hidx as [Hpi Hidx]. simpl.
  destruct (lookup_lt_is_Some_2 _ _ Hpi) as [p Hp]. rewrite Hp. simpl.
  rewrite (Forall_lookup_1 _ _ _ _ Hall Hp). now apply IH.
Qed.

Lemma map_fst_inactive (db : bool) (dt : Z) (ps : list Player.t) :
  Forall (fun p => Player.is_active p = false) ps ->
  map fst (map (Game.do_results_player db dt) ps) = ps
  /\ concat (map snd (map (Game.do_results_player db dt) ps)) = [].
Proof.
  induction 1 as [|p ps Hp _ [IH1 IH2]]; [now split|].
  simpl. unfold Game.do_results_player at 1 3. rewrite Hp. simpl.
  now rewrite IH1, IH2.
Qed.

(** X13. A player is inactive exactly when the blackjack flag is set or
    every hand is bust (a player without hands is).  Inactive players are
    passed over: when nobody is active, the player turns return at once,
    reading no answer and changing nothing, and [do_results] prints no
    line and changes nothing. *)
Theorem inactive_players_are_passed_over (g : Game.t) :
  Game.has_active_players g = false ->
  (forall p : Player.t, p ∈ Game.players g ->
     Player.blackjack p = true
     \/ Forall (fun h => Hand.is_bust h = true) (Player.hands p))
  /\ (forall (fuel : nat) (inputs : list string),
        Game.do_player_turns fuel g inputs = Some (true, g, inputs))
  /\ (forall dh : Hand.t,
        Dealer.hands (Game.dealer g) !! 0%nat = Some dh ->
        Game.do_results g = Some (g, [])).
Proof.
  intros H%no_active_players. split; [|split].
  - intros p Hin. apply is_active_false.
    rewrite Forall_forall in H. now apply H.
  - intros fuel inputs. unfold Game.do_player_turns.
    apply player_turns_from_inactive; [exact H|].
    apply Forall_forall. intros pi Hin.
    apply list_elem_of_In, in_seq in Hin. lia.
  - intros dh Hdh. unfold Game.do_results, Dealer.bust. rewrite Hdh.
    simpl.
    destruct (map_fst_inactive (21 <? Hand.value dh) (Hand.value dh)
                (Game.players g) H) as [-> ->].
    now destruct g.
Qed.

Lemma inactive_players_are_passed_over_witness :
  let g := Game.mk (Shoe.mk [Card.new 4])
                   [Player.set_blackjack eighteen; Player.new 2]
                   Dealer.new in
  Game.has_active_players g = false
  /\ Game.do_player_turns 3 g ["h"%string] = Some (true, g, ["h"%string]).
Proof.
  split; [reflexivity|].
  apply (inactive_players_are_passed_over
           (Game.mk (Shoe.mk [Card.new 4])
                    [Player.set_blackjack eighteen; Player.new 2]
                    Dealer.new)).
  reflexivity.
Defined.

(** ** What settlement can pay *)

Lemma credit_of_bounds (db : bool) (dt : Z) (h : Hand.t) :
  0 <= Hand.bet h ->
  (0 <= credit_of db dt h)%Q
  /\ (credit_of db dt h <= inject_Z (2 * Hand.bet h))%Q.
Proof.
  intros Hb. pose proof (inject_Z_nonneg _ Hb) as Hq.
  replace (2 * Hand.bet h) with (Hand.bet h + Hand.bet h) by lia.
  rewrite inject_Z_plus.
  unfold credit_of. destruct (Hand.is_bust h); [split; lra|].
  destruct (verdict_of db dt h); split; lra.
Qed.

Lemma total_credit_bounds (db : bool) (dt : Z) (hs : list Hand.t) :
  Forall (fun h => 0 <= Hand.bet h) hs ->
  (0 <= total_credit db dt hs)%Q
  /\ (total_credit db dt hs <= inject_Z (2 * stakes hs))%Q.
Proof.
  induction 1 as [|h hs Hh _ [IH1 IH2]].
  - unfold total_credit, stakes. simpl. split; [lra|]. now vm_compute.
  - destruct (credit_of_bounds db dt h Hh) as [Hc1 Hc2].
    unfold total_credit, stakes in *. simpl.
    replace (2 * (Hand.bet h + foldr (fun h0 acc => Hand.bet h0 + acc) 0 hs))
      with (2 * Hand.bet h
            + 2 * foldr (fun h0 acc => Hand.bet h0 + acc) 0 hs) by lia.
    rewrite inject_Z_plus. split; lra.
Qed.

Lemma do_results_player_pays (db : bool) (dt : Z) (p : Player.t) :
  Forall (fun h => 0 <= Hand.bet h) (Player.hands p) ->
  exists (p' : Player.t) (lines : list Game.line),
    Game.do_results_player db dt p = (p', lines)
    /\ Player.hands p' = Player.hands p
    /\ Player.name p' = Player.name p
    /\ Player.blackjack p' = Player.blackjack p
    /\ (Player.money p <= Player.money p')%Q
    /\ (Player.money p'
        <= Player.money p + inject_Z (2 * stakes (Player.hands p)))%Q.
Proof.
  intros Hbets. unfold Game.do_results_player.
  destruct (Player.is_active p) eqn:Hact; simpl.
  - assert (Hbj : Player.blackjack p = false).
    { unfold Player.is_active in Hact. now destruct (Player.blackjack p). }
    destruct (do_results_hands_spec db dt (Player.hands p) 0 p Hbj)
      as (p' & lines & E & Hn & Hb & Hh & Hm & _).
    destruct (total_credit_bounds db dt _ Hbets) as [Hc1 Hc2].
    exists p', lines. repeat split; auto; try congruence; lra.
  - exists p, []. repeat split; auto; try lra.
    assert (0 <= stakes (Player.hands p)).
    { clear Hact. unfold stakes.
      induction Hbets as [|h hs Hh _ IH]; simpl; lia. }
    assert (0 <= inject_Z (2 * stakes (Player.hands p)))%Q
      by (apply inject_Z_nonneg; lia).
    lra.
Qed.

(** X14. When no hand carries a negative bet, [do_results] takes money
    from nobody: every player keeps hands, name and flag, and ends with
    at least the money held before and at most that plus twice the bets on
    the player's hands.  The shoe and the dealer are not touched. *)
Theorem settlement_only_pays (g g' : Game.t) (out : list Game.line) :
  Engine.game_ok g ->
  Game.do_results g = Some (g', out) ->
  Game.shoe g' = Game.shoe g /\ Game.dealer g' = Game.dealer g
  /\ length (Game.players g') = length (Game.players g)
  /\ forall (pi : nat) (p : Player.t),
       Game.players g !! pi = Some p ->
       exists p' : Player.t,
         Game.players g' !! pi = Some p'
         /\ Player.hands p' = Player.hands p
         /\ Player.name p' = Player.name p
         /\ Player.blackjack p' = Player.blackjack p
         /\ (Player.money p <= Player.money p')%Q
         /\ (Player.money p'
             <= Player.money p + inject_Z (2 * stakes (Player.hands p)))%Q.
Proof.
  intros Hok H. unfold Game.do_results in H.
  destruct (Dealer.bust (Game.dealer g)) as [db|]; [|discriminate].
  simpl in H.
  destruct (Dealer.hands (Game.dealer g) !! 0%nat) as [dh|];
    [|discriminate].
  simpl in H. injection H as <- <-. simpl.
  split; [reflexivity|]. split; [reflexivity|].
  split; [now rewrite !length_map|].
  intros pi p Hp.
  pose proof (game_ok_player g pi p Hok Hp) as [_ Hbets].
  destruct (do_results_player_pays db (Hand.value dh) p Hbets)
    as (p' & lines & E & Hrest).
  exists p'. split; [|exact Hrest].
  rewrite !list_lookup_fmap, Hp. simpl. now rewrite E.
Qed.

Lemma settlement_only_pays_witness :
  Engine.game_ok level_game
  /\ exists (g' : Game.t) (out : list Game.line),
       Game.do_results level_game = Some (g', out)
       /\ Game.shoe g' = Game.shoe level_game.
Proof.
  assert (Hok : Engine.game_ok level_game).
  { repeat constructor; simpl; try discriminate. }
  split; [exact Hok|].
  do 2 eexists. split; [reflexivity|].
  exact (proj1 (settlement_only_pays level_game _ _ Hok eq_refl)).
Defined.

(** ** Dealing *)

Lemma hit_player_total (g : Game.t) (pi : nat) :
  has_first_hand g pi ->
  Shoe.cards (Game.shoe g) <> [] ->
  exists g' : Game.t, Game.hit_player g pi 0 = Some g'.
Proof.
  intros (p & h & Hp & Hh) Hshoe.
  unfold Game.hit_player, Game.hit, Shoe.get_card. rewrite Hp. simpl.
  rewrite Hh. simpl.
  destruct (pop (Shoe.cards (Game.shoe g))) as [[c r]|] eqn:Hpop.
  - simpl. eauto.
  - apply pop_None in Hpop. contradiction.
Qed.

Lemma hit_player_first_hands (g g' : Game.t) (pi i pj : nat) :
  Game.hit_player g pi i = Some g' ->
  has_first_hand g pj -> has_first_hand g' pj.
Proof.
  intros (p & h & c & Hp & Hi & _ & Hps & _)%hit_player_spec
         (q & hq & Hq & Hhq).
  unfold has_first_hand. rewrite Hps.
  assert (Hlt : (pi < length (Game.players g))%nat)
    by (apply lookup_lt_is_Some; eauto).
  destruct (Nat.eq_dec pj pi) as [->|Hne].
  - rewrite list_lookup_insert_eq by exact Hlt.
    assert (q = p) by congruence. subst q.
    destruct i as [|i].
    + exists (Player.with_hand p 0 (Hand.add h c)), (Hand.add h c).
      split; [reflexivity|]. simpl. apply list_lookup_insert_eq.
      apply lookup_lt_is_Some. eauto.
    + exists (Player.with_hand p (S i) (Hand.add h c)), hq.
      split; [reflexivity|]. simpl.
      now rewrite list_lookup_insert_ne by discriminate.
  - rewrite list_lookup_insert_ne by auto. now exists q, hq.
Qed.

Lemma hit_player_shoe (g g' : Game.t) (pi i : nat) :
  Game.hit_player g pi i = Some g' ->
  length (Shoe.cards (Game.shoe g))
  = S (length (Shoe.cards (Game.shoe g')))
  /\ Game.dealer g' = Game.dealer g
  /\ length (Game.players g') = length (Game.players g).
Proof.
  intros (p & h & c & _ & _ & Hshoe & Hps & Hd)%hit_player_spec.
  rewrite Hshoe, length_app, Hps, length_insert. simpl.
  split; [lia|]. now split.
Qed.

Lemma deal_players_shoe (idx : list nat) :
  forall g g' : Game.t,
    Game.deal_players idx g = Some g' ->
    length (Shoe.cards (Game.shoe g))
    = (2 * length idx + length (Shoe.cards (Game.shoe g')))%nat
    /\ Game.dealer g' = Game.dealer g
    /\ length (Game.players g') = length (Game.players g).
Proof.
  induction idx as [|pi idx IH]; intros g g' H; simpl in H.
  - injection H as <-. simpl. now repeat split.
  - destruct (Game.deal_player g pi) as [g1|] eqn:Hd; [|discriminate].
    simpl in H. apply IH in H as (Hlen & Hdl & Hn).
    unfold Game.deal_player in Hd.
    destruct (Game.hit_player g pi 0) as [g0|] eqn:H0; [|discriminate].
    simpl in Hd.
    apply hit_player_shoe in H0 as (L0 & D0 & N0).
    apply hit_player_shoe in Hd as (L1 & D1 & N1).
    simpl. split; [lia|]. split; congruence.
Qed.

Lemma deal_players_total (idx : list nat) :
  forall g : Game.t,
    Forall (has_first_hand g) idx ->
    (2 * length idx <= length (Shoe.cards (Game.shoe g)))%nat ->
    exists g' : Game.t, Game.deal_players idx g = Some g'.
Proof.
  induction idx as [|pi idx IH]; intros g Hhands Hlen; simpl.
  - eauto.
  - apply Forall_cons in Hhands as [Hpi Hidx]. simpl in Hlen.
    destruct (hit_player_total g pi Hpi) as [g0 H0].
    { intros E. rewrite E in Hlen. simpl in Hlen. lia. }
    pose proof (hit_player_shoe _ _ _ _ H0) as (L0 & _ & _).
    destruct (hit_player_total g0 pi) as [g1 H1].
    { eapply hit_player_first_hands; eauto. }
    { intros E. rewrite E in L0. simpl in L0. lia. }
    pose proof (hit_player_shoe _ _ _ _ H1) as (L1 & _ & _).
    unfold Game.deal_player. rewrite H0. simpl. rewrite H1. simpl.
    apply IH; [|lia].
    eapply Forall_impl; [exact Hidx|]. intros pj Hpj.
    eapply hit_player_first_hands; [exact H1|].
    eapply hit_player_first_hands; eauto.
Qed.

Lemma hit_dealer_total (g : Game.t) (dh : Hand.t) :
  Dealer.hands (Game.dealer g) !! 0%nat = Some dh ->
  Shoe.cards (Game.shoe g) <> [] ->
  exists g' : Game.t, Game.hit_dealer g = Some g'.
Proof.
  intros Hdh Hshoe. unfold Game.hit_dealer, Game.hit, Shoe.get_card.
  rewrite Hdh. simpl.
  destruct (pop (Shoe.cards (Game.shoe g))) as [[c r]|] eqn:Hpop.
  - simpl. eauto.
  - apply pop_None in Hpop. contradiction.
Qed.

Lemma check_blackjack_total (g : Game.t) (dh : Hand.t) :
  Dealer.hands (Game.dealer g) !! 0%nat = Some dh ->
  exists (ok : bool) (g' : Game.t),
    Game.check_blackjack g = Some (ok, g')
    /\ Game.shoe g' = Game.shoe g.
Proof.
  intros Hdh. unfold Game.check_blackjack. rewrite Hdh. simpl.
  repeat match goal with
         | |- context [if ?c then _ else _] => destruct c
         end; eauto.
Qed.

Lemma deal_uses (g g' : Game.t) (ok : bool) :
  Game.deal g = Some (ok, g') ->
  length (Shoe.cards (Game.shoe g))
  = (2 * (length (Game.players g) + 1)
     + length (Shoe.cards (Game.shoe g')))%nat
  /\ length (Game.players g') = length (Game.players g).
Proof.
  intros H. unfold Game.deal in H.
  destruct (Game.hit_dealer g) as [g1|] eqn:H1; [|discriminate].
  simpl in H.
  destruct (Game.hit_dealer g1) as [g2|] eqn:H2; [|discriminate].
  simpl in H.
  destruct (Game.deal_players _ g2) as [g3|] eqn:H3; [|discriminate].
  simpl in H.
  pose proof (hit_dealer_shoe _ _ H1) as L1.
  pose proof (hit_dealer_shoe _ _ H2) as L2.
  apply hit_dealer_spec in H1 as (_ & _ & _ & _ & _ & _ & P1).
  apply hit_dealer_spec in H2 as (_ & _ & _ & _ & _ & _ & P2).
  apply deal_players_shoe in H3 as (L3 & D3 & N3).
  rewrite length_seq in L3.
  assert (Hsame : Game.shoe g' = Game.shoe g3
                  /\ length (Game.players g') = length (Game.players g3)).
  { unfold Game.check_blackjack in H.
    destruct (Dealer.hands (Game.dealer g3) !! 0%nat); [|discriminate].
    simpl in H.
    repeat match type of H with
           | (if ?c then _ else _) = _ => destruct c
           end; injection H as <- <-; simpl; now rewrite !length_map. }
  destruct Hsame as [-> ->]. rewrite P2, P1 in L3, N3. split; lia.
Qed.

Lemma deal_total (g : Game.t) (dh : Hand.t) :
  Dealer.hands (Game.dealer g) !! 0%nat = Some dh ->
  (forall pi : nat, (pi < length (Game.players g))%nat ->
     has_first_hand g pi) ->
  (2 * (length (Game.players g) + 1)
   <= length (Shoe.cards (Game.shoe g)))%nat ->
  exists (ok : bool) (g' : Game.t), Game.deal g = Some (ok, g').
Proof.
  intros Hdh Hhands Hlen. unfold Game.deal.
  destruct (hit_dealer_total g dh Hdh) as [g1 H1].
  { intros E. rewrite E in Hlen. simpl in Hlen. lia. }
  pose proof (hit_dealer_shoe _ _ H1) as L1.
  pose proof (hit_dealer_spec _ _ H1)
    as (dh0 & c1 & Hdh0 & _ & Hh1 & _ & P1).
  assert (Hdh1 : Dealer.hands (Game.dealer g1) !! 0%nat
                 = Some (Hand.add dh0 c1)).
  { rewrite Hh1. apply list_lookup_insert_eq.
    apply lookup_lt_is_Some. eauto. }
  destruct (hit_dealer_total g1 _ Hdh1) as [g2 H2].
  { intros E. rewrite E in L1. simpl in L1. lia. }
  pose proof (hit_dealer_shoe _ _ H2) as L2.
  pose proof (hit_dealer_spec _ _ H2)
    as (dh1 & c2 & Hdh1' & _ & Hh2 & _ & P2).
  assert (Hdh2 : Dealer.hands (Game.dealer g2) !! 0%nat
                 = Some (Hand.add dh1 c2)).
  { rewrite Hh2. apply list_lookup_insert_eq.
    apply lookup_lt_is_Some. eauto. }
  rewrite H1. simpl. rewrite H2. simpl.
  destruct (deal_players_total (seq 0 (length (Game.players g2))) g2)
    as [g3 H3].
  { apply Forall_forall. intros pi Hin.
    apply list_elem_of_In, in_seq in Hin.
    destruct (Hhands pi) as (p & h & Hp & Hh);
      [rewrite P2, P1 in Hin; lia|].
    exists p, h. split; [now rewrite P2, P1|exact Hh]. }
  { rewrite length_seq, P2, P1. lia. }
  rewrite H3. simpl.
  pose proof (deal_players_shoe _ _ _ H3) as (_ & D3 & _).
  rewrite <- D3 in Hdh2.
  destruct (check_blackjack_total g3 _ Hdh2) as (ok & g' & H & _).
  eauto.
Qed.

(** X15. In a game whose dealer and players each have a first hand,
    [deal] returns exactly when the shoe holds two cards for the dealer
    and two for every player, and then it has taken just those cards from
    the shoe; with a smaller shoe it raises. *)
Theorem deal_needs_two_cards_each (g : Game.t) (dh : Hand.t) :
  Dealer.hands (Game.dealer g) !! 0%nat = Some dh ->
  (forall pi : nat, (pi < length (Game.players g))%nat ->
     has_first_hand g pi) ->
  ((exists (ok : bool) (g' : Game.t), Game.deal g = Some (ok, g'))
   <-> (2 * (length (Game.players g) + 1)
        <= length (Shoe.cards (Game.shoe g)))%nat)
  /\ (forall (ok : bool) (g' : Game.t),
        Game.deal g = Some (ok, g') ->
        length (Shoe.cards (Game.shoe g))
        = (2 * (length (Game.players g) + 1)
           + length (Shoe.cards (Game.shoe g')))%nat).
Proof.
  intros Hdh Hhands. split.
  - split.
    + intros (ok & g' & H). apply deal_uses in H as [H _]. lia.
    + intros Hlen. eapply deal_total; eauto.
  - intros ok g' H. now apply deal_uses in H as [H _].
Qed.

Lemma deal_needs_two_cards_each_witness :
  Dealer.hands (Game.dealer table_before_deal) !! 0%nat = Some (Hand.new 0)
  /\ (forall pi : nat,
        (pi < length (Game.players table_before_deal))%nat ->
        has_first_hand table_before_deal pi)
  /\ exists (ok : bool) (g' : Game.t),
       Game.deal table_before_deal = Some (ok, g').
Proof.
  assert (Hhands : forall pi : nat,
             (pi < length (Game.players table_before_deal))%nat ->
             has_first_hand table_before_deal pi).
  { intros [|pi] Hpi; [|simpl in Hpi; lia].
    do 2 eexists. split; reflexivity. }
  split; [reflexivity|]. split; [exact Hhands|].
  apply (proj1 (deal_needs_two_cards_each table_before_deal (Hand.new 0)
                  eq_refl Hhands)).
  simpl. lia.
Defined.

(** X16. A round with at least one player always gets through the deal:
    after [reset], once every player has placed a bet, the shoe of 52
    cards per player has the two cards each that [deal] draws, so [start]
    returns what [deal] returns and the shoe is left with 52 per player
    less two each for the players and the dealer. *)
Theorem first_deal_never_runs_dry (int : string -> option Z)
    (rnd : nat -> nat) (g g1 : Game.t) (inputs rest : list string) :
  Game.players g <> [] ->
  Game.take_bets int (Game.reset rnd g) inputs = Some (true, g1, rest) ->
  exists (ok : bool) (g2 : Game.t),
    Game.deal g1 = Some (ok, g2)
    /\ Game.start int (Game.reset rnd g) inputs = Some (ok, g2, rest)
    /\ (length (Shoe.cards (Game.shoe g2))
        + 2 * (length (Game.players g) + 1)
        = 52 * length (Game.players g))%nat.
Proof.
  intros Hne Hbets.
  assert (Hn : (1 <= length (Game.players g))%nat).
  { destruct (Game.players g); [contradiction|simpl; lia]. }
  pose proof Hbets as Hspec.
  unfold Game.take_bets in Hspec.
  destruct (Game.take_bets_players int _ inputs) as [[[ok1 ps1] r1]|]
    eqn:Hps; simpl in Hspec; [|discriminate].
  injection Hspec as -> <- ->.
  apply take_bets_players_spec in Hps
    as (served & served' & waiting & used & Hg & Hg1 & HF & Hok & _).
  assert (waiting = []) by now apply Hok. subst waiting.
  rewrite app_nil_r in Hg, Hg1. subst served served'.
  assert (Hlen1 : length ps1 = length (Game.players g)).
  { rewrite <- (Forall2_length _ _ _ HF). simpl. apply length_map. }
  assert (Hshoe : length (Shoe.cards
                    (Game.shoe (Game.reset rnd g)))
                  = (52 * length (Game.players g))%nat).
  { unfold Game.reset. cbn [Game.shoe]. rewrite shuffle_length.
    unfold Shoe.new. cbn [Shoe.cards]. rewrite fill_length. lia. }
  set (g1 := Game.mk (Game.shoe (Game.reset rnd g)) ps1
                     (Game.dealer (Game.reset rnd g))) in *.
  destruct (deal_total g1 (Hand.new 0)) as (ok & g2 & Hdeal).
  - reflexivity.
  - intros pi Hpi. simpl in Hpi.
    destruct (lookup_lt_is_Some_2 ps1 pi Hpi) as [p' Hp'].
    destruct (Forall2_lookup_r _ _ _ _ _ HF Hp')
      as (p & Hp & b & _ & _ & ->).
    simpl in Hp. rewrite list_lookup_fmap in Hp.
    destruct (Game.players g !! pi) as [p0|]; [|discriminate].
    injection Hp as <-.
    exists (Player.add_hand (Player.reset p0) (Hand.new b)), (Hand.new b).
    split; [exact Hp'|reflexivity].
  - unfold g1. cbn [Game.shoe Game.players]. rewrite Hlen1, Hshoe. lia.
  - exists ok, g2. split; [exact Hdeal|]. split.
    + unfold Game.start. rewrite Hbets. cbn [mbind option_bind].
      change (Game.deal g1 ≫= (λ '(ok', g'), Some (ok', g', rest))
              = Some (ok, g2, rest)).
      now rewrite Hdeal.
    + apply deal_uses in Hdeal as [Hused _].
      unfold g1 in Hused. cbn [Game.shoe Game.players] in Hused.
      rewrite Hlen1, Hshoe in Hused. lia.
Qed.

Lemma first_deal_never_runs_dry_witness :
  Game.players (Game.new 1) <> []
  /\ exists (g1 : Game.t) (ok : bool) (g2 : Game.t),
       Game.take_bets int_ascii (Game.reset (fun i => i) (Game.new 1))
         ["25"%string] = Some (true, g1, [])
       /\ Game.deal g1 = Some (ok, g2).
Proof.
  assert (Hne : Game.players (Game.new 1) <> []) by discriminate.
  split; [exact Hne|].
  assert (Hbets : exists g1 : Game.t,
             Game.take_bets int_ascii
               (Game.reset (fun i => i) (Game.new 1)) ["25"%string]
             = Some (true, g1, []))
    by (eexists; vm_compute; reflexivity).
  destruct Hbets as [g1 Hbets].
  destruct (first_deal_never_runs_dry int_ascii (fun i => i) (Game.new 1)
              g1 ["25"%string] [] Hne Hbets) as (ok & g2 & Hdeal & _).
  exists g1, ok, g2. split; [exact Hbets|exact Hdeal].
Defined.

(** ** The blackjack check *)

Lemma check_blackjack_player_spec (dbj : bool) (p : Player.t) :
  Game.check_blackjack_player dbj p
  = if has_natural p
    then match Player.hands p with
         | h :: _ =>
             (if dbj
              then Player.push_hand (Player.set_blackjack p) h
              else Player.win_hand (Player.set_blackjack p) h, true)
         | [] => (p, false)
         end
    else (p, false).
Proof.
  unfold Game.check_blackjack_player, has_natural.
  destruct (Player.is_active p); simpl; [|reflexivity].
  destruct (Player.hands p) as [|h hs]; [reflexivity|].
  now destruct (Hand.value h =? 21).
Qed.

Lemma existsb_snd_check (dbj : bool) (ps : list Player.t) :
  existsb snd (map (Game.check_blackjack_player dbj) ps)
  = existsb has_natural ps.
Proof.
  induction ps as [|p ps IH]; [reflexivity|]. simpl. rewrite IH.
  f_equal. rewrite check_blackjack_player_spec. unfold has_natural.
  destruct (Player.is_active p); simpl; [|reflexivity].
  destruct (Player.hands p) as [|h hs]; [reflexivity|].
  now destruct (Hand.value h =? 21).
Qed.

(** X17. [check_blackjack] settles the naturals and nobody else.  An
    active player whose first hand is worth 21 gets the blackjack flag,
    is inactive from then on, and is paid on that hand: the bet back when
    the dealer's hand is worth 21 too, the bet back and one and a half
    bets more when it is not.  Every other player, the shoe and the dealer
    are untouched.  The result is [True] exactly when somebody is still
    active and it is not so that both the dealer and some player have
    21. *)
Theorem blackjack_check_settles_naturals (g : Game.t) (dh : Hand.t) :
  Dealer.hands (Game.dealer g) !! 0%nat = Some dh ->
  exists (ok : bool) (g' : Game.t),
    Game.check_blackjack g = Some (ok, g')
    /\ Game.shoe g' = Game.shoe g /\ Game.dealer g' = Game.dealer g
    /\ length (Game.players g') = length (Game.players g)
    /\ (forall (pi : nat) (p : Player.t),
          Game.players g !! pi = Some p ->
          has_natural p = false ->
          Game.players g' !! pi = Some p)
    /\ (forall (pi : nat) (p : Player.t),
          Game.players g !! pi = Some p ->
          has_natural p = true ->
          exists (h : Hand.t) (p' : Player.t),
            Player.hands p !! 0%nat = Some h
            /\ Game.players g' !! pi = Some p'
            /\ Player.blackjack p' = true
            /\ Player.is_active p' = false
            /\ Player.hands p' = Player.hands p
            /\ Player.name p' = Player.name p
            /\ (Player.money p'
                == Player.money p
                   + (if Hand.value dh =? 21
                      then inject_Z (Hand.bet h)
                      else inject_Z (Hand.bet h)
                           + inject_Z (Hand.bet h) * (3 # 2)))%Q)
    /\ (ok = true
        <-> Game.has_active_players g' = true
            /\ ~ (Hand.value dh = 21
                  /\ existsb has_natural (Game.players g) = true)).
Proof.
  intros Hdh. unfold Game.check_blackjack. rewrite Hdh. simpl.
  set (dbj := Hand.value dh =? 21).
  set (g' := Game.mk (Game.shoe g)
               (map fst (map (Game.check_blackjack_player dbj)
                             (Game.players g)))
               (Game.dealer g)).
  rewrite existsb_snd_check.
  assert (Hrest :
    Game.shoe g' = Game.shoe g /\ Game.dealer g' = Game.dealer g
    /\ length (Game.players g') = length (Game.players g)
    /\ (forall (pi : nat) (p : Player.t),
          Game.players g !! pi = Some p ->
          has_natural p = false ->
          Game.players g' !! pi = Some p)
    /\ (forall (pi : nat) (p : Player.t),
          Game.players g !! pi = Some p ->
          has_natural p = true ->
          exists (h : Hand.t) (p' : Player.t),
            Player.hands p !! 0%nat = Some h
            /\ Game.players g' !! pi = Some p'
            /\ Player.blackjack p' = true
            /\ Player.is_active p' = false
            /\ Player.hands p' = Player.hands p
            /\ Player.name p' = Player.name p
            /\ (Player.money p'
                == Player.money p
                   + (if dbj
                      then inject_Z (Hand.bet h)
                      else inject_Z (Hand.bet h)
                           + inject_Z (Hand.bet h) * (3 # 2)))%Q)).
  { split; [reflexivity|]. split; [reflexivity|].
    split; [simpl; now rewrite !length_map|]. split.
    - intros pi p Hp Hnat. simpl.
      rewrite !list_lookup_fmap, Hp. simpl.
      now rewrite check_blackjack_player_spec, Hnat.
    - intros pi p Hp Hnat. simpl.
      rewrite !list_lookup_fmap, Hp. simpl.
      rewrite check_blackjack_player_spec, Hnat.
      unfold has_natural in Hnat.
      apply andb_true_iff in Hnat as [_ Hnat].
      destruct (Player.hands p) as [|h hs] eqn:Hhs; [discriminate|].
      exists h. eexists. split; [reflexivity|]. split; [reflexivity|].
      destruct dbj; simpl; rewrite ?Hhs; repeat split; ring. }
  assert (Hok : forall ok : bool,
             ok = (if existsb has_natural (Game.players g) && dbj
                   then false
                   else if negb (Game.has_active_players g')
                        then false else true) ->
             ok = true
             <-> Game.has_active_players g' = true
                 /\ ~ (Hand.value dh = 21
                       /\ existsb has_natural (Game.players g) = true)).
  { intros ok ->. unfold dbj.
    destruct (existsb has_natural (Game.players g));
      destruct (Z.eqb_spec (Hand.value dh) 21);
      destruct (Game.has_active_players g'); simpl;
      intuition (try discriminate; try congruence). }
  destruct (existsb has_natural (Game.players g) && dbj) eqn:E1.
  - exists false, g'. split; [reflexivity|].
    repeat (split; [apply Hrest|]). apply Hok. reflexivity.
  - destruct (negb (Game.has_active_players g')) eqn:E2.
    + exists false, g'. split; [reflexivity|].
      repeat (split; [apply Hrest|]). apply Hok. reflexivity.
    + exists true, g'. split; [reflexivity|].
      repeat (split; [apply Hrest|]). apply Hok. reflexivity.
Qed.

Lemma blackjack_check_settles_naturals_witness :
  let g := Game.mk (Shoe.mk [])
             [Player.add_hand (Player.new 1)
                (Hand.dealt 100 [Card.new 1; Card.new 13])]
             (Dealer.mk [Hand.dealt 0 [Card.new 9; Card.new 8]]
                        "Dealer") in
  Dealer.hands (Game.dealer g) !! 0%nat
  = Some (Hand.dealt 0 [Card.new 9; Card.new 8])
  /\ exists (ok : bool) (g' : Game.t),
       Game.check_blackjack g = Some (ok, g')
       /\ Game.shoe g' = Game.shoe g.
Proof.
  split; [reflexivity|].
  destruct (blackjack_check_settles_naturals
              (Game.mk (Shoe.mk [])
                 [Player.add_hand (Player.new 1)
                    (Hand.dealt 100 [Card.new 1; Card.new 13])]
                 (Dealer.mk [Hand.dealt 0 [Card.new 9; Card.new 8]]
                            "Dealer"))
              (Hand.dealt 0 [Card.new 9; Card.new 8]) eq_refl)
    as (ok & g' & H1 & H2 & _).
  exists ok, g'. split; [exact H1|exact H2].
Defined.

(** ** Hands that carry the split flag *)

Lemma hit_player_holds (g g' : Game.t) (pi j i : nat) (h : Hand.t) :
  Game.hit_player g pi j = Some g' -> j <> i ->
  holds_hand pi i h g -> holds_hand pi i h g'.
Proof.
  intros (p & hj & c & Hp & Hj & _ & Hps & _)%hit_player_spec Hne
         (q & Hq & Hi).
  assert (q = p) by congruence. subst q.
  exists (Player.with_hand p j (Hand.add hj c)). split.
  - rewrite Hps. apply list_lookup_insert_eq.
    apply lookup_lt_is_Some. eauto.
  - simpl. now rewrite list_lookup_insert_ne.
Qed.

Lemma with_player_holds (g : Game.t) (pi i : nat) (p p' : Player.t)
    (h : Hand.t) :
  Game.players g !! pi = Some p -> Player.hands p' !! i = Some h ->
  holds_hand pi i h (Game.with_player g pi p').
Proof.
  intros Hp Hi. exists p'. split; [|exact Hi]. simpl.
  apply list_lookup_insert_eq. apply lookup_lt_is_Some. eauto.
Qed.

Lemma action_holds (g g' : Game.t) (pi j i : nat)
    (inputs rest : list string) (fl : Game.flow) (h : Hand.t) :
  Game.action g pi j inputs = Some (fl, g', rest) -> j <> i ->
  holds_hand pi i h g -> holds_hand pi i h g'.
Proof.
  unfold Game.action. intros H Hne Hold.
  destruct (Game.players g !! pi) as [p|] eqn:Hp; [|discriminate].
  simpl in H.
  destruct (Player.hands p !! j) as [hj|] eqn:Hj; [|discriminate].
  simpl in H.
  assert (Hi : Player.hands p !! i = Some h).
  { destruct Hold as (q & Hq & Hi). congruence. }
  assert (Hlt : (i < length (Player.hands p))%nat)
    by (apply lookup_lt_is_Some; eauto).
  destruct inputs as [|user_input inputs]; [discriminate|].
  destruct (String.eqb user_input "q").
  { destruct inputs as [|quit inputs]; [discriminate|].
    destruct (String.eqb quit "y"); now injection H as <- <- <-. }
  destruct (String.eqb user_input "h").
  { destruct (Game.hit_player g pi j) as [g1|] eqn:Hhit; [|discriminate].
    simpl in H.
    destruct (Game.players g1 !! pi) as [p1|]; [|discriminate].
    simpl in H.
    destruct (Player.hands p1 !! j) as [h1|]; [|discriminate].
    simpl in H. injection H as <- <- <-.
    eapply hit_player_holds; eauto. }
  destruct (String.eqb user_input "s").
  { now injection H as <- <- <-. }
  destruct (String.eqb user_input "sp").
  { destruct (Hand.can_split hj); [|now injection H as <- <- <-].
    destruct (length (Player.hands p) <? 4)%nat;
      [|now injection H as <- <- <-].
    destruct (Qle_bool _ _); [|now injection H as <- <- <-].
    destruct (Player.split p j) as [[p1 n]|] eqn:Hs; [|discriminate].
    simpl in H.
    destruct (Game.hit_player (Game.with_player g pi p1) pi j) as [g1|]
      eqn:H1; [|discriminate].
    simpl in H.
    destruct (Game.hit_player g1 pi n) as [g2|] eqn:H2; [|discriminate].
    simpl in H. injection H as <- <- <-.
    unfold Player.split in Hs. rewrite Hj in Hs.
    destruct (pop (Hand.cards hj)) as [[c r]|]; [|discriminate].
    injection Hs as <- <-.
    eapply hit_player_holds; [exact H2|lia|].
    eapply hit_player_holds; [exact H1|exact Hne|].
    apply (with_player_holds g pi i p _ h Hp). simpl.
    rewrite lookup_app_l by now rewrite length_insert.
    now rewrite list_lookup_insert_ne. }
  destruct (String.eqb user_input "d").
  { destruct (Qle_bool _ _); [|now injection H as <- <- <-].
    unfold Player.double in H. rewrite Hj in H. simpl in H.
    destruct (Game.hit_player _ pi j) as [g1|] eqn:H1; [|discriminate].
    simpl in H. injection H as <- <- <-.
    eapply hit_player_holds; [exact H1|exact Hne|].
    apply (with_player_holds g pi i p _ h Hp). simpl.
    now rewrite list_lookup_insert_ne. }
  now injection H as <- <- <-.
Qed.

Lemma turn_from_holds (fuel : nat) (pi i : nat) (h : Hand.t) :
  Hand.split_ace h = true ->
  forall (g g' : Game.t) (j : nat) (inputs rest : list string) (ok : bool),
    Game.turn_from fuel g pi j inputs = Some (ok, g', rest) ->
    holds_hand pi i h g -> holds_hand pi i h g'.
Proof.
  intros Hflag.
  induction fuel as [|fuel IH]; intros g g' j inputs rest ok H Hold;
    simpl in H; [discriminate|].
  destruct (Game.players g !! pi) as [p|] eqn:Hp; [|discriminate].
  simpl in H.
  destruct (Player.hands p !! j) as [hj|] eqn:Hj.
  - destruct (Hand.split_ace hj) eqn:Hfj; [eapply IH; eauto|].
    assert (Hne : j <> i).
    { intros ->. destruct Hold as (q & Hq & Hi). congruence. }
    destruct (Game.action g pi j inputs) as [[[fl g1] r1]|] eqn:Ha;
      simpl in H; [|discriminate].
    pose proof (action_holds _ _ _ _ _ _ _ _ _ Ha Hne Hold) as Hold1.
    destruct fl.
    + eapply IH; eauto.
    + eapply IH; eauto.
    + now injection H as <- <- <-.
  - now injection H as <- <- <-.
Qed.

(** X18. A hand that carries the split flag is final: whatever the
    player answers, [do_player_turn] returns with that hand exactly as it
    was, with the same cards and the same bet. *)
Theorem flagged_hand_is_final (fuel : nat) (g g' : Game.t) (pi i : nat)
    (p : Player.t) (h : Hand.t) (inputs rest : list string) (ok : bool) :
  Game.players g !! pi = Some p ->
  Player.hands p !! i = Some h ->
  Hand.split_ace h = true ->
  Game.do_player_turn fuel g pi inputs = Some (ok, g', rest) ->
  exists p' : Player.t,
    Game.players g' !! pi = Some p' /\ Player.hands p' !! i = Some h.
Proof.
  intros Hp Hi Hflag H.
  apply (turn_from_holds fuel pi i h Hflag g g' 0 inputs rest ok H).
  now exists p.
Qed.

Lemma flagged_hand_is_final_witness :
  let h := Hand.mk [Card.new 1; Card.new 5] 2 10 true in
  let p := Player.mk [h; Hand.dealt 10 [Card.new 1; Card.new 7]] 80 false
                     "player 1" in
  let g := Game.mk (Shoe.mk [Card.new 2; Card.new 3]) [p] Dealer.new in
  Hand.split_ace h = true
  /\ exists (g' : Game.t) (p' : Player.t),
       Game.do_player_turn 6 g 0 ["h"; "s"]%string = Some (true, g', [])
       /\ Game.players g' !! 0%nat = Some p'
       /\ Player.hands p' !! 0%nat = Some h.
Proof.
  split; [reflexivity|].
  eexists.
  destruct (flagged_hand_is_final 6
              (Game.mk (Shoe.mk [Card.new 2; Card.new 3])
                 [Player.mk [Hand.mk [Card.new 1; Card.new 5] 2 10 true;
                             Hand.dealt 10 [Card.new 1; Card.new 7]]
                            80 false "player 1"]
                 Dealer.new)
              _ 0 0 _ (Hand.mk [Card.new 1; Card.new 5] 2 10 true)
              ["h"; "s"]%string [] true eq_refl eq_refl eq_refl eq_refl)
    as (p' & H1 & H2).
  exists p'. split; [reflexivity|]. split; [exact H1|exact H2].
Defined.
